(** * The interpreter's bytecode generator (src/interpreter/bytecode-generator.cc)

    A shallow embedding of [BytecodeGenerator]: the AST visitor that walks
    the resolved syntax tree of one function and drives a
    [BytecodeArrayBuilder].  The visitor methods are translated one by one;
    the builder, the loop builder, the temporary register scope and the AST
    accessors live in other files of the project and are modelled from the
    specification (each such definition says so).

    The process-terminating macros [UNIMPLEMENTED()] and [UNREACHABLE()] and
    the debug-only [DCHECK] are modelled by a state-and-failure monad whose
    failing outcome keeps the state reached at the point of failure, so that
    what had been emitted before a failure can be stated. *)

From Stdlib Require Import ZArith List Bool String Lia.
Import ListNotations.

Local Open Scope Z_scope.

(** ** Values of the syntax tree *)

(** [Token::Value], restricted to the binary and comparison operators. *)
Inductive Token : Type :=
| COMMA | OR | AND
| BIT_OR | BIT_XOR | BIT_AND | SHL | SAR | SHR
| ADD | SUB | MUL | DIV | MOD
| EQ | NE | EQ_STRICT | NE_STRICT | LT | GT | LTE | GTE | INSTANCEOF | IN.

Inductive LanguageMode : Type := SLOPPY | STRICT | STRONG.

Inductive VariableLocation : Type :=
| UNALLOCATED | PARAMETER | LOCAL | CONTEXT | GLOBAL | LOOKUP.

(** C++ [int]: 32 bits, two's complement.  A value of that type is kept in
    [Z]; [int_wrap] brings the result of an arithmetic operation back into
    the range, as the machine does. *)
Definition INT_MIN : Z := -2147483648.
Definition INT_MAX : Z := 2147483647.

Definition int_wrap (z : Z) : Z := (z - INT_MIN) mod 4294967296 + INT_MIN.

(** A resolved [Variable] ([Variable_] here, the name being reserved):
    storage class and class-specific index, an [int]. *)
Record Variable_ : Type := {
  location : VariableLocation;
  index : Z;
  IsStaticGlobalObjectProperty : bool
}.

(** The value of a [Literal] node, by the runtime categories that
    [VisitLiteral] tells apart. *)
Inductive Object : Type :=
| Smi (value : Z)
| Undefined
| TrueValue
| FalseValue
| Null
| TheHole
| PropertyName (name : string)
| HeapObject (handle : Z).

Definition IsSmi (o : Object) : bool :=
  match o with Smi _ => true | _ => false end.
Definition IsUndefined (o : Object) : bool :=
  match o with Undefined => true | _ => false end.
Definition IsTrue (o : Object) : bool :=
  match o with TrueValue => true | _ => false end.
Definition IsFalse (o : Object) : bool :=
  match o with FalseValue => true | _ => false end.
Definition IsNull (o : Object) : bool :=
  match o with Null => true | _ => false end.
Definition IsTheHole (o : Object) : bool :=
  match o with TheHole => true | _ => false end.

(** Identity of a breakable statement: the address of the node, which is what
    [ControlScopeForIteration::Execute] compares. *)
Definition StatementId : Type := Z.

Definition FeedbackVectorSlot : Type := Z.

Record RuntimeFunction : Type := {
  function_id : Z;
  result_size : Z
}.

Inductive Declaration : Type :=
| VariableDeclaration (var : Variable_)
| FunctionDeclaration
| ImportDeclaration
| ExportDeclaration.

(** The part of a [Scope] the generator reads. [function] stands for the
    implicit declaration of the function's own name. *)
Record Scope : Type := {
  is_function_scope : bool;
  function : option Variable_;
  declarations : list Declaration;
  num_stack_slots : Z;
  ContextLocalCount : Z
}.

(** ** The syntax tree

    One constructor per node type of the AST.  Node types whose visitor never
    looks inside the node carry no children.  The induction principles are
    stated by hand further down, the lists of children being nested. *)
Unset Elimination Schemes.

Inductive Expression : Type :=
| FunctionLiteral
| ClassLiteral
| NativeFunctionLiteral
| Conditional
| VariableProxy (var : Variable_)
| Literal (value : Object)
| RegExpLiteral
| ObjectLiteral
| ArrayLiteral
| Assignment (is_compound : bool) (target value : Expression)
             (AssignmentSlot : FeedbackVectorSlot)
| Yield
| Throw
| Property (obj key : Expression) (PropertyFeedbackSlot : FeedbackVectorSlot)
| Call (expression : Expression) (arguments : list Expression)
       (is_possibly_eval : bool)
| CallNew
| CallRuntime (is_jsruntime : bool) (function : RuntimeFunction)
              (arguments : list Expression)
| UnaryOperation
| CountOperation
| BinaryOperation (op : Token) (left right : Expression)
| CompareOperation (op : Token) (left right : Expression)
| Spread
| ThisFunction
| SuperPropertyReference
| SuperCallReference
| CaseClause
| EmptyParentheses.

Inductive Statement : Type :=
| Block (scope : option Scope) (statements : list Statement)
| ExpressionStatement (expression : Expression)
| EmptyStatement
| SloppyBlockFunctionStatement (statement : Statement)
| IfStatement (condition : Expression) (then_statement : Statement)
              (else_statement : option Statement)
| ContinueStatement (target : StatementId)
| BreakStatement (target : StatementId)
| ReturnStatement (expression : Expression)
| WithStatement
| SwitchStatement
| DoWhileStatement (id : StatementId) (body : Statement) (cond : Expression)
| WhileStatement (id : StatementId) (cond : Expression) (body : Statement)
| ForStatement (id : StatementId) (init : option Statement)
               (cond : option Expression) (next : option Statement)
               (body : Statement)
| ForInStatement
| ForOfStatement
| TryCatchStatement
| TryFinallyStatement
| DebuggerStatement.

Set Elimination Schemes.

(** The function being compiled, as [CompilationInfo] presents it. *)
Record CompilationInfo : Type := {
  scope : Scope;
  num_parameters_including_this : Z;
  literal_body : list Statement;
  info_language_mode : LanguageMode;
  feedback_vector_GetIndex : FeedbackVectorSlot -> Z
}.

(** ** AST accessors (src/ast.h) *)

(** Modelled from the spec: [Expression::IsValidReferenceExpression], absent
    from this file; "a valid storable reference" is a variable or a
    property. *)
Definition IsValidReferenceExpression (e : Expression) : bool :=
  match e with
  | VariableProxy _ | Property _ _ _ => true
  | _ => false
  end.

(** The node type tests [IsSuperPropertyReference] and
    [IsSuperCallReference]. *)
Definition IsSuperPropertyReference (e : Expression) : bool :=
  match e with SuperPropertyReference => true | _ => false end.

Definition IsSuperCallReference (e : Expression) : bool :=
  match e with SuperCallReference => true | _ => false end.

(** Modelled from the spec: [Expression::IsPropertyName], absent from this
    file; a "statically named key" is a literal holding a property name. *)
Definition IsPropertyName (e : Expression) : bool :=
  match e with Literal (PropertyName _) => true | _ => false end.

Inductive LhsKind : Type :=
| VARIABLE
| NAMED_PROPERTY
| KEYED_PROPERTY
| NAMED_SUPER_PROPERTY
| KEYED_SUPER_PROPERTY.

(** Modelled from the spec: [Property::GetAssignType] applied to
    [target->AsProperty()], absent from this file.  A target that is not a
    property is a plain variable; a property is named or keyed by its key, and
    a super access when its object is a super reference. *)
Definition GetAssignType (property : Expression) : LhsKind :=
  match property with
  | Property obj key _ =>
      if IsPropertyName key
      then (if IsSuperPropertyReference obj
            then NAMED_SUPER_PROPERTY else NAMED_PROPERTY)
      else (if IsSuperPropertyReference obj
            then KEYED_SUPER_PROPERTY else KEYED_PROPERTY)
  | _ => VARIABLE
  end.

Inductive CallType : Type :=
| POSSIBLY_EVAL_CALL
| GLOBAL_CALL
| LOOKUP_SLOT_CALL
| PROPERTY_CALL
| SUPER_CALL
| OTHER_CALL.

(** Modelled from the spec: [Call::GetCallType], absent from this file.  The
    call shapes of the spec: a possible direct eval, an unqualified call of a
    global, a dynamic-scope lookup call, a super-constructor call, a property
    call, and any other shape. *)
Definition GetCallType (callee : Expression) (possibly_eval : bool) : CallType :=
  match callee with
  | VariableProxy v =>
      if possibly_eval then POSSIBLY_EVAL_CALL
      else match location v with
           | UNALLOCATED | GLOBAL => GLOBAL_CALL
           | LOOKUP => LOOKUP_SLOT_CALL
           | _ => OTHER_CALL
           end
  | SuperCallReference => SUPER_CALL
  | Property _ _ _ => PROPERTY_CALL
  | _ => OTHER_CALL
  end.

(** ** The instruction sink *)

(** A [Register] operand.  Locals and temporaries are addressed by index;
    [BytecodeArrayBuilder::Parameter] maps a parameter position to a register
    in a way owned by the builder, so a parameter register is kept as the
    position it was asked for. *)
Inductive Register : Type :=
| RegisterAt (index : Z)
| Parameter_ (parameter_index : Z).

(** Identity of a [BytecodeLabel] object. *)
Inductive BytecodeLabel : Type := Label (identity : Z).

(** What the generator asks of the builder, in order: the instructions it
    emits and the labels it binds. *)
Inductive BuilderOp : Type :=
| OpLoadLiteralSmi (value : Z)
| OpLoadLiteral (value : Object)
| OpLoadUndefined
| OpLoadNull
| OpLoadTheHole
| OpLoadTrue
| OpLoadFalse
| OpLoadAccumulatorWithRegister (reg : Register)
| OpStoreAccumulatorInRegister (reg : Register)
| OpLoadGlobal (slot_index : Z)
| OpLoadNamedProperty (object : Register) (feedback_slot : Z)
                      (language_mode : LanguageMode)
| OpLoadKeyedProperty (object : Register) (feedback_slot : Z)
                      (language_mode : LanguageMode)
| OpStoreNamedProperty (object key : Register) (feedback_slot : Z)
                       (language_mode : LanguageMode)
| OpStoreKeyedProperty (object key : Register) (feedback_slot : Z)
                       (language_mode : LanguageMode)
| OpCall (callee receiver : Register) (arg_count : Z)
| OpCallRuntime (function_id : Z) (first_arg : Register) (arg_count : Z)
| OpBinaryOperation (op : Token) (reg : Register)
| OpCompareOperation (op : Token) (reg : Register)
                     (language_mode : LanguageMode)
| OpCastAccumulatorToBoolean
| OpJump (label : BytecodeLabel)
| OpJumpIfTrue (label : BytecodeLabel)
| OpJumpIfFalse (label : BytecodeLabel)
| OpReturn
| OpEnterBlock
| OpLeaveBlock
| OpBind (label : BytecodeLabel)
| OpBindTo (target site : BytecodeLabel).

(** Modelled from the spec: [BytecodeArrayBuilder], absent from this file.  It
    accumulates what is emitted, carries the declared parameter and local
    counts, and owns the frontier of the temporary register allocator (the
    next unused register index). *)
Record BytecodeArrayBuilder : Type := {
  bytecodes : list BuilderOp;
  parameter_count : Z;
  locals_count : Z;
  temporary_register_next : Z
}.

(** Modelled from the spec: [LoopBuilder] (control-flow-builders.h), absent
    from this file: "one builder instance per loop node, holding two labels
    (break-target, continue-target)". *)
Record LoopBuilder : Type := {
  break_target : BytecodeLabel;
  continue_target : BytecodeLabel
}.

(** A [ControlScopeForIteration]: the statement it guards and the loop
    builder that serves it.  The chain through [outer_] is the list that
    holds the scopes, innermost first; [nullptr] is the empty list. *)
Record ControlScope : Type := {
  statement_ : StatementId;
  loop_builder_ : LoopBuilder
}.

(** The members of [BytecodeGenerator] that change during a pass.
    [next_label] numbers the [BytecodeLabel] objects created so far: it stands
    for the distinct addresses of those objects.  [info_] and [scope_] are set
    once per pass and are parameters of the visitor below. *)
Record BytecodeGenerator : Type := {
  builder_ : BytecodeArrayBuilder;
  control_scope_ : list ControlScope;
  next_label : Z
}.

(** ** Failures and the generator monad *)

Inductive Failure : Type :=
| Unimplemented      (* UNIMPLEMENTED() *)
| Unreachable        (* UNREACHABLE() *)
| DcheckFailed       (* a DCHECK that does not hold, in a debug build *)
| NullDereference.   (* use of a null pointer *)

Inductive Outcome (A : Type) : Type :=
| Ok (result : A) (g : BytecodeGenerator)
| Abort (failure : Failure) (g : BytecodeGenerator).
Arguments Ok {A} result g.
Arguments Abort {A} failure g.

Definition M (A : Type) : Type := BytecodeGenerator -> Outcome A.

Definition ret {A} (a : A) : M A := fun g => Ok a g.

Definition bind {A B} (m : M A) (k : A -> M B) : M B :=
  fun g => match m g with
           | Ok a g' => k a g'
           | Abort f g' => Abort f g'
           end.

Definition fail {A} (f : Failure) : M A := fun g => Abort f g.

Declare Scope gen_scope.
Delimit Scope gen_scope with gen.
Notation "x <- m ;; k" := (bind m (fun x => k))
  (at level 61, m at next level, right associativity) : gen_scope.
Notation "m ;; k" := (bind m (fun _ => k))
  (at level 61, right associativity) : gen_scope.
Local Open Scope gen_scope.

Definition UNIMPLEMENTED {A} : M A := fail Unimplemented.
Definition UNREACHABLE {A} : M A := fail Unreachable.

(** The state an outcome ends in, and the ops emitted so far in a state. *)
Definition final {A} (o : Outcome A) : BytecodeGenerator :=
  match o with Ok _ g => g | Abort _ g => g end.

Definition emitted (g : BytecodeGenerator) : list BuilderOp :=
  bytecodes (builder_ g).

Definition frontier (g : BytecodeGenerator) : Z :=
  temporary_register_next (builder_ g).

(** ** Builder primitives *)

Definition with_builder (g : BytecodeGenerator) (b : BytecodeArrayBuilder)
  : BytecodeGenerator :=
  {| builder_ := b;
     control_scope_ := control_scope_ g;
     next_label := next_label g |}.

(** Modelled from the spec: every emit primitive and [Bind] of the builder
    appends to the sequence accumulated so far, and nothing else. *)
Definition Emit (op : BuilderOp) : M unit :=
  fun g =>
    let b := builder_ g in
    Ok tt (with_builder g
             {| bytecodes := bytecodes b ++ [op];
                parameter_count := parameter_count b;
                locals_count := locals_count b;
                temporary_register_next := temporary_register_next b |}).

(** Modelled from the spec: the allocator's frontier is moved by the
    temporary register scopes only. *)
Definition set_frontier (next : Z) : M unit :=
  fun g =>
    let b := builder_ g in
    Ok tt (with_builder g
             {| bytecodes := bytecodes b;
                parameter_count := parameter_count b;
                locals_count := locals_count b;
                temporary_register_next := next |}).

(** Modelled from the spec: the builder keeps the parameter count it is
    given, for the finalized program. *)
Definition set_parameter_count (n : Z) : M unit :=
  fun g =>
    let b := builder_ g in
    Ok tt (with_builder g
             {| bytecodes := bytecodes b;
                parameter_count := n;
                locals_count := locals_count b;
                temporary_register_next := temporary_register_next b |}).

(** Modelled from the spec: locals and temporaries share one index space, so
    declaring [n] locals makes [n] the next unused register index. *)
Definition set_locals_count (n : Z) : M unit :=
  fun g =>
    let b := builder_ g in
    Ok tt (with_builder g
             {| bytecodes := bytecodes b;
                parameter_count := parameter_count b;
                locals_count := n;
                temporary_register_next := n |}).

Definition LoadLiteralSmi (v : Z) : M unit := Emit (OpLoadLiteralSmi v).
Definition LoadLiteral (v : Object) : M unit := Emit (OpLoadLiteral v).
Definition LoadUndefined : M unit := Emit OpLoadUndefined.
Definition LoadNull : M unit := Emit OpLoadNull.
Definition LoadTheHole : M unit := Emit OpLoadTheHole.
Definition LoadTrue : M unit := Emit OpLoadTrue.
Definition LoadFalse : M unit := Emit OpLoadFalse.
Definition LoadAccumulatorWithRegister (r : Register) : M unit :=
  Emit (OpLoadAccumulatorWithRegister r).
Definition StoreAccumulatorInRegister (r : Register) : M unit :=
  Emit (OpStoreAccumulatorInRegister r).
Definition LoadGlobal (i : Z) : M unit := Emit (OpLoadGlobal i).
Definition LoadNamedProperty (o : Register) (i : Z) (m : LanguageMode) : M unit :=
  Emit (OpLoadNamedProperty o i m).
Definition LoadKeyedProperty (o : Register) (i : Z) (m : LanguageMode) : M unit :=
  Emit (OpLoadKeyedProperty o i m).
Definition StoreNamedProperty (o k : Register) (i : Z) (m : LanguageMode)
  : M unit := Emit (OpStoreNamedProperty o k i m).
Definition StoreKeyedProperty (o k : Register) (i : Z) (m : LanguageMode)
  : M unit := Emit (OpStoreKeyedProperty o k i m).
Definition CallOp (callee receiver : Register) (n : Z) : M unit :=
  Emit (OpCall callee receiver n).
Definition CallRuntimeOp (f : Z) (first_arg : Register) (n : Z) : M unit :=
  Emit (OpCallRuntime f first_arg n).
Definition BinaryOperationOp (op : Token) (r : Register) : M unit :=
  Emit (OpBinaryOperation op r).
Definition CompareOperationOp (op : Token) (r : Register) (m : LanguageMode)
  : M unit := Emit (OpCompareOperation op r m).
Definition CastAccumulatorToBoolean : M unit := Emit OpCastAccumulatorToBoolean.
Definition Jump (l : BytecodeLabel) : M unit := Emit (OpJump l).
Definition JumpIfTrue (l : BytecodeLabel) : M unit := Emit (OpJumpIfTrue l).
Definition JumpIfFalse (l : BytecodeLabel) : M unit := Emit (OpJumpIfFalse l).
Definition Return : M unit := Emit OpReturn.
Definition EnterBlock : M unit := Emit OpEnterBlock.
Definition LeaveBlock : M unit := Emit OpLeaveBlock.
Definition Bind (l : BytecodeLabel) : M unit := Emit (OpBind l).

(** A [BytecodeLabel] declared in a visitor: a new object, distinct from
    every label created before it. *)
Definition NewLabel : M BytecodeLabel :=
  fun g => Ok (Label (next_label g))
              {| builder_ := builder_ g;
                 control_scope_ := control_scope_ g;
                 next_label := next_label g + 1 |}.

(** ** Temporary register scope *)

(** Modelled from the spec: [TemporaryRegisterScope], absent from this file.
    The scope remembers the allocator's mark at entry; [NewRegister] returns
    the next unused index and advances; leaving the scope restores the
    mark. *)
Record TemporaryRegisterScope : Type := { mark : Z }.

Definition TemporaryRegisterScope_open : M TemporaryRegisterScope :=
  fun g => Ok {| mark := frontier g |} g.

Definition NewRegister (scope : TemporaryRegisterScope) : M Register :=
  fun g => bind (set_frontier (frontier g + 1))
                (fun _ => ret (RegisterAt (frontier g))) g.

Definition TemporaryRegisterScope_close (scope : TemporaryRegisterScope)
  : M unit := set_frontier (mark scope).

(** [Register::index()] of a register addressed by index. *)
Definition Register_index (r : Register) : option Z :=
  match r with
  | RegisterAt i => Some i
  | Parameter_ _ => None
  end.

(** ** Loop builder and control scopes *)

(** Modelled from the spec: a new loop builder holds two labels of its
    own, not yet bound. *)
Definition LoopBuilder_new : M LoopBuilder :=
  break_label <- NewLabel ;;
  continue_label <- NewLabel ;;
  ret {| break_target := break_label; continue_target := continue_label |}.

(** Modelled from the spec: [LoopBuilder::Break] and [LoopBuilder::Continue]
    emit "a jump to that skeleton's break/continue label (not yet
    necessarily bound)". *)
Definition LoopBuilder_Break (l : LoopBuilder) : M unit :=
  Jump (break_target l).
Definition LoopBuilder_Continue (l : LoopBuilder) : M unit :=
  Jump (continue_target l).

(** Modelled from the spec: [SetBreakTarget] and [SetContinueTarget] bind the
    skeleton's own label to the position of the label given. *)
Definition SetBreakTarget (l : LoopBuilder) (target : BytecodeLabel) : M unit :=
  Emit (OpBindTo target (break_target l)).
Definition SetContinueTarget (l : LoopBuilder) (target : BytecodeLabel)
  : M unit := Emit (OpBindTo target (continue_target l)).

Inductive Command : Type := CMD_BREAK | CMD_CONTINUE.

Definition control_scope : M (list ControlScope) :=
  fun g => Ok (control_scope_ g) g.

Definition set_control_scope (chain : list ControlScope) : M unit :=
  fun g => Ok tt {| builder_ := builder_ g;
                    control_scope_ := chain;
                    next_label := next_label g |}.

(** The constructor of [ControlScopeForIteration]: the new scope becomes the
    head of the chain; the previous head is its [outer_], returned here for
    the destructor to restore. *)
Definition ControlScopeForIteration_new (statement : StatementId)
    (loop_builder : LoopBuilder) : M (list ControlScope) :=
  outer <- control_scope ;;
  set_control_scope
    ({| statement_ := statement; loop_builder_ := loop_builder |} :: outer) ;;
  ret outer.

Definition ControlScope_delete (outer : list ControlScope) : M unit :=
  set_control_scope outer.

Definition Execute (current : ControlScope) (command : Command)
    (statement : StatementId) : M bool :=
  if negb (statement =? statement_ current) then ret false
  else match command with
       | CMD_BREAK => LoopBuilder_Break (loop_builder_ current) ;; ret true
       | CMD_CONTINUE => LoopBuilder_Continue (loop_builder_ current) ;; ret true
       end.

(** [ControlScope::PerformCommand], on the scope [current] whose chain of
    outer scopes is [outer]. *)
Fixpoint PerformCommand (current : ControlScope) (outer : list ControlScope)
    (command : Command) (statement : StatementId) : M unit :=
  done <- Execute current command statement ;;
  if done then ret tt
  else match outer with
       | next :: outer' => PerformCommand next outer' command statement
       | [] => UNREACHABLE
       end.

(** [control_scope()->Break(stmt)] and [control_scope()->Continue(stmt)]:
    the call goes through the head of the chain. *)
Definition ControlScope_Break (statement : StatementId) : M unit :=
  chain <- control_scope ;;
  match chain with
  | head :: outer => PerformCommand head outer CMD_BREAK statement
  | [] => fail NullDereference
  end.

Definition ControlScope_Continue (statement : StatementId) : M unit :=
  chain <- control_scope ;;
  match chain with
  | head :: outer => PerformCommand head outer CMD_CONTINUE statement
  | [] => fail NullDereference
  end.

(** ** The visitor *)

Section Visitor.

(** [DEBUG] tells whether the build checks [DCHECK]s; [info] is the
    [CompilationInfo] that [MakeBytecode] installs for the pass. *)
Variable DEBUG : bool.
Variable info : CompilationInfo.

Definition DCHECK (condition : bool) : M unit :=
  if DEBUG && negb condition then fail DcheckFailed else ret tt.

Definition language_mode : LanguageMode := info_language_mode info.

Definition feedback_index (slot : FeedbackVectorSlot) : Z :=
  feedback_vector_GetIndex info slot.

Definition VisitVariableDeclaration (variable : Variable_) : M unit :=
  match location variable with
  | GLOBAL | UNALLOCATED => UNIMPLEMENTED
  | PARAMETER | LOCAL => ret tt
  | CONTEXT | LOOKUP => UNIMPLEMENTED
  end.

Definition VisitFunctionDeclaration : M unit := UNIMPLEMENTED.
Definition VisitImportDeclaration : M unit := UNIMPLEMENTED.
Definition VisitExportDeclaration : M unit := UNIMPLEMENTED.

Definition VisitDeclaration (decl : Declaration) : M unit :=
  match decl with
  | VariableDeclaration variable => VisitVariableDeclaration variable
  | FunctionDeclaration => VisitFunctionDeclaration
  | ImportDeclaration => VisitImportDeclaration
  | ExportDeclaration => VisitExportDeclaration
  end.

(** Modelled from the spec: [AstVisitor::VisitDeclarations], absent from this
    file, lowers "a nested declaration list" in sequence. *)
Fixpoint VisitDeclarations (decls : list Declaration) : M unit :=
  match decls with
  | [] => ret tt
  | decl :: rest => VisitDeclaration decl ;; VisitDeclarations rest
  end.

Definition VisitLiteral (value : Object) : M unit :=
  if IsSmi value then
    match value with Smi v => LoadLiteralSmi v | _ => LoadLiteral value end
  else if IsUndefined value then LoadUndefined
  else if IsTrue value then LoadTrue
  else if IsFalse value then LoadFalse
  else if IsNull value then LoadNull
  else if IsTheHole value then LoadTheHole
  else LoadLiteral value.

Definition VisitVariableLoad (variable : Variable_) : M unit :=
  match location variable with
  | LOCAL =>
      let source := RegisterAt (index variable) in
      LoadAccumulatorWithRegister source
  | PARAMETER =>
      let source := Parameter_ (int_wrap (index variable + 1)) in
      LoadAccumulatorWithRegister source
  | GLOBAL =>
      DCHECK (IsStaticGlobalObjectProperty variable) ;;
      LoadGlobal (index variable)
  | UNALLOCATED | CONTEXT | LOOKUP => UNIMPLEMENTED
  end.

Definition VisitVariableProxy (var : Variable_) : M unit :=
  VisitVariableLoad var.

(** [key->AsLiteral()->AsPropertyName()] followed by [LoadLiteral]. *)
Definition LoadPropertyName (key : Expression) : M unit :=
  match key with
  | Literal name => LoadLiteral name
  | _ => fail NullDereference
  end.

Section ExpressionRules.

Variable Visit : Expression -> M unit.

Definition VisitPropertyLoad (object : Register) (obj key : Expression)
    (slot : FeedbackVectorSlot) : M unit :=
  match GetAssignType (Property obj key slot) with
  | VARIABLE => UNREACHABLE
  | NAMED_PROPERTY =>
      LoadPropertyName key ;;
      LoadNamedProperty object (feedback_index slot) language_mode
  | KEYED_PROPERTY =>
      Visit key ;;
      LoadKeyedProperty object (feedback_index slot) language_mode
  | NAMED_SUPER_PROPERTY | KEYED_SUPER_PROPERTY => UNIMPLEMENTED
  end.

Definition VisitProperty (obj key : Expression) (slot : FeedbackVectorSlot)
  : M unit :=
  temporary_register_scope <- TemporaryRegisterScope_open ;;
  object <- NewRegister temporary_register_scope ;;
  Visit obj ;;
  StoreAccumulatorInRegister object ;;
  VisitPropertyLoad object obj key slot ;;
  TemporaryRegisterScope_close temporary_register_scope.

Definition VisitAssignment (is_compound : bool) (target value : Expression)
    (slot : FeedbackVectorSlot) : M unit :=
  DCHECK (IsValidReferenceExpression target) ;;
  temporary_register_scope <- TemporaryRegisterScope_open ;;
  let assign_type := GetAssignType target in
  (* Evaluate LHS expression. *)
  object_key <-
    match assign_type with
    | VARIABLE => ret None
    | NAMED_PROPERTY =>
        match target with
        | Property obj key _ =>
            object <- NewRegister temporary_register_scope ;;
            key_register <- NewRegister temporary_register_scope ;;
            Visit obj ;;
            StoreAccumulatorInRegister object ;;
            LoadPropertyName key ;;
            StoreAccumulatorInRegister key_register ;;
            ret (Some (object, key_register))
        | _ => fail NullDereference
        end
    | KEYED_PROPERTY =>
        match target with
        | Property obj key _ =>
            object <- NewRegister temporary_register_scope ;;
            key_register <- NewRegister temporary_register_scope ;;
            Visit obj ;;
            StoreAccumulatorInRegister object ;;
            Visit key ;;
            StoreAccumulatorInRegister key_register ;;
            ret (Some (object, key_register))
        | _ => fail NullDereference
        end
    | NAMED_SUPER_PROPERTY | KEYED_SUPER_PROPERTY => UNIMPLEMENTED
    end ;;
  (* Evaluate the value. *)
  (if is_compound then UNIMPLEMENTED else Visit value) ;;
  (* Store the value. *)
  match assign_type with
  | VARIABLE =>
      match target with
      | VariableProxy variable =>
          DCHECK (match location variable with LOCAL => true | _ => false end) ;;
          let destination := RegisterAt (index variable) in
          StoreAccumulatorInRegister destination
      | _ => fail NullDereference
      end
  | NAMED_PROPERTY =>
      match object_key with
      | Some (object, key_register) =>
          StoreNamedProperty object key_register (feedback_index slot)
                             language_mode
      | None => fail NullDereference
      end
  | KEYED_PROPERTY =>
      match object_key with
      | Some (object, key_register) =>
          StoreKeyedProperty object key_register (feedback_index slot)
                             language_mode
      | None => fail NullDereference
      end
  | NAMED_SUPER_PROPERTY | KEYED_SUPER_PROPERTY => UNIMPLEMENTED
  end ;;
  TemporaryRegisterScope_close temporary_register_scope.

(** The argument loop of [VisitCall], from index [i] on. *)
Fixpoint VisitCallArguments (scope : TemporaryRegisterScope)
    (receiver : Register) (i : Z) (args : list Expression) : M unit :=
  match args with
  | [] => ret tt
  | a :: rest =>
      Visit a ;;
      arg <- NewRegister scope ;;
      DCHECK (match Register_index arg, Register_index receiver with
              | Some arg_index, Some receiver_index =>
                  arg_index - i =? receiver_index + 1
              | _, _ => false
              end) ;;
      StoreAccumulatorInRegister arg ;;
      VisitCallArguments scope receiver (i + 1) rest
  end.

Definition VisitCall (callee_expr : Expression) (args : list Expression)
    (possibly_eval : bool) : M unit :=
  let call_type := GetCallType callee_expr possibly_eval in
  temporary_register_scope <- TemporaryRegisterScope_open ;;
  callee <- NewRegister temporary_register_scope ;;
  receiver <- NewRegister temporary_register_scope ;;
  match call_type with
  | PROPERTY_CALL =>
      match callee_expr with
      | Property obj key slot =>
          (if IsSuperPropertyReference obj then UNIMPLEMENTED else ret tt) ;;
          Visit obj ;;
          StoreAccumulatorInRegister receiver ;;
          VisitPropertyLoad receiver obj key slot ;;
          StoreAccumulatorInRegister callee
      | _ => fail NullDereference
      end
  | GLOBAL_CALL =>
      LoadUndefined ;;
      StoreAccumulatorInRegister receiver ;;
      match callee_expr with
      | VariableProxy var =>
          VisitVariableLoad var ;;
          StoreAccumulatorInRegister callee
      | _ => fail NullDereference
      end
  | LOOKUP_SLOT_CALL | SUPER_CALL | POSSIBLY_EVAL_CALL | OTHER_CALL =>
      UNIMPLEMENTED
  end ;;
  VisitCallArguments temporary_register_scope receiver 0 args ;;
  CallOp callee receiver (Z.of_nat (List.length args)) ;;
  TemporaryRegisterScope_close temporary_register_scope.

(** The argument loop of [VisitCallRuntime], from index [i] on. *)
Fixpoint VisitCallRuntimeArguments (scope : TemporaryRegisterScope)
    (first_arg : Register) (i : Z) (args : list Expression) : M unit :=
  match args with
  | [] => ret tt
  | a :: rest =>
      arg <- (if i =? 0 then ret first_arg else NewRegister scope) ;;
      Visit a ;;
      DCHECK (match Register_index arg, Register_index first_arg with
              | Some arg_index, Some first_index =>
                  arg_index - i =? first_index
              | _, _ => false
              end) ;;
      StoreAccumulatorInRegister arg ;;
      VisitCallRuntimeArguments scope first_arg (i + 1) rest
  end.

Definition VisitCallRuntime (is_jsruntime : bool) (function : RuntimeFunction)
    (args : list Expression) : M unit :=
  (if is_jsruntime then UNIMPLEMENTED else ret tt) ;;
  temporary_register_scope <- TemporaryRegisterScope_open ;;
  first_arg <- NewRegister temporary_register_scope ;;
  VisitCallRuntimeArguments temporary_register_scope first_arg 0 args ;;
  DCHECK (result_size function <=? 1) ;;
  CallRuntimeOp (function_id function) first_arg (Z.of_nat (List.length args)) ;;
  TemporaryRegisterScope_close temporary_register_scope.

Definition VisitArithmeticExpression (op : Token) (left right : Expression)
  : M unit :=
  temporary_register_scope <- TemporaryRegisterScope_open ;;
  temporary <- NewRegister temporary_register_scope ;;
  Visit left ;;
  StoreAccumulatorInRegister temporary ;;
  Visit right ;;
  BinaryOperationOp op temporary ;;
  TemporaryRegisterScope_close temporary_register_scope.

Definition VisitBinaryOperation (op : Token) (left right : Expression)
  : M unit :=
  match op with
  | COMMA | OR | AND => UNIMPLEMENTED
  | _ => VisitArithmeticExpression op left right
  end.

Definition VisitCompareOperation (op : Token) (left right : Expression)
  : M unit :=
  temporary_register_scope <- TemporaryRegisterScope_open ;;
  temporary <- NewRegister temporary_register_scope ;;
  Visit left ;;
  StoreAccumulatorInRegister temporary ;;
  Visit right ;;
  CompareOperationOp op temporary language_mode ;;
  TemporaryRegisterScope_close temporary_register_scope.

End ExpressionRules.

(** [Visit] on an expression: dispatch on the node type. *)
Fixpoint VisitExpression (e : Expression) : M unit :=
  match e with
  | FunctionLiteral => UNIMPLEMENTED
  | ClassLiteral => UNIMPLEMENTED
  | NativeFunctionLiteral => UNIMPLEMENTED
  | Conditional => UNIMPLEMENTED
  | VariableProxy var => VisitVariableProxy var
  | Literal value => VisitLiteral value
  | RegExpLiteral => UNIMPLEMENTED
  | ObjectLiteral => UNIMPLEMENTED
  | ArrayLiteral => UNIMPLEMENTED
  | Assignment is_compound target value slot =>
      VisitAssignment VisitExpression is_compound target value slot
  | Yield => UNIMPLEMENTED
  | Throw => UNIMPLEMENTED
  | Property obj key slot => VisitProperty VisitExpression obj key slot
  | Call callee args possibly_eval =>
      VisitCall VisitExpression callee args possibly_eval
  | CallNew => UNIMPLEMENTED
  | CallRuntime is_jsruntime function args =>
      VisitCallRuntime VisitExpression is_jsruntime function args
  | UnaryOperation => UNIMPLEMENTED
  | CountOperation => UNIMPLEMENTED
  | BinaryOperation op lhs rhs =>
      VisitBinaryOperation VisitExpression op lhs rhs
  | CompareOperation op lhs rhs =>
      VisitCompareOperation VisitExpression op lhs rhs
  | Spread => UNREACHABLE
  | ThisFunction => UNIMPLEMENTED
  | SuperPropertyReference => UNIMPLEMENTED
  | SuperCallReference => UNIMPLEMENTED
  | CaseClause => UNIMPLEMENTED
  | EmptyParentheses => UNREACHABLE
  end.

Section StatementRules.

Variable Visit : Statement -> M unit.

(** Modelled from the spec: [AstVisitor::VisitStatements], absent from this
    file, lowers "a nested statement list in sequence". *)
Fixpoint VisitStatements (statements : list Statement) : M unit :=
  match statements with
  | [] => ret tt
  | stmt :: rest => Visit stmt ;; VisitStatements rest
  end.

Definition VisitBlock (scope : option Scope) (statements : list Statement)
  : M unit :=
  EnterBlock ;;
  match scope with
  | None => VisitStatements statements
  | Some block_scope =>
      if ContextLocalCount block_scope >? 0 then UNIMPLEMENTED
      else (VisitDeclarations (declarations block_scope) ;;
            VisitStatements statements)
  end ;;
  LeaveBlock.

Definition VisitExpressionStatement (expression : Expression) : M unit :=
  VisitExpression expression.

Definition VisitEmptyStatement : M unit := ret tt.

Definition VisitIfStatement (condition : Expression)
    (then_statement : Statement) (else_statement : option Statement) : M unit :=
  else_label <- NewLabel ;;
  end_label <- NewLabel ;;
  VisitExpression condition ;;
  CastAccumulatorToBoolean ;;
  JumpIfFalse else_label ;;
  Visit then_statement ;;
  match else_statement with
  | Some else_branch =>
      Jump end_label ;;
      Bind else_label ;;
      Visit else_branch
  | None => Bind else_label
  end ;;
  Bind end_label.

Definition VisitSloppyBlockFunctionStatement (statement : Statement) : M unit :=
  Visit statement.

Definition VisitContinueStatement (target : StatementId) : M unit :=
  ControlScope_Continue target.

Definition VisitBreakStatement (target : StatementId) : M unit :=
  ControlScope_Break target.

Definition VisitReturnStatement (expression : Expression) : M unit :=
  VisitExpression expression ;;
  Return.

Definition VisitDoWhileStatement (stmt : StatementId) (body : Statement)
    (cond : Expression) : M unit :=
  loop_builder <- LoopBuilder_new ;;
  outer <- ControlScopeForIteration_new stmt loop_builder ;;
  body_label <- NewLabel ;;
  condition_label <- NewLabel ;;
  done_label <- NewLabel ;;
  Bind body_label ;;
  Visit body ;;
  Bind condition_label ;;
  VisitExpression cond ;;
  JumpIfTrue body_label ;;
  Bind done_label ;;
  SetBreakTarget loop_builder done_label ;;
  SetContinueTarget loop_builder condition_label ;;
  ControlScope_delete outer.

Definition VisitWhileStatement (stmt : StatementId) (cond : Expression)
    (body : Statement) : M unit :=
  loop_builder <- LoopBuilder_new ;;
  outer <- ControlScopeForIteration_new stmt loop_builder ;;
  body_label <- NewLabel ;;
  condition_label <- NewLabel ;;
  done_label <- NewLabel ;;
  Jump condition_label ;;
  Bind body_label ;;
  Visit body ;;
  Bind condition_label ;;
  VisitExpression cond ;;
  JumpIfTrue body_label ;;
  Bind done_label ;;
  SetBreakTarget loop_builder done_label ;;
  SetContinueTarget loop_builder condition_label ;;
  ControlScope_delete outer.

Definition VisitForStatement (stmt : StatementId) (init : option Statement)
    (cond : option Expression) (next : option Statement) (body : Statement)
  : M unit :=
  loop_builder <- LoopBuilder_new ;;
  outer <- ControlScopeForIteration_new stmt loop_builder ;;
  match init with
  | Some init_statement => Visit init_statement
  | None => ret tt
  end ;;
  body_label <- NewLabel ;;
  condition_label <- NewLabel ;;
  next_label <- NewLabel ;;
  done_label <- NewLabel ;;
  match cond with
  | Some _ => Jump condition_label
  | None => ret tt
  end ;;
  Bind body_label ;;
  Visit body ;;
  Bind next_label ;;
  match next with
  | Some next_statement => Visit next_statement
  | None => ret tt
  end ;;
  match cond with
  | Some condition =>
      Bind condition_label ;;
      VisitExpression condition ;;
      JumpIfTrue body_label
  | None => Jump body_label
  end ;;
  Bind done_label ;;
  SetBreakTarget loop_builder done_label ;;
  SetContinueTarget loop_builder next_label ;;
  ControlScope_delete outer.

End StatementRules.

(** [Visit] on a statement: dispatch on the node type. *)
Fixpoint VisitStatement (s : Statement) : M unit :=
  match s with
  | Block scope statements => VisitBlock VisitStatement scope statements
  | ExpressionStatement expression => VisitExpressionStatement expression
  | EmptyStatement => VisitEmptyStatement
  | SloppyBlockFunctionStatement statement =>
      VisitSloppyBlockFunctionStatement VisitStatement statement
  | IfStatement condition then_statement else_statement =>
      VisitIfStatement VisitStatement condition then_statement else_statement
  | ContinueStatement target => VisitContinueStatement target
  | BreakStatement target => VisitBreakStatement target
  | ReturnStatement expression => VisitReturnStatement expression
  | WithStatement => UNIMPLEMENTED
  | SwitchStatement => UNIMPLEMENTED
  | DoWhileStatement stmt body cond =>
      VisitDoWhileStatement VisitStatement stmt body cond
  | WhileStatement stmt cond body =>
      VisitWhileStatement VisitStatement stmt cond body
  | ForStatement stmt init cond next body =>
      VisitForStatement VisitStatement stmt init cond next body
  | ForInStatement => UNIMPLEMENTED
  | ForOfStatement => UNIMPLEMENTED
  | TryCatchStatement => UNIMPLEMENTED
  | TryFinallyStatement => UNIMPLEMENTED
  | DebuggerStatement => UNIMPLEMENTED
  end.

(** ** The finalized program *)

(** Modelled from the spec: the [BytecodeArray] that
    [BytecodeArrayBuilder::ToBytecodeArray], absent from this file, produces:
    the emitted sequence, tagged with the declared parameter count and
    local-slot count.  Resolving labels to offsets is the builder's
    business; the sequence is kept with its labels. *)
Record BytecodeArray : Type := {
  array_bytecodes : list BuilderOp;
  array_parameter_count : Z;
  array_register_count : Z
}.

(** Modelled from the spec: finalizing hands out what was accumulated and
    the two counts the builder was given. *)
Definition ToBytecodeArray : M BytecodeArray :=
  fun g =>
    let b := builder_ g in
    Ok {| array_bytecodes := bytecodes b;
          array_parameter_count := parameter_count b;
          array_register_count := locals_count b |} g.

Definition MakeBytecode : M BytecodeArray :=
  let scope_ := scope info in
  DCHECK (is_function_scope scope_) ;;
  set_parameter_count (num_parameters_including_this info) ;;
  set_locals_count (num_stack_slots scope_) ;;
  (* Visit implicit declaration of the function name. *)
  match function scope_ with
  | Some function_variable =>
      if is_function_scope scope_
      then VisitVariableDeclaration function_variable
      else ret tt
  | None => ret tt
  end ;;
  (* Visit declarations within the function scope. *)
  VisitDeclarations (declarations scope_) ;;
  (* Visit statements in the function body. *)
  VisitStatements VisitStatement (literal_body info) ;;
  ToBytecodeArray.

End Visitor.

(** The constructor of [BytecodeGenerator]: an empty builder and no control
    scope.  [first_label] is where the numbering of label objects starts. *)
Definition BytecodeGenerator_new (first_label : Z) : BytecodeGenerator :=
  {| builder_ := {| bytecodes := [];
                    parameter_count := 0;
                    locals_count := 0;
                    temporary_register_next := 0 |};
     control_scope_ := [];
     next_label := first_label |}.

(** * The vocabulary of the statements *)

(** ** Size of a node

    [VisitAssignment] and [VisitCall] visit children of their target and
    callee, so proofs about the visitor go by induction on the size of the
    node. *)

Fixpoint Expression_size (e : Expression) : nat :=
  match e with
  | Assignment _ target value _ =>
      S (Expression_size target + Expression_size value)
  | Property obj key _ => S (Expression_size obj + Expression_size key)
  | Call callee args _ =>
      S (Expression_size callee +
         (fix sizes (l : list Expression) : nat :=
            match l with
            | [] => O
            | a :: rest => (Expression_size a + sizes rest)%nat
            end) args)
  | CallRuntime _ _ args =>
      S ((fix sizes (l : list Expression) : nat :=
            match l with
            | [] => O
            | a :: rest => (Expression_size a + sizes rest)%nat
            end) args)
  | BinaryOperation _ lhs rhs => S (Expression_size lhs + Expression_size rhs)
  | CompareOperation _ lhs rhs => S (Expression_size lhs + Expression_size rhs)
  | _ => 1%nat
  end.

Fixpoint Expressions_size (l : list Expression) : nat :=
  match l with
  | [] => O
  | a :: rest => (Expression_size a + Expressions_size rest)%nat
  end.

Fixpoint Statement_size (s : Statement) : nat :=
  match s with
  | Block _ statements =>
      S ((fix sizes (l : list Statement) : nat :=
            match l with
            | [] => O
            | a :: rest => (Statement_size a + sizes rest)%nat
            end) statements)
  | SloppyBlockFunctionStatement statement => S (Statement_size statement)
  | IfStatement _ then_statement else_statement =>
      S (Statement_size then_statement +
         match else_statement with
         | Some else_branch => Statement_size else_branch
         | None => O
         end)
  | DoWhileStatement _ body _ => S (Statement_size body)
  | WhileStatement _ _ body => S (Statement_size body)
  | ForStatement _ init _ next body =>
      S (match init with Some i => Statement_size i | None => O end +
         match next with Some n => Statement_size n | None => O end +
         Statement_size body)
  | _ => 1%nat
  end.

Fixpoint Statements_size (l : list Statement) : nat :=
  match l with
  | [] => O
  | a :: rest => (Statement_size a + Statements_size rest)%nat
  end.

(** ** Invariants of a pass

    [steady g g']: from [g] to [g'] the declared counts are unchanged, the
    emitted sequence has only grown at its end, and no label was given back.
    It holds across every computation of the generator, whether it succeeds
    or fails. *)

Definition steady (g g' : BytecodeGenerator) : Prop :=
  parameter_count (builder_ g') = parameter_count (builder_ g) /\
  locals_count (builder_ g') = locals_count (builder_ g) /\
  next_label g <= next_label g' /\
  exists ops, emitted g' = emitted g ++ ops.

Definition Steady {A} (m : M A) : Prop :=
  forall g, steady g (final (m g)).

(** A visit that succeeds has closed every temporary register scope and
    every control scope it opened: the allocator's frontier and the chain of
    control scopes are back where they were. *)
Definition balanced (g g' : BytecodeGenerator) : Prop :=
  frontier g' = frontier g /\ control_scope_ g' = control_scope_ g.

Definition Balanced {A} (m : M A) : Prop :=
  forall g a g', m g = Ok a g' -> balanced g g'.

(** ** Emitted code *)

(** What lowering the arguments of a call emits: the code of each argument
    followed by a store into the next register, from [base] upwards. *)
Fixpoint argument_stores (base : Z) (codes : list (list BuilderOp))
  : list BuilderOp :=
  match codes with
  | [] => []
  | code :: rest =>
      code ++ OpStoreAccumulatorInRegister (RegisterAt base)
           :: argument_stores (base + 1) rest
  end.

(** [code] is what a successful visit of [a] emitted. *)
Definition lowers (Visit : Expression -> M unit) (a : Expression)
    (code : list BuilderOp) : Prop :=
  exists g g', Visit a g = Ok tt g' /\ emitted g' = emitted g ++ code.

(** [code] is what a successful visit of the statement [s] emitted. *)
Definition lowers_statement DEBUG info (s : Statement)
    (code : list BuilderOp) : Prop :=
  exists g g',
    VisitStatement DEBUG info s g = Ok tt g' /\
    emitted g' = emitted g ++ code.

(** The generator once [VisitAssignment] has taken its two registers. *)
Definition with_object_and_key (g : BytecodeGenerator) : BytecodeGenerator :=
  final (set_frontier (frontier g + 1 + 1) g).

(** The program a pass returns, if it returns one. *)
Definition program_of (o : Outcome BytecodeArray) : option BytecodeArray :=
  match o with
  | Ok program _ => Some program
  | Abort _ _ => None
  end.

(** ** Node kinds without a lowering rule *)

(** The node types whose visitor consists of a failure macro only. *)
Definition Expression_has_rule (e : Expression) : bool :=
  match e with
  | VariableProxy _ | Literal _ | Assignment _ _ _ _ | Property _ _ _
  | Call _ _ _ | CallRuntime _ _ _ | BinaryOperation _ _ _
  | CompareOperation _ _ _ => true
  | _ => false
  end.

Definition Statement_has_rule (s : Statement) : bool :=
  match s with
  | WithStatement | SwitchStatement | ForInStatement | ForOfStatement
  | TryCatchStatement | TryFinallyStatement | DebuggerStatement => false
  | _ => true
  end.

Definition Declaration_has_rule (d : Declaration) : bool :=
  match d with
  | VariableDeclaration _ => true
  | _ => false
  end.

(** The failure a node type without a rule ends in. *)
Definition missing_rule_failure (e : Expression) : Failure :=
  match e with
  | Spread | EmptyParentheses => Unreachable
  | _ => Unimplemented
  end.

(** ** Break and continue *)

(** The scope that serves a [break] or [continue] aimed at [target]: the
    first one of the chain, from the head outwards, that guards [target]. *)
Definition handler (target : StatementId) (chain : list ControlScope)
  : option ControlScope :=
  find (fun current => target =? statement_ current) chain.

(** ** Sample inputs *)

Definition local_variable (i : Z) : Variable_ :=
  {| location := LOCAL; index := i; IsStaticGlobalObjectProperty := false |}.

Definition parameter_variable (i : Z) : Variable_ :=
  {| location := PARAMETER; index := i; IsStaticGlobalObjectProperty := false |}.

Definition global_variable (i : Z) : Variable_ :=
  {| location := GLOBAL; index := i; IsStaticGlobalObjectProperty := true |}.

Definition sample_scope : Scope :=
  {| is_function_scope := true;
     function := None;
     declarations := [VariableDeclaration (local_variable 0);
                      VariableDeclaration (parameter_variable 0)];
     num_stack_slots := 2;
     ContextLocalCount := 0 |}.

(** A function of one parameter and two stack slots with the given body. *)
Definition sample_info (body : list Statement) : CompilationInfo :=
  {| scope := sample_scope;
     num_parameters_including_this := 2;
     literal_body := body;
     info_language_mode := SLOPPY;
     feedback_vector_GetIndex := fun slot => slot |}.

(** A generator in the middle of a pass: two locals, inside a loop [2]
    nested in a loop [1]. *)
Definition inner_loop_builder : LoopBuilder :=
  {| break_target := Label 6; continue_target := Label 7 |}.
Definition outer_loop_builder : LoopBuilder :=
  {| break_target := Label 0; continue_target := Label 1 |}.

Definition nested_generator : BytecodeGenerator :=
  {| builder_ := {| bytecodes := [OpBind (Label 2); OpBind (Label 8)];
                    parameter_count := 2;
                    locals_count := 2;
                    temporary_register_next := 2 |};
     control_scope_ :=
       [ {| statement_ := 2; loop_builder_ := inner_loop_builder |};
         {| statement_ := 1; loop_builder_ := outer_loop_builder |} ];
     next_label := 11 |}.

(** The call [g(1, 2 + 3, 4)] of a global [g], lowered when registers 0 and
    1 are taken by locals. *)
Definition sample_call : Expression :=
  Call (VariableProxy (global_variable 5))
       [Literal (Smi 1);
        BinaryOperation ADD (Literal (Smi 2)) (Literal (Smi 3));
        Literal (Smi 4)]
       false.

(** The loop of the spec, [for (i = 0; i < 3; i = i + 1) { j = 7; continue; }]
    over two locals. *)
Definition counted_loop : Statement :=
  ForStatement 1
    (Some (ExpressionStatement
             (Assignment false (VariableProxy (local_variable 0))
                         (Literal (Smi 0)) 0)))
    (Some (CompareOperation LT (VariableProxy (local_variable 0))
                            (Literal (Smi 3))))
    (Some (ExpressionStatement
             (Assignment false (VariableProxy (local_variable 0))
                (BinaryOperation ADD (VariableProxy (local_variable 0))
                                 (Literal (Smi 1))) 1)))
    (Block None
       [ExpressionStatement
          (Assignment false (VariableProxy (local_variable 1))
                      (Literal (Smi 7)) 2);
        ContinueStatement 1]).

Definition two_locals : BytecodeGenerator :=
  final (set_locals_count 2 (BytecodeGenerator_new 0)).

(** ** Code of an expression *)

(** The registers of the variables that [e] assigns: the targets of its
    plain-variable assignments, at any depth. *)
Fixpoint assigned (e : Expression) : list Z :=
  match e with
  | Assignment _ target value _ =>
      match target with
      | VariableProxy variable => [index variable]
      | _ => []
      end ++ assigned target ++ assigned value
  | Property obj key _ => assigned obj ++ assigned key
  | Call callee args _ => assigned callee ++ flat_map assigned args
  | CallRuntime _ _ args => flat_map assigned args
  | BinaryOperation _ lhs rhs => assigned lhs ++ assigned rhs
  | CompareOperation _ lhs rhs => assigned lhs ++ assigned rhs
  | _ => []
  end.

(** Ops that transfer control, bind labels or bracket blocks. *)
Definition is_control (op : BuilderOp) : bool :=
  match op with
  | OpCastAccumulatorToBoolean | OpJump _ | OpJumpIfTrue _ | OpJumpIfFalse _
  | OpReturn | OpEnterBlock | OpLeaveBlock | OpBind _ | OpBindTo _ _ => true
  | _ => false
  end.

(** The register an op stores the accumulator in, if it is such a store. *)
Definition stores_in (op : BuilderOp) : option Register :=
  match op with
  | OpStoreAccumulatorInRegister r => Some r
  | _ => None
  end.

(** What an op of the code of an expression may be, when the registers from
    [floor] upwards were unused as the lowering began: no control op, and a
    store only into the register of an assigned variable or into a register
    at or above [floor]. *)
Definition expression_op (floor : Z) (variables : list Z) (op : BuilderOp)
  : Prop :=
  is_control op = false /\
  match stores_in op with
  | Some (RegisterAt i) => In i variables \/ floor <= i
  | Some (Parameter_ _) => False
  | None => True
  end.

(** From [g] to [g'] only ops that satisfy [P] were emitted, and neither the
    control-scope chain nor the numbering of labels moved. *)
Definition only (P : BuilderOp -> Prop) (g g' : BytecodeGenerator) : Prop :=
  control_scope_ g' = control_scope_ g /\
  next_label g' = next_label g /\
  exists ops, emitted g' = emitted g ++ ops /\ Forall P ops.

(** A computation that, begun with the frontier at or above [floor], emits
    only ops that satisfy [P], whatever its outcome, and when it succeeds
    returns a value that satisfies [Q] with the frontier still at or above
    [floor]. *)
Definition Emits (floor : Z) (P : BuilderOp -> Prop) {A} (Q : A -> Prop)
    (m : M A) : Prop :=
  forall g,
    floor <= frontier g ->
    match m g with
    | Ok a g' => Q a /\ floor <= frontier g' /\ only P g g'
    | Abort _ g' => only P g g'
    end.

(** A register handed out at or above [floor]. *)
Definition register_above (floor : Z) (r : Register) : Prop :=
  exists i, r = RegisterAt i /\ floor <= i.

Definition registers_above (floor : Z) (r : option (Register * Register))
  : Prop :=
  match r with
  | Some (object, key) => register_above floor object /\ register_above floor key
  | None => True
  end.

(** ** More sample inputs *)

(** [%Runtime7(1, 2 + 3, local0)]. *)
Definition sample_runtime_call : Expression :=
  CallRuntime false {| function_id := 7; result_size := 1 |}
    [Literal (Smi 1);
     BinaryOperation ADD (Literal (Smi 2)) (Literal (Smi 3));
     VariableProxy (local_variable 0)].

(** [if (local0 < 3) 1; else 2;]. *)
Definition sample_if : Statement :=
  IfStatement
    (CompareOperation LT (VariableProxy (local_variable 0)) (Literal (Smi 3)))
    (ExpressionStatement (Literal (Smi 1)))
    (Some (ExpressionStatement (Literal (Smi 2)))).

(** [local0.name], [local0.name = 5] and [local1 = 5]. *)
Definition sample_property : Expression :=
  Property (VariableProxy (local_variable 0))
           (Literal (PropertyName "name")) 4.

Definition sample_property_assignment : Expression :=
  Assignment false sample_property (Literal (Smi 5)) 6.

Definition sample_variable_assignment : Expression :=
  Assignment false (VariableProxy (local_variable 1)) (Literal (Smi 5)) 6.

(** ** Values of load instructions *)

(** The value that a load instruction names, for the instructions that
    load a constant. *)
Definition loaded_value (op : BuilderOp) : option Object :=
  match op with
  | OpLoadLiteralSmi v => Some (Smi v)
  | OpLoadLiteral v => Some v
  | OpLoadUndefined => Some Undefined
  | OpLoadNull => Some Null
  | OpLoadTheHole => Some TheHole
  | OpLoadTrue => Some TrueValue
  | OpLoadFalse => Some FalseValue
  | _ => None
  end.

(** The load that takes its value from the constant pool, and the values
    that have a load instruction of their own. *)
Definition uses_constant_pool (op : BuilderOp) : bool :=
  match op with
  | OpLoadLiteral _ => true
  | _ => false
  end.

Definition has_dedicated_load (value : Object) : bool :=
  match value with
  | PropertyName _ | HeapObject _ => false
  | _ => true
  end.

(** ** Declarations and blocks *)

(** The declarations that need no code: variables that live in a parameter
    or in a stack slot. *)
Definition storable (d : Declaration) : bool :=
  match d with
  | VariableDeclaration variable =>
      match location variable with
      | PARAMETER | LOCAL => true
      | _ => false
      end
  | _ => false
  end.

(** The block depth after [code], entered at [depth]: [None] when a block is
    left that was not entered. *)
Fixpoint block_depth (depth : Z) (code : list BuilderOp) : option Z :=
  match code with
  | [] => Some depth
  | OpEnterBlock :: rest => block_depth (depth + 1) rest
  | OpLeaveBlock :: rest =>
      if depth <=? 0 then None else block_depth (depth - 1) rest
  | _ :: rest => block_depth depth rest
  end.

(** A computation whose block brackets nest: entered at any depth, its code
    never leaves a block it did not enter; it ends at the depth it began
    with when it succeeds, and no lower when it fails. *)
Definition Nests {A} (m : M A) : Prop :=
  forall g,
    exists code,
      emitted (final (m g)) = emitted g ++ code /\
      forall depth,
        0 <= depth ->
        exists depth',
          block_depth depth code = Some depth' /\
          match m g with
          | Ok _ _ => depth' = depth
          | Abort _ _ => depth <= depth'
          end.

(** [{ 1; { 2; } }], a block in a block. *)
Definition sample_blocks : Statement :=
  Block None
    [ExpressionStatement (Literal (Smi 1));
     Block (Some {| is_function_scope := false;
                    function := None;
                    declarations := [VariableDeclaration (local_variable 1)];
                    num_stack_slots := 0;
                    ContextLocalCount := 0 |})
       [ExpressionStatement (Literal (Smi 2))]].

(** ** Labels of the emitted code *)

Definition label_identity (l : BytecodeLabel) : Z :=
  match l with Label i => i end.

(** The labels that an op refers to as the target of a jump or as the place
    of another label, and those of a whole code. *)
Definition targets (op : BuilderOp) : list BytecodeLabel :=
  match op with
  | OpJump l | OpJumpIfTrue l | OpJumpIfFalse l => [l]
  | OpBindTo target _ => [target]
  | _ => []
  end.

Definition referenced (code : list BuilderOp) : list BytecodeLabel :=
  flat_map targets code.

(** How many times [code] binds the label [l]. *)
Fixpoint times_bound (l : BytecodeLabel) (code : list BuilderOp) : Z :=
  match code with
  | [] => 0
  | op :: rest =>
      match op with
      | OpBind b | OpBindTo _ b =>
          if label_identity b =? label_identity l then 1 else 0
      | _ => 0
      end + times_bound l rest
  end.

(** The labels of the loops of a chain of control scopes. *)
Definition chain_labels (chain : list ControlScope) : list BytecodeLabel :=
  flat_map (fun current => [break_target (loop_builder_ current);
                            continue_target (loop_builder_ current)]) chain.

(** The discipline of labels from [g] to [g']: the chain of control scopes
    is back where it was; the code emitted binds no label twice, and binds
    only labels created in between; every label it refers to is bound in it
    or belongs to a loop of the chain. *)
Definition disciplined (g g' : BytecodeGenerator) : Prop :=
  control_scope_ g' = control_scope_ g /\
  next_label g <= next_label g' /\
  exists code,
    emitted g' = emitted g ++ code /\
    (forall l,
       0 <= times_bound l code <= 1 /\
       (times_bound l code <> 0 ->
        next_label g <= label_identity l < next_label g')) /\
    (forall l,
       In l (referenced code) ->
       1 <= times_bound l code \/ In l (chain_labels (control_scope_ g))).

(** ** Builds with and without checks *)

(** Whatever the computation [checked] returns, [unchecked] returns too,
    in the same state. *)
Definition Refines {A} (checked unchecked : M A) : Prop :=
  forall g a g', checked g = Ok a g' -> unchecked g = Ok a g'.

(** [while (local0 < 3) { local0 = local0 + 1; }] as loop [1], and the
    do-while loop of the same body and condition. *)
Definition sample_condition : Expression :=
  CompareOperation LT (VariableProxy (local_variable 0)) (Literal (Smi 3)).

Definition sample_body : Statement :=
  ExpressionStatement
    (Assignment false (VariableProxy (local_variable 0))
       (BinaryOperation ADD (VariableProxy (local_variable 0))
                        (Literal (Smi 1))) 1).

Definition sample_while : Statement :=
  WhileStatement 1 sample_condition sample_body.

Definition sample_do_while : Statement :=
  DoWhileStatement 1 sample_body sample_condition.

(** ** Null pointers *)

(** A computation that, begun under a chain of control scopes that
    satisfies [Pre], does not dereference a null pointer: when it fails, it
    fails otherwise, and when it succeeds the value it returns satisfies
    [Q] and the chain it ends with satisfies [Post]. *)
Definition Sound (Pre Post : list ControlScope -> Prop) {A} (Q : A -> Prop)
    (m : M A) : Prop :=
  forall g,
    Pre (control_scope_ g) ->
    match m g with
    | Ok a g' => Q a /\ Post (control_scope_ g')
    | Abort f _ => f <> NullDereference
    end.

(** A chain with a loop in it. *)
Definition in_a_loop (chain : list ControlScope) : Prop := chain <> [].

(** The statements whose [break] and [continue] statements all lie in a
    loop of the statement. *)
Fixpoint jumps_enclosed (s : Statement) : bool :=
  match s with
  | BreakStatement _ | ContinueStatement _ => false
  | Block _ statements => forallb jumps_enclosed statements
  | SloppyBlockFunctionStatement statement => jumps_enclosed statement
  | IfStatement _ then_statement else_statement =>
      jumps_enclosed then_statement &&
      match else_statement with
      | Some else_branch => jumps_enclosed else_branch
      | None => true
      end
  | _ => true
  end.

(** The failure a computation ended in, if it failed. *)
Definition failure_of {A} (o : Outcome A) : option Failure :=
  match o with
  | Ok _ _ => None
  | Abort f _ => Some f
  end.

(** * Reasoning principles *)

(** ** Induction on the size of a node *)

Lemma Expression_size_Call callee args possibly_eval :
  Expression_size (Call callee args possibly_eval)
  = S (Expression_size callee + Expressions_size args).
Proof. reflexivity. Qed.

Lemma Expression_size_CallRuntime is_jsruntime function args :
  Expression_size (CallRuntime is_jsruntime function args)
  = S (Expressions_size args).
Proof. reflexivity. Qed.

Lemma Statement_size_Block scope statements :
  Statement_size (Block scope statements) = S (Statements_size statements).
Proof. reflexivity. Qed.

Lemma Expression_size_induction (P : Expression -> Prop) :
  (forall e, (forall c, (Expression_size c < Expression_size e)%nat -> P c) -> P e) ->
  forall e, P e.
Proof.
  intros step e.
  assert (H : forall n c, (Expression_size c < n)%nat -> P c).
  { induction n as [|n IH]; intros c Hc.
    - inversion Hc.
    - apply step. intros d Hd. apply IH. lia. }
  exact (H (S (Expression_size e)) e (Nat.lt_succ_diag_r _)).
Qed.

Lemma Statement_size_induction (P : Statement -> Prop) :
  (forall s, (forall c, (Statement_size c < Statement_size s)%nat -> P c) -> P s) ->
  forall s, P s.
Proof.
  intros step s.
  assert (H : forall n c, (Statement_size c < n)%nat -> P c).
  { induction n as [|n IH]; intros c Hc.
    - inversion Hc.
    - apply step. intros d Hd. apply IH. lia. }
  exact (H (S (Statement_size s)) s (Nat.lt_succ_diag_r _)).
Qed.

(** ** Inversion of monadic computations *)

Lemma bind_Ok {A B} (m : M A) (k : A -> M B) g b g' :
  bind m k g = Ok b g' ->
  exists a g1, m g = Ok a g1 /\ k a g1 = Ok b g'.
Proof.
  unfold bind. destruct (m g) as [a g1|f g1]; intros H.
  - exists a, g1. split; [reflexivity | exact H].
  - discriminate H.
Qed.

Lemma bind_eq {A B} (m : M A) (k : A -> M B) g a g1 :
  m g = Ok a g1 -> bind m k g = k a g1.
Proof. unfold bind. intros ->. reflexivity. Qed.

Lemma In_Expressions_size a l :
  In a l -> (Expression_size a <= Expressions_size l)%nat.
Proof.
  induction l as [|b l IH]; simpl; intros H.
  - contradiction.
  - destruct H as [->|H]; [lia | specialize (IH H); lia].
Qed.

Lemma In_Statements_size a l :
  In a l -> (Statement_size a <= Statements_size l)%nat.
Proof.
  induction l as [|b l IH]; simpl; intros H.
  - contradiction.
  - destruct H as [->|H]; [lia | specialize (IH H); lia].
Qed.

(** ** What every step of a pass leaves alone *)

Lemma steady_refl g : steady g g.
Proof.
  repeat split; try lia. exists []. symmetry. apply app_nil_r.
Qed.

Lemma steady_trans g1 g2 g3 : steady g1 g2 -> steady g2 g3 -> steady g1 g3.
Proof.
  intros (Hp & Hl & Hn & ops & He) (Hp' & Hl' & Hn' & ops' & He').
  repeat split; try congruence; try lia.
  exists (ops ++ ops'). rewrite He', He. symmetry. apply app_assoc.
Qed.

Lemma Steady_ret {A} (a : A) : Steady (ret a).
Proof. intros g. apply steady_refl. Qed.

Lemma Steady_fail {A} f : Steady (@fail A f).
Proof. intros g. apply steady_refl. Qed.

Lemma Steady_bind {A B} (m : M A) (k : A -> M B) :
  Steady m -> (forall a, Steady (k a)) -> Steady (bind m k).
Proof.
  intros Hm Hk g. unfold bind. specialize (Hm g).
  destruct (m g) as [a g1|f g1]; simpl in Hm.
  - eapply steady_trans; [exact Hm | apply Hk].
  - exact Hm.
Qed.

Lemma Steady_Emit op : Steady (Emit op).
Proof.
  intros g. unfold steady, emitted; simpl. repeat split; try lia.
  exists [op]. reflexivity.
Qed.

Lemma Steady_set_frontier n : Steady (set_frontier n).
Proof.
  intros g. unfold steady, emitted; simpl. repeat split; try lia.
  exists []. symmetry. apply app_nil_r.
Qed.

Lemma Steady_NewLabel : Steady NewLabel.
Proof.
  intros g. unfold steady, emitted; simpl. repeat split; try lia.
  exists []. symmetry. apply app_nil_r.
Qed.

Lemma Steady_control_scope : Steady control_scope.
Proof. intros g. apply steady_refl. Qed.

Lemma Steady_set_control_scope chain : Steady (set_control_scope chain).
Proof.
  intros g. unfold steady, emitted; simpl. repeat split; try lia.
  exists []. symmetry. apply app_nil_r.
Qed.

Lemma Steady_TemporaryRegisterScope_open : Steady TemporaryRegisterScope_open.
Proof. intros g. apply steady_refl. Qed.

Lemma Steady_NewRegister scope : Steady (NewRegister scope).
Proof.
  intros g. unfold steady, emitted; simpl. repeat split; try lia.
  exists []. symmetry. apply app_nil_r.
Qed.

Lemma Steady_DCHECK DEBUG c : Steady (DCHECK DEBUG c).
Proof.
  unfold DCHECK. destruct (DEBUG && negb c);
    [apply Steady_fail | apply Steady_ret].
Qed.

Create HintDb steady discriminated.
#[local] Hint Resolve Steady_ret Steady_fail Steady_Emit Steady_set_frontier
  Steady_NewLabel Steady_control_scope Steady_set_control_scope
  Steady_TemporaryRegisterScope_open Steady_NewRegister Steady_DCHECK : steady.

(** The wrappers around [Emit] and the scope operations, unfolded together. *)
Create HintDb builder_ops discriminated.
#[local] Hint Unfold LoadLiteralSmi LoadLiteral LoadUndefined LoadNull
  LoadTheHole LoadTrue LoadFalse LoadAccumulatorWithRegister
  StoreAccumulatorInRegister LoadGlobal LoadNamedProperty LoadKeyedProperty
  StoreNamedProperty StoreKeyedProperty CallOp CallRuntimeOp BinaryOperationOp
  CompareOperationOp CastAccumulatorToBoolean Jump JumpIfTrue JumpIfFalse
  Return EnterBlock LeaveBlock Bind UNIMPLEMENTED UNREACHABLE
  TemporaryRegisterScope_close LoopBuilder_new LoopBuilder_Break
  LoopBuilder_Continue SetBreakTarget SetContinueTarget
  ControlScopeForIteration_new ControlScope_delete LoadPropertyName
  : builder_ops.

Ltac steady_step :=
  match goal with
  | |- Steady (bind _ _) => apply Steady_bind; [ | intros ? ]
  | |- Steady (match ?x with _ => _ end) => destruct x
  | |- Steady _ => solve [ auto with steady ]
  end.

Ltac steady := autounfold with builder_ops; cbv zeta; repeat steady_step.

Ltac smaller :=
  repeat match goal with
         | H : In _ _ |- _ =>
             first [ apply In_Expressions_size in H
                   | apply In_Statements_size in H ]
         end;
  rewrite ?Expression_size_Call, ?Expression_size_CallRuntime,
    ?Statement_size_Block;
  simpl; lia.

Section SteadyRules.

Variable DEBUG : bool.
Variable info : CompilationInfo.

Lemma Steady_VisitDeclarations decls :
  Steady (VisitDeclarations decls).
Proof.
  induction decls as [|d decls IH]; simpl.
  - steady.
  - apply Steady_bind; [ | intros _; exact IH ].
    destruct d as [v| | |]; simpl;
      unfold VisitVariableDeclaration, VisitFunctionDeclaration,
        VisitImportDeclaration, VisitExportDeclaration; steady.
Qed.

Lemma Steady_VisitVariableLoad v : Steady (VisitVariableLoad DEBUG v).
Proof. unfold VisitVariableLoad. steady. Qed.

Lemma Steady_VisitLiteral v : Steady (VisitLiteral v).
Proof. unfold VisitLiteral. steady. Qed.

#[local] Hint Resolve Steady_VisitDeclarations Steady_VisitVariableLoad
  Steady_VisitLiteral : steady.

Section Expressions.

Variable Visit : Expression -> M unit.

Lemma Steady_VisitPropertyLoad object obj key slot :
  Steady (Visit key) ->
  Steady (VisitPropertyLoad info Visit object obj key slot).
Proof. intros Hk. unfold VisitPropertyLoad. steady. Qed.

Lemma Steady_VisitCallArguments scope receiver args :
  (forall a, In a args -> Steady (Visit a)) ->
  forall i, Steady (VisitCallArguments DEBUG Visit scope receiver i args).
Proof.
  induction args as [|a args IH]; intros Ha i; simpl.
  - steady.
  - assert (Steady (Visit a)) by (apply Ha; left; reflexivity).
    assert (forall j, Steady (VisitCallArguments DEBUG Visit scope receiver j args))
      by (intros j; apply IH; intros b Hb; apply Ha; right; exact Hb).
    steady.
Qed.

Lemma Steady_VisitCallRuntimeArguments scope first_arg args :
  (forall a, In a args -> Steady (Visit a)) ->
  forall i,
    Steady (VisitCallRuntimeArguments DEBUG Visit scope first_arg i args).
Proof.
  induction args as [|a args IH]; intros Ha i; simpl.
  - steady.
  - assert (Steady (Visit a)) by (apply Ha; left; reflexivity).
    assert (forall j,
      Steady (VisitCallRuntimeArguments DEBUG Visit scope first_arg j args))
      by (intros j; apply IH; intros b Hb; apply Ha; right; exact Hb).
    steady.
Qed.

End Expressions.

Lemma Steady_VisitExpression e : Steady (VisitExpression DEBUG info e).
Proof.
  induction e as [e IH] using Expression_size_induction.
  destruct e; cbn [VisitExpression];
    try solve [ unfold VisitVariableProxy; steady ].
  - (* Assignment *)
    unfold VisitAssignment.
    destruct e1; steady; try (apply IH; smaller).
  - (* Property *)
    unfold VisitProperty.
    assert (Steady (VisitExpression DEBUG info e1)) by (apply IH; smaller).
    steady.
    apply Steady_VisitPropertyLoad. apply IH; smaller.
  - (* Call *)
    unfold VisitCall.
    assert (Hargs : forall i scope receiver,
      Steady (VisitCallArguments DEBUG (VisitExpression DEBUG info)
                scope receiver i arguments)).
    { intros i scope receiver. apply Steady_VisitCallArguments.
      intros a Ha. apply IH. smaller. }
    destruct e; steady; try (apply IH; smaller).
    apply Steady_VisitPropertyLoad. apply IH; smaller.
  - (* CallRuntime *)
    unfold VisitCallRuntime.
    assert (Hargs : forall i scope first_arg,
      Steady (VisitCallRuntimeArguments DEBUG (VisitExpression DEBUG info)
                scope first_arg i arguments)).
    { intros i scope first_arg. apply Steady_VisitCallRuntimeArguments.
      intros a Ha. apply IH. smaller. }
    steady.
  - (* BinaryOperation *)
    unfold VisitBinaryOperation, VisitArithmeticExpression.
    assert (Steady (VisitExpression DEBUG info e1)) by (apply IH; smaller).
    assert (Steady (VisitExpression DEBUG info e2)) by (apply IH; smaller).
    steady.
  - (* CompareOperation *)
    unfold VisitCompareOperation.
    assert (Steady (VisitExpression DEBUG info e1)) by (apply IH; smaller).
    assert (Steady (VisitExpression DEBUG info e2)) by (apply IH; smaller).
    steady.
Qed.

#[local] Hint Resolve Steady_VisitExpression : steady.

Section Statements.

Variable Visit : Statement -> M unit.

Lemma Steady_VisitStatements statements :
  (forall s, In s statements -> Steady (Visit s)) ->
  Steady (VisitStatements Visit statements).
Proof.
  induction statements as [|s statements IH]; intros Hs; simpl.
  - steady.
  - apply Steady_bind.
    + apply Hs. left. reflexivity.
    + intros _. apply IH. intros s' Hs'. apply Hs. right. exact Hs'.
Qed.

Lemma Steady_PerformCommand command statement outer :
  forall current, Steady (PerformCommand current outer command statement).
Proof.
  induction outer as [|next outer IH]; intros current; simpl;
    unfold Execute; steady.
Qed.

End Statements.

#[local] Hint Resolve Steady_PerformCommand : steady.

Lemma Steady_VisitStatement s : Steady (VisitStatement DEBUG info s).
Proof.
  induction s as [s IH] using Statement_size_induction.
  destruct s; cbn [VisitStatement];
    try solve [ unfold VisitExpressionStatement, VisitEmptyStatement,
                  VisitContinueStatement, VisitBreakStatement,
                  VisitReturnStatement, ControlScope_Continue,
                  ControlScope_Break; steady ].
  - (* Block *)
    unfold VisitBlock.
    assert (Steady (VisitStatements (VisitStatement DEBUG info) statements)).
    { apply Steady_VisitStatements. intros s Hs. apply IH. smaller. }
    steady.
  - (* SloppyBlockFunctionStatement *)
    unfold VisitSloppyBlockFunctionStatement. apply IH. smaller.
  - (* IfStatement *)
    unfold VisitIfStatement. steady; apply IH; smaller.
  - (* DoWhileStatement *)
    unfold VisitDoWhileStatement. steady; apply IH; smaller.
  - (* WhileStatement *)
    unfold VisitWhileStatement. steady; apply IH; smaller.
  - (* ForStatement *)
    unfold VisitForStatement. steady; apply IH; smaller.
Qed.

End SteadyRules.

(** ** Successful visits are balanced *)

Ltac inv_prim H :=
  cbv [Emit set_frontier set_parameter_count set_locals_count NewLabel
       NewRegister TemporaryRegisterScope_open control_scope
       set_control_scope ret fail bind with_builder] in H;
  lazymatch type of H with
  | Ok _ _ = Ok _ _ =>
      inversion H; clear H;
      repeat match goal with
             | E : _ = ?b |- _ => is_var b; subst b
             end
  | Abort _ _ = Ok _ _ => discriminate H
  | _ => idtac
  end.

Ltac monad_inv H :=
  lazymatch type of H with
  | bind _ _ _ = Ok _ _ =>
      let a := fresh "a" in
      let g1 := fresh "g" in
      let H1 := fresh "Hm" in
      let H2 := fresh "Hk" in
      apply bind_Ok in H; destruct H as (a & g1 & H1 & H2);
      monad_inv H1; monad_inv H2
  | DCHECK _ _ _ = Ok _ _ =>
      unfold DCHECK in H; monad_inv H
  | VisitExpression _ _ _ _ = Ok _ _ => idtac
  | VisitStatement _ _ _ _ = Ok _ _ => idtac
  | ?f _ = Ok _ _ =>
      lazymatch f with
      | match ?x with _ => _ end =>
          destruct x eqn:?; try discriminate H; monad_inv H
      | _ =>
          first [ progress (autounfold with builder_ops in H); monad_inv H
                | inv_prim H ]
      end
  end.

Lemma balanced_refl g : balanced g g.
Proof. split; reflexivity. Qed.

Lemma balanced_trans g1 g2 g3 :
  balanced g1 g2 -> balanced g2 g3 -> balanced g1 g3.
Proof. unfold balanced. intros [? ?] [? ?]. split; congruence. Qed.

Ltac use_balanced IH :=
  repeat match goal with u : unit |- _ => destruct u end;
  repeat match goal with
         | H : VisitExpression _ _ ?c ?g = Ok ?a ?g' |- _ =>
             let Hb := fresh "Hb" in
             assert (Hb : balanced g g')
               by (refine (IH c _ g a g' H); smaller);
             clear H
         | H : VisitStatement _ _ ?c ?g = Ok ?a ?g' |- _ =>
             let Hb := fresh "Hb" in
             assert (Hb : balanced g g')
               by (refine (IH c _ g a g' H); smaller);
             clear H
         end.

Ltac finish_balanced :=
  unfold balanced, frontier in *; simpl in *;
  repeat match goal with H : _ /\ _ |- _ => destruct H end;
  split; congruence.

Section BalancedRules.

Variable DEBUG : bool.
Variable info : CompilationInfo.

Lemma Balanced_VisitVariableLoad v : Balanced (VisitVariableLoad DEBUG v).
Proof.
  intros g a g' H. unfold VisitVariableLoad in H.
  autounfold with builder_ops in H. monad_inv H; finish_balanced.
Qed.

Lemma Balanced_VisitLiteral v : Balanced (VisitLiteral v).
Proof.
  intros g a g' H. unfold VisitLiteral in H.
  autounfold with builder_ops in H. monad_inv H; finish_balanced.
Qed.

Lemma Balanced_VisitDeclarations decls :
  Balanced (VisitDeclarations decls).
Proof.
  induction decls as [|d decls IH]; intros g a g' H; simpl in H.
  - monad_inv H. apply balanced_refl.
  - apply bind_Ok in H. destruct H as (u & g1 & Hd & Hrest).
    apply IH in Hrest. refine (balanced_trans _ _ _ _ Hrest).
    destruct d as [v| | |]; simpl in Hd;
      unfold VisitVariableDeclaration, VisitFunctionDeclaration,
        VisitImportDeclaration, VisitExportDeclaration in Hd;
      autounfold with builder_ops in Hd; monad_inv Hd; apply balanced_refl.
Qed.

Section Expressions.

Variable Visit : Expression -> M unit.

Lemma Balanced_VisitPropertyLoad object obj key slot :
  Balanced (Visit key) ->
  Balanced (VisitPropertyLoad info Visit object obj key slot).
Proof.
  intros Hk g a g' H. unfold VisitPropertyLoad in H.
  autounfold with builder_ops in H. monad_inv H;
    try match goal with H : Visit key _ = Ok _ _ |- _ => apply Hk in H end;
    finish_balanced.
Qed.

Lemma VisitCallArguments_Ok scope receiver args :
  (forall a, In a args -> Balanced (Visit a)) ->
  (forall a, In a args -> Steady (Visit a)) ->
  forall i g g',
    VisitCallArguments DEBUG Visit scope receiver i args g = Ok tt g' ->
    control_scope_ g' = control_scope_ g /\
    frontier g' = frontier g + Z.of_nat (List.length args) /\
    exists codes,
      Forall2 (lowers Visit) args codes /\
      emitted g' = emitted g ++ argument_stores (frontier g) codes.
Proof.
  induction args as [|a args IH]; intros HB HS i g g' H.
  - simpl in H. monad_inv H. repeat split; simpl; try lia.
    exists []. split; [constructor | symmetry; apply app_nil_r].
  - cbn [VisitCallArguments] in H. autounfold with builder_ops in H.
    apply bind_Ok in H. destruct H as ([] & g1 & Ha & H).
    apply bind_Ok in H. destruct H as (arg & g2 & Hr & H).
    apply bind_Ok in H. destruct H as ([] & g3 & Hd & H).
    apply bind_Ok in H. destruct H as ([] & g4 & Hs & H).
    monad_inv Hr. monad_inv Hd; monad_inv Hs;
    (apply IH in H;
      [ | intros b Hb; apply HB; right; exact Hb
        | intros b Hb; apply HS; right; exact Hb ]);
    (pose proof (HB a (or_introl eq_refl) _ _ _ Ha) as [Hf Hc]);
    (pose proof (HS a (or_introl eq_refl) g) as Hst; rewrite Ha in Hst;
     destruct Hst as (_ & _ & _ & code & Hcode));
    destruct H as (Hc' & Hf' & codes & Hall & Hem);
    unfold frontier, emitted in *; simpl in *;
    (split; [congruence | split; [ lia | ]]);
    exists (code :: codes);
    (split; [ constructor; [ exists g, g1; split; assumption | exact Hall ] | ]);
    rewrite Hem, Hcode, Hf; simpl; rewrite <- !app_assoc; reflexivity.
Qed.

Lemma VisitCallRuntimeArguments_Ok scope first_arg args :
  (forall a, In a args -> Balanced (Visit a)) ->
  forall i g g',
    VisitCallRuntimeArguments DEBUG Visit scope first_arg i args g = Ok tt g' ->
    control_scope_ g' = control_scope_ g.
Proof.
  induction args as [|a args IH]; intros HB i g g' H.
  - simpl in H. monad_inv H. reflexivity.
  - cbn [VisitCallRuntimeArguments] in H. autounfold with builder_ops in H.
    apply bind_Ok in H. destruct H as (arg & g1 & Hr & H).
    apply bind_Ok in H. destruct H as ([] & g2 & Ha & H).
    apply bind_Ok in H. destruct H as ([] & g3 & Hd & H).
    apply bind_Ok in H. destruct H as ([] & g4 & Hs & H).
    apply IH in H; [ | intros b Hb; apply HB; right; exact Hb ].
    apply (HB a (or_introl eq_refl)) in Ha. destruct Ha as [_ Ha].
    monad_inv Hr; monad_inv Hd; monad_inv Hs; simpl in *; congruence.
Qed.

End Expressions.

Lemma Balanced_VisitExpression e : Balanced (VisitExpression DEBUG info e).
Proof.
  induction e as [e IH] using Expression_size_induction.
  destruct e; cbn [VisitExpression]; intros g a g' H;
    try discriminate H.
  - apply Balanced_VisitVariableLoad in H. exact H.
  - apply Balanced_VisitLiteral in H. exact H.
  - (* Assignment *)
    unfold VisitAssignment in H. autounfold with builder_ops in H.
    monad_inv H; use_balanced IH; finish_balanced.
  - (* Property *)
    unfold VisitProperty in H. autounfold with builder_ops in H.
    monad_inv H. use_balanced IH.
    match goal with
    | H : VisitPropertyLoad _ _ _ _ _ _ _ = Ok _ _ |- _ =>
        apply Balanced_VisitPropertyLoad in H; [ | apply IH; smaller ]
    end.
    finish_balanced.
  - (* Call *)
    assert (HB : forall a, In a arguments ->
                           Balanced (VisitExpression DEBUG info a))
      by (intros c Hc; apply IH; smaller).
    assert (HS : forall a, In a arguments ->
                           Steady (VisitExpression DEBUG info a))
      by (intros c Hc; apply Steady_VisitExpression).
    unfold VisitCall in H. autounfold with builder_ops in H.
    monad_inv H; use_balanced IH;
      repeat match goal with
      | H : VisitPropertyLoad _ _ _ _ _ _ _ = Ok _ _ |- _ =>
          apply Balanced_VisitPropertyLoad in H; [ | apply IH; smaller ]
      | H : VisitVariableLoad _ _ _ = Ok _ _ |- _ =>
          apply Balanced_VisitVariableLoad in H
      | H : VisitCallArguments _ _ _ _ _ _ _ = Ok _ _ |- _ =>
          apply (VisitCallArguments_Ok _ _ _ arguments HB HS) in H;
          destruct H as (? & _ & _)
      end;
      finish_balanced.
  - (* CallRuntime *)
    assert (HB : forall a, In a arguments ->
                           Balanced (VisitExpression DEBUG info a))
      by (intros c Hc; apply IH; smaller).
    unfold VisitCallRuntime in H. autounfold with builder_ops in H.
    monad_inv H; use_balanced IH;
      repeat match goal with
      | H : VisitCallRuntimeArguments _ _ _ _ _ _ _ = Ok _ _ |- _ =>
          apply (VisitCallRuntimeArguments_Ok _ _ _ arguments HB) in H
      end;
      finish_balanced.
  - (* BinaryOperation *)
    unfold VisitBinaryOperation, VisitArithmeticExpression in H.
    autounfold with builder_ops in H.
    monad_inv H; use_balanced IH; finish_balanced.
  - (* CompareOperation *)
    unfold VisitCompareOperation in H. autounfold with builder_ops in H.
    monad_inv H; use_balanced IH; finish_balanced.
Qed.

Lemma Balanced_PerformCommand command statement outer :
  forall current, Balanced (PerformCommand current outer command statement).
Proof.
  induction outer as [|next outer IH]; intros current g a g' H;
    simpl in H; unfold Execute in H; autounfold with builder_ops in H;
    monad_inv H;
    try match goal with
        | H : PerformCommand _ _ _ _ _ = Ok _ _ |- _ => apply IH in H
        end;
    finish_balanced.
Qed.

Lemma Balanced_VisitStatements (Visit : Statement -> M unit) statements :
  (forall s, In s statements -> Balanced (Visit s)) ->
  Balanced (VisitStatements Visit statements).
Proof.
  induction statements as [|s statements IH]; intros Hs g a g' H;
    simpl in H.
  - monad_inv H. apply balanced_refl.
  - apply bind_Ok in H. destruct H as (u & g1 & H1 & H2).
    apply (Hs s (or_introl eq_refl)) in H1.
    apply IH in H2; [ | intros s' Hs'; apply Hs; right; exact Hs' ].
    exact (balanced_trans _ _ _ H1 H2).
Qed.

Lemma Balanced_VisitStatement s : Balanced (VisitStatement DEBUG info s).
Proof.
  induction s as [s IH] using Statement_size_induction.
  destruct s; cbn [VisitStatement]; intros g a g' H;
    try discriminate H.
  - (* Block *)
    assert (HB : Balanced (VisitStatements (VisitStatement DEBUG info)
                             statements)).
    { apply Balanced_VisitStatements. intros c Hc. apply IH. smaller. }
    unfold VisitBlock in H. autounfold with builder_ops in H.
    monad_inv H;
      repeat match goal with
      | H : VisitStatements _ _ _ = Ok _ _ |- _ => apply HB in H
      | H : VisitDeclarations _ _ = Ok _ _ |- _ =>
          apply Balanced_VisitDeclarations in H
      end;
      finish_balanced.
  - (* ExpressionStatement *)
    apply Balanced_VisitExpression in H. exact H.
  - (* EmptyStatement *)
    unfold VisitEmptyStatement in H. monad_inv H. apply balanced_refl.
  - (* SloppyBlockFunctionStatement *)
    apply IH in H; [ exact H | smaller ].
  - (* IfStatement *)
    unfold VisitIfStatement in H. autounfold with builder_ops in H.
    monad_inv H;
      repeat match goal with
      | H : VisitExpression _ _ _ _ = Ok _ _ |- _ =>
          apply Balanced_VisitExpression in H
      end;
      use_balanced IH; finish_balanced.
  - (* ContinueStatement *)
    unfold VisitContinueStatement, ControlScope_Continue in H.
    monad_inv H.
    match goal with
    | H : PerformCommand _ _ _ _ _ = Ok _ _ |- _ =>
        apply Balanced_PerformCommand in H; exact H
    end.
  - (* BreakStatement *)
    unfold VisitBreakStatement, ControlScope_Break in H.
    monad_inv H.
    match goal with
    | H : PerformCommand _ _ _ _ _ = Ok _ _ |- _ =>
        apply Balanced_PerformCommand in H; exact H
    end.
  - (* ReturnStatement *)
    unfold VisitReturnStatement in H. autounfold with builder_ops in H.
    monad_inv H.
    match goal with
    | H : VisitExpression _ _ _ _ = Ok _ _ |- _ =>
        apply Balanced_VisitExpression in H
    end.
    finish_balanced.
  - (* DoWhileStatement *)
    unfold VisitDoWhileStatement in H. autounfold with builder_ops in H.
    monad_inv H;
      repeat match goal with
      | H : VisitExpression _ _ _ _ = Ok _ _ |- _ =>
          apply Balanced_VisitExpression in H
      end;
      use_balanced IH; finish_balanced.
  - (* WhileStatement *)
    unfold VisitWhileStatement in H. autounfold with builder_ops in H.
    monad_inv H;
      repeat match goal with
      | H : VisitExpression _ _ _ _ = Ok _ _ |- _ =>
          apply Balanced_VisitExpression in H
      end;
      use_balanced IH; finish_balanced.
  - (* ForStatement *)
    unfold VisitForStatement in H. autounfold with builder_ops in H.
    monad_inv H;
      repeat match goal with
      | H : VisitExpression _ _ _ _ = Ok _ _ |- _ =>
          apply Balanced_VisitExpression in H
      end;
      use_balanced IH; finish_balanced.
Qed.

End BalancedRules.

(** * The claims *)

(** ** Single rules *)

(** C10. Lowering an empty statement succeeds and leaves the whole state of
    the generator as it was: nothing is emitted, the register frontier, the
    control-scope chain and the label numbering are untouched. *)
Theorem VisitEmptyStatement_leaves_state DEBUG info g :
  VisitStatement DEBUG info EmptyStatement g = Ok tt g.
Proof. reflexivity. Qed.

(** An [int] in range is what it is. *)
Lemma int_wrap_in_range z : INT_MIN <= z <= INT_MAX -> int_wrap z = z.
Proof.
  unfold int_wrap, INT_MIN, INT_MAX. intros H.
  rewrite Z.mod_small; lia.
Qed.

(** C7. A variable load of a parameter with index [i], an [int] below the
    largest one, emits exactly one load of the accumulator from the register
    of parameter position [i + 1]; a local with index [i] is loaded from
    register [i]. *)
Theorem VisitVariableLoad_parameter_shift DEBUG info (v : Variable_) g :
  (location v = PARAMETER ->
   INT_MIN <= index v < INT_MAX ->
   VisitExpression DEBUG info (VariableProxy v) g
   = Emit (OpLoadAccumulatorWithRegister (Parameter_ (index v + 1))) g) /\
  (location v = LOCAL ->
   VisitExpression DEBUG info (VariableProxy v) g
   = Emit (OpLoadAccumulatorWithRegister (RegisterAt (index v))) g).
Proof.
  cbn [VisitExpression]. unfold VisitVariableProxy, VisitVariableLoad.
  split.
  - intros -> Hi. cbv zeta. rewrite int_wrap_in_range; [ reflexivity | lia ].
  - intros ->. reflexivity.
Qed.

Lemma VisitVariableLoad_parameter_shift_witness :
  emitted (final (VisitExpression true (sample_info [])
                    (VariableProxy (parameter_variable 0)) two_locals))
  = [OpLoadAccumulatorWithRegister (Parameter_ 1)] /\
  emitted (final (VisitExpression true (sample_info [])
                    (VariableProxy (local_variable 1)) two_locals))
  = [OpLoadAccumulatorWithRegister (RegisterAt 1)].
Proof.
  split.
  - rewrite (proj1 (VisitVariableLoad_parameter_shift true (sample_info [])
                      (parameter_variable 0) two_locals)
               eq_refl);
      [ reflexivity | unfold INT_MIN, INT_MAX; simpl; lia ].
  - rewrite (proj2 (VisitVariableLoad_parameter_shift true (sample_info [])
                      (local_variable 1) two_locals)
               eq_refl).
    reflexivity.
Defined.

(** At the largest [int] the sum [index + 1] leaves the range: the position
    asked of the builder is the smallest [int]. *)
Example parameter_shift_at_INT_MAX :
  VisitExpression true (sample_info [])
    (VariableProxy (parameter_variable INT_MAX)) two_locals
  = Emit (OpLoadAccumulatorWithRegister (Parameter_ INT_MIN)) two_locals.
Proof. reflexivity. Qed.

(** ** Counts of the finalized program *)

(** C9. The program a successful pass returns carries the parameter count
    that the compilation info gives (the count that includes the receiver)
    and the number of stack slots of the function scope, together with the
    sequence emitted by the pass. *)
Theorem MakeBytecode_counts DEBUG info g program g' :
  MakeBytecode DEBUG info g = Ok program g' ->
  array_parameter_count program = num_parameters_including_this info /\
  array_register_count program = num_stack_slots (scope info) /\
  array_bytecodes program = emitted g'.
Proof.
  intros H. unfold MakeBytecode in H.
  apply bind_Ok in H. destruct H as ([] & g1 & Hd & H).
  apply bind_Ok in H. destruct H as ([] & g2 & Hp & H).
  apply bind_Ok in H. destruct H as ([] & g3 & Hl & H).
  apply bind_Ok in H. destruct H as ([] & g4 & Hf & H).
  apply bind_Ok in H. destruct H as ([] & g5 & Hds & H).
  apply bind_Ok in H. destruct H as ([] & g6 & Hss & H).
  unfold ToBytecodeArray in H. inversion H; subst; clear H. simpl.
  assert (S1 : steady g3 g4).
  { destruct (function (scope info)) as [fv|].
    - destruct (is_function_scope (scope info)).
      + unfold VisitVariableDeclaration in Hf.
        autounfold with builder_ops in Hf. monad_inv Hf; apply steady_refl.
      + monad_inv Hf. apply steady_refl.
    - monad_inv Hf. apply steady_refl. }
  assert (S2 : steady g4 g5).
  { pose proof (Steady_VisitDeclarations (declarations (scope info)) g4) as S.
    rewrite Hds in S. exact S. }
  assert (S3 : steady g5 g').
  { pose proof (Steady_VisitStatements (VisitStatement DEBUG info)
                  (literal_body info)
                  (fun s _ => Steady_VisitStatement DEBUG info s) g5) as S.
    rewrite Hss in S. exact S. }
  destruct (steady_trans _ _ _ S1 (steady_trans _ _ _ S2 S3))
    as (Hpc & Hlc & _ & _).
  monad_inv Hd; monad_inv Hp; monad_inv Hl; simpl in *;
    repeat split; assumption.
Qed.

Lemma MakeBytecode_counts_witness :
  exists program g',
    MakeBytecode true (sample_info [ReturnStatement (Literal (Smi 1))])
                 (BytecodeGenerator_new 0) = Ok program g' /\
    array_parameter_count program = 2 /\
    array_register_count program = 2.
Proof.
  eexists. eexists. split.
  - reflexivity.
  - destruct (MakeBytecode_counts true
                (sample_info [ReturnStatement (Literal (Smi 1))])
                (BytecodeGenerator_new 0) _ _ eq_refl) as (Hp & Hr & _).
    split; [exact Hp | exact Hr].
Defined.

(** ** Node kinds without a lowering rule *)

(** C6 (as amended). A node type without a lowering rule fails at once, the
    generator left as it was, so nothing is emitted for it.  The failure is
    the unsupported-construct one for every such node type except [Spread]
    and [EmptyParentheses], which fail as unreachable code. *)
Theorem missing_rule_fails_fast DEBUG info g :
  (forall e, Expression_has_rule e = false ->
     VisitExpression DEBUG info e g = Abort (missing_rule_failure e) g) /\
  (forall s, Statement_has_rule s = false ->
     VisitStatement DEBUG info s g = Abort Unimplemented g) /\
  (forall d, Declaration_has_rule d = false ->
     VisitDeclaration d g = Abort Unimplemented g).
Proof.
  split; [ | split ].
  - intros e He. destruct e; try discriminate He; reflexivity.
  - intros s Hs. destruct s; try discriminate Hs; reflexivity.
  - intros d Hd. destruct d; try discriminate Hd; reflexivity.
Qed.

Lemma missing_rule_fails_fast_witness :
  VisitExpression true (sample_info []) ObjectLiteral nested_generator
  = Abort Unimplemented nested_generator /\
  VisitStatement true (sample_info []) SwitchStatement nested_generator
  = Abort Unimplemented nested_generator /\
  VisitDeclaration FunctionDeclaration nested_generator
  = Abort Unimplemented nested_generator.
Proof.
  destruct (missing_rule_fails_fast true (sample_info []) nested_generator)
    as (He & Hs & Hd).
  split; [ | split ].
  - exact (He ObjectLiteral eq_refl).
  - exact (Hs SwitchStatement eq_refl).
  - exact (Hd FunctionDeclaration eq_refl).
Defined.

(** C6 as stated fails on [Spread]: it has no lowering rule, yet its failure
    is not the unsupported-construct one; it is the failure of an unmatched
    [break], an internal-invariant violation. *)
Lemma spread_is_not_unsupported_signal :
  Expression_has_rule Spread = false /\
  VisitExpression true (sample_info []) Spread nested_generator
  <> Abort Unimplemented nested_generator /\
  (exists f,
     VisitExpression true (sample_info []) Spread nested_generator
     = Abort f nested_generator /\
     VisitStatement true (sample_info []) (BreakStatement 3) nested_generator
     = Abort f nested_generator).
Proof.
  split; [ reflexivity | split ].
  - discriminate.
  - exists Unreachable. split; reflexivity.
Qed.

(** ** Break and continue *)

Lemma PerformCommand_handler command target outer :
  forall current g,
    PerformCommand current outer command target g
    = match handler target (current :: outer) with
      | Some found =>
          match command with
          | CMD_BREAK => Jump (break_target (loop_builder_ found)) g
          | CMD_CONTINUE => Jump (continue_target (loop_builder_ found)) g
          end
      | None => Abort Unreachable g
      end.
Proof.
  induction outer as [|next outer IH]; intros current g;
    cbn [PerformCommand]; unfold Execute, handler; cbn [find];
    destruct (target =? statement_ current); cbn [negb];
    try (destruct command; reflexivity).
  rewrite bind_eq with (a := false) (g1 := g) by reflexivity.
  cbv iota. apply IH.
Qed.

Lemma VisitBreakContinue_handler DEBUG info target g :
  control_scope_ g <> [] ->
  VisitStatement DEBUG info (BreakStatement target) g
  = match handler target (control_scope_ g) with
    | Some found => Emit (OpJump (break_target (loop_builder_ found))) g
    | None => Abort Unreachable g
    end /\
  VisitStatement DEBUG info (ContinueStatement target) g
  = match handler target (control_scope_ g) with
    | Some found => Emit (OpJump (continue_target (loop_builder_ found))) g
    | None => Abort Unreachable g
    end.
Proof.
  intros Hne. cbn [VisitStatement].
  unfold VisitBreakStatement, VisitContinueStatement, ControlScope_Break,
    ControlScope_Continue.
  rewrite !bind_eq with (a := control_scope_ g) (g1 := g) by reflexivity.
  destruct (control_scope_ g) as [|head outer]; [ contradiction | ].
  rewrite !PerformCommand_handler. split; reflexivity.
Qed.

(** The handler of a target guarded by a scope of the chain, below scopes
    that guard other statements, is that scope. *)
Lemma handler_innermost target inner found outer :
  (forall c, In c inner -> statement_ c <> target) ->
  statement_ found = target ->
  handler target (inner ++ found :: outer) = Some found.
Proof.
  intros Hinner Hfound. unfold handler.
  induction inner as [|c inner IH]; simpl.
  - rewrite Hfound, Z.eqb_refl. reflexivity.
  - assert (Hc : (target =? statement_ c) = false).
    { apply Z.eqb_neq. intros E. apply (Hinner c (or_introl eq_refl)).
      symmetry. exact E. }
    rewrite Hc. apply IH. intros d Hd. apply Hinner. right. exact Hd.
Qed.

(** C3. Under a non-empty chain, a [break] (a [continue]) is served by the
    first scope, from the head of the chain outwards, whose guarded statement
    is the target: the only thing emitted is a jump to the break (continue)
    label of that scope's loop builder.  When no scope guards the target the
    visit fails as unreachable code and the generator is left as it was. *)
Theorem break_continue_resolution DEBUG info target g :
  control_scope_ g <> [] ->
  VisitStatement DEBUG info (BreakStatement target) g
  = match handler target (control_scope_ g) with
    | Some found => Emit (OpJump (break_target (loop_builder_ found))) g
    | None => Abort Unreachable g
    end /\
  VisitStatement DEBUG info (ContinueStatement target) g
  = match handler target (control_scope_ g) with
    | Some found => Emit (OpJump (continue_target (loop_builder_ found))) g
    | None => Abort Unreachable g
    end.
Proof. apply VisitBreakContinue_handler. Qed.

Lemma break_continue_resolution_witness :
  emitted (final (VisitStatement true (sample_info []) (BreakStatement 1)
                    nested_generator))
  = emitted nested_generator ++ [OpJump (Label 0)] /\
  emitted (final (VisitStatement true (sample_info []) (ContinueStatement 2)
                    nested_generator))
  = emitted nested_generator ++ [OpJump (Label 7)].
Proof.
  assert (Hne : control_scope_ nested_generator <> []) by discriminate.
  destruct (break_continue_resolution true (sample_info []) 1
              nested_generator Hne) as [Hb _].
  destruct (break_continue_resolution true (sample_info []) 2
              nested_generator Hne) as [_ Hc].
  rewrite Hb, Hc. split; reflexivity.
Defined.

(** The nested loops of the spec, [for(;;){ while(true){ break; } }]: the
    inner [break] jumps to the break label of the [while] (label 6, bound to
    its done label 10) and nothing jumps to the break label of the [for]
    (label 0). *)
Example nested_break_stays_inner :
  emitted (final (VisitStatement true (sample_info [])
    (ForStatement 1 None None None
       (WhileStatement 2 (Literal TrueValue) (BreakStatement 2)))
    (BytecodeGenerator_new 0)))
  = [OpBind (Label 2); OpJump (Label 9); OpBind (Label 8);
     OpJump (Label 6);
     OpBind (Label 9); OpLoadTrue; OpJumpIfTrue (Label 8); OpBind (Label 10);
     OpBindTo (Label 10) (Label 6); OpBindTo (Label 9) (Label 7);
     OpBind (Label 4); OpJump (Label 2); OpBind (Label 5);
     OpBindTo (Label 5) (Label 0); OpBindTo (Label 4) (Label 1)].
Proof. reflexivity. Qed.

(** ** Failing rules and what they had emitted *)

Lemma DCHECK_true DEBUG : DCHECK DEBUG true = ret tt.
Proof. unfold DCHECK. rewrite andb_false_r. reflexivity. Qed.

Lemma Steady_emitted {A} (m : M A) g :
  Steady m -> exists ops, emitted (final (m g)) = emitted g ++ ops.
Proof. intros H. destruct (H g) as (_ & _ & _ & Hops). exact Hops. Qed.

(** The compound assignment [o.x op= 1] with [o] the local in register 0,
    in a function of two locals: the object and the key have been stored in
    registers 2 and 3 when the rule fails. *)
Lemma compound_property_assignment_emits_then_fails :
  exists g',
    VisitExpression true (sample_info [])
      (Assignment true
         (Property (VariableProxy (local_variable 0))
                   (Literal (PropertyName "x")) 3)
         (Literal (Smi 1)) 4)
      two_locals
    = Abort Unimplemented g' /\
    emitted two_locals = [] /\
    emitted g' = [OpLoadAccumulatorWithRegister (RegisterAt 0);
                  OpStoreAccumulatorInRegister (RegisterAt 2);
                  OpLoadLiteral (PropertyName "x");
                  OpStoreAccumulatorInRegister (RegisterAt 3)].
Proof.
  eexists. split; [ vm_compute; reflexivity | split; reflexivity ].
Qed.

(** C2 (as amended). Nothing emitted is ever taken back: whatever the outcome
    of lowering a node, the sequence emitted before is a prefix of the
    sequence after.  A compound assignment to a plain variable fails before
    anything is emitted.  A compound assignment to a property that is no
    super access, whose object and key are lowered successfully, fails as
    unimplemented only after the code of the object, the store into the
    object register, the code of the key and the store into the key register
    have been emitted. *)
Theorem emitted_only_grows DEBUG info :
  (forall e g, exists ops,
     emitted (final (VisitExpression DEBUG info e g)) = emitted g ++ ops) /\
  (forall s g, exists ops,
     emitted (final (VisitStatement DEBUG info s g)) = emitted g ++ ops) /\
  (forall target value slot g,
     GetAssignType target = VARIABLE ->
     exists f,
       VisitExpression DEBUG info (Assignment true target value slot) g
       = Abort f g) /\
  (forall obj key property_slot value slot g g1 g2,
     IsSuperPropertyReference obj = false ->
     VisitExpression DEBUG info obj (with_object_and_key g) = Ok tt g1 ->
     (if IsPropertyName key
      then LoadPropertyName key
      else VisitExpression DEBUG info key)
       (final (StoreAccumulatorInRegister (RegisterAt (frontier g)) g1))
     = Ok tt g2 ->
     exists g' object_code key_code,
       VisitExpression DEBUG info
         (Assignment true (Property obj key property_slot) value slot) g
       = Abort Unimplemented g' /\
       emitted g1 = emitted g ++ object_code /\
       emitted g2
       = emitted g1
           ++ OpStoreAccumulatorInRegister (RegisterAt (frontier g))
           :: key_code /\
       emitted g'
       = emitted g
           ++ object_code
           ++ OpStoreAccumulatorInRegister (RegisterAt (frontier g))
           :: key_code
           ++ [OpStoreAccumulatorInRegister (RegisterAt (frontier g + 1))]).
Proof.
  split; [ | split; [ | split ] ].
  - intros e g. apply Steady_emitted. apply Steady_VisitExpression.
  - intros s g. apply Steady_emitted. apply Steady_VisitStatement.
  - intros target value slot g Hv. cbn [VisitExpression].
    unfold VisitAssignment. rewrite Hv. unfold DCHECK.
    destruct (DEBUG && negb (IsValidReferenceExpression target)).
    + exists DcheckFailed. reflexivity.
    + exists Unimplemented. reflexivity.
  - intros obj key property_slot value slot g g1 g2 Hsuper Hobj Hkey.
    pose proof (Steady_emitted (VisitExpression DEBUG info obj)
                  (with_object_and_key g)
                  (Steady_VisitExpression DEBUG info obj))
      as (object_code & Hoc).
    rewrite Hobj in Hoc. cbn [final] in Hoc.
    change (emitted (with_object_and_key g)) with (emitted g) in Hoc.
    assert (Hkc : exists key_code,
               emitted g2
               = emitted g1
                   ++ OpStoreAccumulatorInRegister (RegisterAt (frontier g))
                   :: key_code).
    { assert (HS : Steady (if IsPropertyName key
                           then LoadPropertyName key
                           else VisitExpression DEBUG info key)).
      { destruct (IsPropertyName key);
          [ unfold LoadPropertyName; steady
          | apply Steady_VisitExpression ]. }
      destruct (Steady_emitted _
                  (final (StoreAccumulatorInRegister
                            (RegisterAt (frontier g)) g1)) HS)
        as (key_code & Hk).
      rewrite Hkey in Hk. cbn [final] in Hk. exists key_code. rewrite Hk.
      unfold emitted. simpl. rewrite <- app_assoc. reflexivity. }
    destruct Hkc as (key_code & Hkc).
    exists (final (StoreAccumulatorInRegister
                     (RegisterAt (frontier g + 1)) g2)),
      object_code, key_code.
    split; [ | split; [ exact Hoc | split; [ exact Hkc | ] ] ].
    + cbn [VisitExpression].
      remember (VisitAssignment DEBUG info (VisitExpression DEBUG info) true
                  (Property obj key property_slot) value slot g) as o eqn:Ho.
      unfold VisitAssignment in Ho.
      cbn [IsValidReferenceExpression] in Ho. rewrite DCHECK_true in Ho.
      unfold GetAssignType in Ho. rewrite Hsuper in Ho.
      unfold with_object_and_key, set_frontier, final, with_builder in Hobj.
      autounfold with builder_ops in Ho, Hkey.
      destruct (IsPropertyName key) eqn:Hname;
        cbv [bind ret TemporaryRegisterScope_open NewRegister set_frontier
             with_builder Emit fail final] in Ho, Hkey;
        unfold frontier in Hobj, Ho, Hkey |- *; simpl in Hobj, Ho, Hkey;
        rewrite Hobj in Ho.
      * destruct key as [| | | | |name| | | | | | | | | | | | | | | | | | | |];
          try discriminate Hname.
        inversion Hkey. subst o. reflexivity.
      * rewrite Hkey in Ho. subst o. reflexivity.
    + unfold emitted in *. simpl. rewrite Hkc, Hoc.
      repeat first [ rewrite <- app_assoc | progress cbn [app] ]. reflexivity.
Qed.

Lemma emitted_only_grows_witness :
  (exists f,
     VisitExpression true (sample_info [])
       (Assignment true (VariableProxy (local_variable 0))
                   (Literal (Smi 1)) 0)
       nested_generator
     = Abort f nested_generator) /\
  (exists g' object_code key_code,
     VisitExpression true (sample_info [])
       (Assignment true
          (Property (VariableProxy (local_variable 0))
                    (Literal (PropertyName "x")) 3)
          (Literal (Smi 1)) 4)
       nested_generator
     = Abort Unimplemented g' /\
     emitted g'
     = emitted nested_generator
         ++ object_code
         ++ OpStoreAccumulatorInRegister (RegisterAt 2)
         :: key_code
         ++ [OpStoreAccumulatorInRegister (RegisterAt 3)]).
Proof.
  destruct (emitted_only_grows true (sample_info []))
    as (_ & _ & Hvariable & Hproperty).
  split.
  - exact (Hvariable (VariableProxy (local_variable 0)) (Literal (Smi 1)) 0
             nested_generator eq_refl).
  - destruct (Hproperty (VariableProxy (local_variable 0))
                (Literal (PropertyName "x")) 3 (Literal (Smi 1)) 4
                nested_generator _ _ eq_refl eq_refl eq_refl)
      as (g' & object_code & key_code & Hrun & _ & _ & Hcode).
    exists g', object_code, key_code. split; assumption.
Defined.

(** ** Calls *)

Lemma run_facts {A} (m : M A) g a g' :
  Steady m -> Balanced m -> m g = Ok a g' ->
  frontier g' = frontier g /\
  control_scope_ g' = control_scope_ g /\
  exists code, emitted g' = emitted g ++ code.
Proof.
  intros HS HB H. destruct (HB g a g' H) as [Hf Hc].
  destruct (Steady_emitted m g HS) as (code & Hcode). rewrite H in Hcode.
  repeat split; try assumption. exists code. exact Hcode.
Qed.

Lemma bind_cong {A B} (m : M A) (k1 k2 : A -> M B) g :
  (forall a g1, m g = Ok a g1 -> k1 a g1 = k2 a g1) ->
  bind m k1 g = bind m k2 g.
Proof.
  intros H. unfold bind. destruct (m g) as [a g1|f g1]; [ | reflexivity ].
  apply H. reflexivity.
Qed.

(** The defensive check in the argument loop of [VisitCall] holds each time
    it is reached, so the loop runs the same whether or not the build checks
    it. *)
Lemma call_site_check_holds (Visit : Expression -> M unit) scope r args :
  (forall a, In a args -> Balanced (Visit a)) ->
  forall i g,
    frontier g = r + 1 + i ->
    VisitCallArguments true Visit scope (RegisterAt r) i args g
    = VisitCallArguments false Visit scope (RegisterAt r) i args g.
Proof.
  induction args as [|a args IH]; intros HB i g Hg.
  - reflexivity.
  - cbn [VisitCallArguments].
    apply bind_cong. intros [] g1 Ha.
    destruct (HB a (or_introl eq_refl) g tt g1 Ha) as [Hf _].
    apply bind_cong. intros arg g2 Hr. monad_inv Hr.
    cbn [Register_index].
    assert (Hcheck : (frontier g1 - i =? r + 1) = true)
      by (apply Z.eqb_eq; lia).
    rewrite Hcheck, !DCHECK_true.
    apply bind_cong. intros [] g3 Hd. monad_inv Hd.
    apply bind_cong. intros [] g4 Hs. monad_inv Hs.
    apply IH.
    + intros b Hb. apply HB. right. exact Hb.
    + unfold frontier in *. simpl. lia.
Qed.



(** The registers of the sample call: callee 2, receiver 3, arguments 4, 5
    and 6; the temporary of [2 + 3] reuses register 5 before the argument
    takes it. *)
Example sample_call_registers :
  emitted (final (VisitExpression true (sample_info []) sample_call
                    nested_generator))
  = emitted nested_generator ++
    [OpLoadUndefined; OpStoreAccumulatorInRegister (RegisterAt 3);
     OpLoadGlobal 5; OpStoreAccumulatorInRegister (RegisterAt 2);
     OpLoadLiteralSmi 1; OpStoreAccumulatorInRegister (RegisterAt 4);
     OpLoadLiteralSmi 2; OpStoreAccumulatorInRegister (RegisterAt 5);
     OpLoadLiteralSmi 3; OpBinaryOperation ADD (RegisterAt 5);
     OpStoreAccumulatorInRegister (RegisterAt 5);
     OpLoadLiteralSmi 4; OpStoreAccumulatorInRegister (RegisterAt 6);
     OpCall (RegisterAt 2) (RegisterAt 3) 3].
Proof. vm_compute. reflexivity. Qed.

(** ** The counted loop *)

Lemma optional_statement_run DEBUG info (o : option Statement) g g' :
  match o with
  | Some s => VisitStatement DEBUG info s
  | None => ret tt
  end g = Ok tt g' ->
  control_scope_ g' = control_scope_ g /\
  next_label g <= next_label g' /\
  exists code,
    emitted g' = emitted g ++ code /\
    match o with
    | Some s => lowers_statement DEBUG info s code
    | None => code = []
    end.
Proof.
  destruct o as [s|]; intros H.
  - destruct (Balanced_VisitStatement DEBUG info s g tt g' H) as [_ Hc].
    pose proof (Steady_VisitStatement DEBUG info s g) as HS.
    rewrite H in HS. destruct HS as (_ & _ & Hn & code & Hcode).
    repeat split; try assumption.
    exists code. split; [ exact Hcode | ]. exists g, g'. split; assumption.
  - monad_inv H. repeat split; try lia.
    exists []. split; [ symmetry; apply app_nil_r | reflexivity ].
Qed.



(** What the counted loop lowers to: the [continue] of the body jumps to the
    continue label (label 1), which is bound to the [next] label (label 4);
    [next] is bound just before the code of [i = i + 1], and the condition
    label (label 3) after it. *)
Example counted_loop_code :
  emitted (final (VisitStatement true (sample_info []) counted_loop
                    two_locals))
  = [OpLoadLiteralSmi 0; OpStoreAccumulatorInRegister (RegisterAt 0);
     OpJump (Label 3);
     OpBind (Label 2);
     OpEnterBlock;
     OpLoadLiteralSmi 7; OpStoreAccumulatorInRegister (RegisterAt 1);
     OpJump (Label 1);
     OpLeaveBlock;
     OpBind (Label 4);
     OpLoadAccumulatorWithRegister (RegisterAt 0);
     OpStoreAccumulatorInRegister (RegisterAt 2);
     OpLoadLiteralSmi 1; OpBinaryOperation ADD (RegisterAt 2);
     OpStoreAccumulatorInRegister (RegisterAt 0);
     OpBind (Label 3);
     OpLoadAccumulatorWithRegister (RegisterAt 0);
     OpStoreAccumulatorInRegister (RegisterAt 2);
     OpLoadLiteralSmi 3; OpCompareOperation LT (RegisterAt 2) SLOPPY;
     OpJumpIfTrue (Label 2);
     OpBind (Label 5);
     OpBindTo (Label 5) (Label 0); OpBindTo (Label 4) (Label 1)].
Proof. vm_compute. reflexivity. Qed.

(** ** Loop conditions *)

(** In every loop that is lowered successfully, what follows the code of the
    condition at once is the jump-if-true to the body: the loop rules put
    nothing in between. *)
Lemma loop_jumps_right_after_condition DEBUG info s g g' :
  VisitStatement DEBUG info s g = Ok tt g' ->
  match s with
  | WhileStatement _ cond _
  | DoWhileStatement _ _ cond
  | ForStatement _ _ (Some cond) _ _ =>
      exists before condition_code body_label after,
        lowers (VisitExpression DEBUG info) cond condition_code /\
        emitted g'
        = emitted g ++ before ++ condition_code
            ++ OpJumpIfTrue body_label :: after
  | _ => True
  end.
Proof.
  intros H. destruct s as [| | | | | | | | | |stmt body cond|stmt cond body
                           |stmt init [cond|] next body| | | | |];
    try exact I; cbn [VisitStatement] in H.
  - (* DoWhileStatement *)
    unfold VisitDoWhileStatement in H.
    apply bind_Ok in H. destruct H as (loop_builder & g1 & Hlb & H).
    apply bind_Ok in H. destruct H as (outer & g2 & Hcs & H).
    apply bind_Ok in H. destruct H as (body_label & g3 & Hl1 & H).
    apply bind_Ok in H. destruct H as (condition_label & g4 & Hl2 & H).
    apply bind_Ok in H. destruct H as (done_label & g5 & Hl3 & H).
    apply bind_Ok in H. destruct H as ([] & g6 & Hbind_body & H).
    apply bind_Ok in H. destruct H as ([] & g7 & Hbody & H).
    apply bind_Ok in H. destruct H as ([] & g8 & Hbind_cond & H).
    apply bind_Ok in H. destruct H as ([] & g9 & Hcond & H).
    pose proof (Steady_VisitStatement DEBUG info body g6) as Hbody_code.
    rewrite Hbody in Hbody_code.
    destruct Hbody_code as (_ & _ & _ & body_code & Hbody_code).
    pose proof (Steady_VisitExpression DEBUG info cond g8) as Hcond_code.
    rewrite Hcond in Hcond_code.
    destruct Hcond_code as (_ & _ & _ & condition_code & Hcond_code).
    exists ([OpBind body_label] ++ body_code ++ [OpBind condition_label]),
      condition_code, body_label.
    exists [OpBind done_label;
            OpBindTo done_label (break_target loop_builder);
            OpBindTo condition_label (continue_target loop_builder)].
    split; [ exists g8, g9; split; assumption | ].
    monad_inv Hlb. monad_inv Hcs. monad_inv Hl1. monad_inv Hl2.
    monad_inv Hl3. monad_inv Hbind_body. monad_inv Hbind_cond. monad_inv H.
    unfold emitted in *. simpl in *.
    rewrite Hcond_code. simpl. rewrite Hbody_code. simpl.
    repeat first [ rewrite <- app_assoc | progress cbn [app] ].
    reflexivity.
  - (* WhileStatement *)
    unfold VisitWhileStatement in H.
    apply bind_Ok in H. destruct H as (loop_builder & g1 & Hlb & H).
    apply bind_Ok in H. destruct H as (outer & g2 & Hcs & H).
    apply bind_Ok in H. destruct H as (body_label & g3 & Hl1 & H).
    apply bind_Ok in H. destruct H as (condition_label & g4 & Hl2 & H).
    apply bind_Ok in H. destruct H as (done_label & g5 & Hl3 & H).
    apply bind_Ok in H. destruct H as ([] & g6 & Hjump & H).
    apply bind_Ok in H. destruct H as ([] & g7 & Hbind_body & H).
    apply bind_Ok in H. destruct H as ([] & g8 & Hbody & H).
    apply bind_Ok in H. destruct H as ([] & g9 & Hbind_cond & H).
    apply bind_Ok in H. destruct H as ([] & g10 & Hcond & H).
    pose proof (Steady_VisitStatement DEBUG info body g7) as Hbody_code.
    rewrite Hbody in Hbody_code.
    destruct Hbody_code as (_ & _ & _ & body_code & Hbody_code).
    pose proof (Steady_VisitExpression DEBUG info cond g9) as Hcond_code.
    rewrite Hcond in Hcond_code.
    destruct Hcond_code as (_ & _ & _ & condition_code & Hcond_code).
    exists ([OpJump condition_label; OpBind body_label] ++ body_code
              ++ [OpBind condition_label]),
      condition_code, body_label.
    exists [OpBind done_label;
            OpBindTo done_label (break_target loop_builder);
            OpBindTo condition_label (continue_target loop_builder)].
    split; [ exists g9, g10; split; assumption | ].
    monad_inv Hlb. monad_inv Hcs. monad_inv Hl1. monad_inv Hl2.
    monad_inv Hl3. monad_inv Hjump. monad_inv Hbind_body.
    monad_inv Hbind_cond. monad_inv H.
    unfold emitted in *. simpl in *.
    rewrite Hcond_code. simpl. rewrite Hbody_code. simpl.
    repeat first [ rewrite <- app_assoc | progress cbn [app] ].
    reflexivity.
  - (* ForStatement with a condition *)
    unfold VisitForStatement in H.
    apply bind_Ok in H. destruct H as (loop_builder & g1 & Hlb & H).
    apply bind_Ok in H. destruct H as (outer & g2 & Hcs & H).
    apply bind_Ok in H. destruct H as ([] & g3 & Hinit & H).
    apply bind_Ok in H. destruct H as (body_label & g4 & Hl1 & H).
    apply bind_Ok in H. destruct H as (condition_label & g5 & Hl2 & H).
    apply bind_Ok in H. destruct H as (next_label & g6 & Hl3 & H).
    apply bind_Ok in H. destruct H as (done_label & g7 & Hl4 & H).
    apply bind_Ok in H. destruct H as ([] & g8 & Hjump & H).
    apply bind_Ok in H. destruct H as ([] & g9 & Hbind_body & H).
    apply bind_Ok in H. destruct H as ([] & g10 & Hbody & H).
    apply bind_Ok in H. destruct H as ([] & g11 & Hbind_next & H).
    apply bind_Ok in H. destruct H as ([] & g12 & Hnext & H).
    apply bind_Ok in H. destruct H as ([] & g13 & Htest & H).
    apply bind_Ok in H. destruct H as ([] & g14 & Hbind_done & H).
    apply bind_Ok in H. destruct H as ([] & g15 & Hbreak & H).
    apply bind_Ok in H. destruct H as ([] & g16 & Hcontinue & H).
    apply bind_Ok in Htest. destruct Htest as ([] & h1 & Hbind_cond & Htest).
    apply bind_Ok in Htest. destruct Htest as ([] & h2 & Hcond & Htest).
    apply optional_statement_run in Hinit.
    destruct Hinit as (_ & _ & init_code & Hinit & _).
    apply optional_statement_run in Hnext.
    destruct Hnext as (_ & _ & step_code & Hstep & _).
    pose proof (Steady_VisitStatement DEBUG info body g9) as Hbody_code.
    rewrite Hbody in Hbody_code.
    destruct Hbody_code as (_ & _ & _ & body_code & Hbody_code).
    pose proof (Steady_VisitExpression DEBUG info cond h1) as Hcond_code.
    rewrite Hcond in Hcond_code.
    destruct Hcond_code as (_ & _ & _ & condition_code & Hcond_code).
    exists (init_code ++ [OpJump condition_label; OpBind body_label]
              ++ body_code ++ [OpBind next_label] ++ step_code
              ++ [OpBind condition_label]),
      condition_code, body_label.
    exists [OpBind done_label;
            OpBindTo done_label (break_target loop_builder);
            OpBindTo next_label (continue_target loop_builder)].
    split; [ exists h1, h2; split; assumption | ].
    monad_inv Hlb. monad_inv Hcs. monad_inv Hl1. monad_inv Hl2.
    monad_inv Hl3. monad_inv Hl4. monad_inv Hjump. monad_inv Hbind_body.
    monad_inv Hbind_next. monad_inv Hbind_cond. monad_inv Htest.
    monad_inv Hbind_done. monad_inv Hbreak. monad_inv Hcontinue. monad_inv H.
    unfold emitted in *. simpl in *.
    rewrite Hcond_code. simpl. rewrite Hstep. simpl.
    rewrite Hbody_code. simpl. rewrite Hinit.
    repeat first [ rewrite <- app_assoc | progress cbn [app] ].
    reflexivity.
Qed.

(** C1. The loops [while (x) ;], [do ; while (x)] and [for (; x; ) ;] over
    the local [x] of register 0, in a function of two locals: in each the
    load of [x] is followed at once by the jump-if-true, with no coercion to
    boolean in between, whereas [if (x) ;] coerces before its conditional
    jump. *)
Theorem loop_condition_not_coerced :
  emitted (final (VisitStatement true (sample_info [])
    (WhileStatement 7 (VariableProxy (local_variable 0)) EmptyStatement)
    two_locals))
  = [OpJump (Label 3); OpBind (Label 2); OpBind (Label 3);
     OpLoadAccumulatorWithRegister (RegisterAt 0); OpJumpIfTrue (Label 2);
     OpBind (Label 4);
     OpBindTo (Label 4) (Label 0); OpBindTo (Label 3) (Label 1)] /\
  emitted (final (VisitStatement true (sample_info [])
    (DoWhileStatement 7 EmptyStatement (VariableProxy (local_variable 0)))
    two_locals))
  = [OpBind (Label 2); OpBind (Label 3);
     OpLoadAccumulatorWithRegister (RegisterAt 0); OpJumpIfTrue (Label 2);
     OpBind (Label 4);
     OpBindTo (Label 4) (Label 0); OpBindTo (Label 3) (Label 1)] /\
  emitted (final (VisitStatement true (sample_info [])
    (ForStatement 7 None (Some (VariableProxy (local_variable 0))) None
       EmptyStatement)
    two_locals))
  = [OpJump (Label 3); OpBind (Label 2); OpBind (Label 4); OpBind (Label 3);
     OpLoadAccumulatorWithRegister (RegisterAt 0); OpJumpIfTrue (Label 2);
     OpBind (Label 5);
     OpBindTo (Label 5) (Label 0); OpBindTo (Label 4) (Label 1)] /\
  emitted (final (VisitStatement true (sample_info [])
    (IfStatement (VariableProxy (local_variable 0)) EmptyStatement None)
    two_locals))
  = [OpLoadAccumulatorWithRegister (RegisterAt 0);
     OpCastAccumulatorToBoolean; OpJumpIfFalse (Label 0);
     OpBind (Label 0); OpBind (Label 1)].
Proof. repeat split; reflexivity. Qed.

(** * Further properties *)

(** ** The code of an expression *)

Lemma only_refl P g : only P g g.
Proof.
  repeat split. exists []. split; [ symmetry; apply app_nil_r | constructor ].
Qed.

Lemma only_trans P g1 g2 g3 : only P g1 g2 -> only P g2 g3 -> only P g1 g3.
Proof.
  intros (Hc & Hn & ops & He & Hp) (Hc' & Hn' & ops' & He' & Hp').
  repeat split; try congruence.
  exists (ops ++ ops'). split.
  - rewrite He', He. symmetry. apply app_assoc.
  - apply Forall_app. split; assumption.
Qed.

Lemma only_weaken (P P' : BuilderOp -> Prop) g g' :
  (forall op, P op -> P' op) -> only P g g' -> only P' g g'.
Proof.
  intros HP (Hc & Hn & ops & He & Hp). repeat split; try assumption.
  exists ops. split; [ exact He | ]. eapply Forall_impl; eassumption.
Qed.

Section EmitsRules.

Variable floor : Z.
Variable P : BuilderOp -> Prop.

Lemma Emits_ret {A} (Q : A -> Prop) a : Q a -> Emits floor P Q (ret a).
Proof. intros Ha g Hg. simpl. repeat split; try assumption. apply only_refl. Qed.

Lemma Emits_fail {A} (Q : A -> Prop) f : Emits floor P Q (fail f).
Proof. intros g Hg. simpl. apply only_refl. Qed.

Lemma Emits_bind {A B} (Q : A -> Prop) (Q' : B -> Prop) (m : M A)
    (k : A -> M B) :
  Emits floor P Q m ->
  (forall a, Q a -> Emits floor P Q' (k a)) ->
  Emits floor P Q' (bind m k).
Proof.
  intros Hm Hk g Hg. unfold bind. specialize (Hm g Hg).
  destruct (m g) as [a g1|f g1].
  - destruct Hm as (Ha & Hg1 & Ho). specialize (Hk a Ha g1 Hg1).
    destruct (k a g1) as [b g2|f g2].
    + destruct Hk as (Hb & Hg2 & Ho').
      split; [ exact Hb | split; [ exact Hg2 | exact (only_trans _ _ _ _ Ho Ho') ] ].
    + exact (only_trans _ _ _ _ Ho Hk).
  - exact Hm.
Qed.

Lemma Emits_any {A} (Q : A -> Prop) (m : M A) :
  Emits floor P Q m -> Emits floor P (fun _ => True) m.
Proof.
  intros Hm g Hg. specialize (Hm g Hg). destruct (m g) as [a g1|f g1].
  - destruct Hm as (_ & Hg1 & Ho). split; [ exact I | split; assumption ].
  - exact Hm.
Qed.

Lemma Emits_Emit op : P op -> Emits floor P (fun _ => True) (Emit op).
Proof.
  intros Hop g Hg. simpl. split; [ exact I | split; [ exact Hg | ] ].
  split; [ reflexivity | split; [ reflexivity | ] ].
  exists [op]. split; [ reflexivity | constructor; [ exact Hop | constructor ] ].
Qed.

Lemma Emits_open :
  Emits floor P (fun scope => floor <= mark scope) TemporaryRegisterScope_open.
Proof. intros g Hg. simpl. repeat split; try assumption. apply only_refl. Qed.

Lemma Emits_NewRegister scope :
  Emits floor P (register_above floor) (NewRegister scope).
Proof.
  intros g Hg. simpl. split; [ | split ].
  - exists (frontier g). split; [ reflexivity | exact Hg ].
  - unfold frontier in *. simpl. lia.
  - split; [ reflexivity | split; [ reflexivity | ] ].
    exists []. split; [ symmetry; apply app_nil_r | constructor ].
Qed.

Lemma Emits_close scope :
  floor <= mark scope ->
  Emits floor P (fun _ => True) (TemporaryRegisterScope_close scope).
Proof.
  intros Hs g Hg. simpl. split; [ exact I | split; [ exact Hs | ] ].
  split; [ reflexivity | split; [ reflexivity | ] ].
  exists []. split; [ symmetry; apply app_nil_r | constructor ].
Qed.

Lemma Emits_DCHECK DEBUG c : Emits floor P (fun _ => True) (DCHECK DEBUG c).
Proof.
  unfold DCHECK. destruct (DEBUG && negb c);
    [ apply Emits_fail | apply Emits_ret; exact I ].
Qed.

End EmitsRules.

Lemma Emits_weaken floor (P P' : BuilderOp -> Prop) {A} (Q : A -> Prop) m :
  (forall op, P op -> P' op) -> Emits floor P Q m -> Emits floor P' Q m.
Proof.
  intros HP Hm g Hg. specialize (Hm g Hg). destruct (m g) as [a g1|f g1].
  - destruct Hm as (Ha & Hg1 & Ho).
    split; [ exact Ha | split; [ exact Hg1 | exact (only_weaken _ _ _ _ HP Ho) ] ].
  - exact (only_weaken _ _ _ _ HP Hm).
Qed.

Lemma expression_op_incl floor variables variables' op :
  incl variables variables' ->
  expression_op floor variables op -> expression_op floor variables' op.
Proof.
  intros Hi [Hc Hs]. split; [ exact Hc | ].
  destruct (stores_in op) as [[i|p]|]; try assumption.
  destruct Hs as [Hs|Hs]; [ left; apply Hi; exact Hs | right; exact Hs ].
Qed.

Lemma Emits_set_frontier floor P n :
  floor <= n -> Emits floor P (fun _ => True) (set_frontier n).
Proof.
  intros Hn g Hg. simpl. split; [ exact I | split; [ exact Hn | ] ].
  split; [ reflexivity | split; [ reflexivity | ] ].
  exists []. split; [ symmetry; apply app_nil_r | constructor ].
Qed.

(** The side conditions of the rules: what is known of the registers handed
    out settles what an op may be. *)
Ltac emits_side :=
  simpl in *;
  first
    [ exact I
    | assumption
    | solve [ split; assumption ]
    | repeat match goal with
             | H : register_above _ _ |- _ =>
                 let i := fresh "i" in
                 let E := fresh "E" in
                 destruct H as (i & E & H); try subst
             | H : _ /\ _ |- _ => destruct H
             end;
      split; [ reflexivity | simpl; auto ] ].

Ltac emits_child :=
  match goal with
  | IH : forall c, (Expression_size c < _)%nat -> _
    |- Emits _ _ _ (VisitExpression _ _ _) =>
      eapply Emits_weaken; [ | apply IH; smaller ];
      intros ?; apply expression_op_incl; intros x Hx; simpl;
      rewrite ?in_app_iff, ?in_flat_map; simpl; eauto 6
  end.

Ltac emits_step :=
  lazymatch goal with
  | |- Emits ?floor _ _ (bind ?m _) =>
      let T := type of m in
      lazymatch eval cbv [M] in T with
      | _ -> Outcome unit =>
          eapply (Emits_bind floor _ (fun _ => True)); [ | intros ? _ ]
      | _ -> Outcome TemporaryRegisterScope =>
          eapply (Emits_bind floor _ (fun scope => floor <= mark scope));
          [ | intros ? ? ]
      | _ -> Outcome Register =>
          eapply (Emits_bind floor _ (register_above floor)); [ | intros ? ? ]
      | _ -> Outcome (option (Register * Register)) =>
          eapply (Emits_bind floor _ (registers_above floor)); [ | intros ? ? ]
      end
  | |- Emits _ _ _ (match ?x with _ => _ end) => destruct x
  | |- Emits _ _ _ (ret _) => apply Emits_ret; emits_side
  | |- Emits _ _ _ (fail _) => apply Emits_fail
  | |- Emits _ _ _ (Emit _) => apply Emits_Emit; emits_side
  | |- Emits _ _ _ TemporaryRegisterScope_open => apply Emits_open
  | |- Emits _ _ _ (NewRegister _) => apply Emits_NewRegister
  | |- Emits _ _ _ (set_frontier _) => apply Emits_set_frontier; emits_side
  | |- Emits _ _ _ (DCHECK _ _) => apply Emits_DCHECK
  | |- Emits _ _ _ _ => first [ assumption | solve [ auto ] | emits_child ]
  end.

Ltac emits := autounfold with builder_ops; cbv zeta; repeat emits_step.

Section ExpressionCode.

Variable DEBUG : bool.
Variable info : CompilationInfo.
Variable floor : Z.
Variable variables : list Z.

Lemma Emits_VisitVariableLoad v :
  Emits floor (expression_op floor variables) (fun _ => True)
    (VisitVariableLoad DEBUG v).
Proof. unfold VisitVariableLoad. emits. Qed.

Lemma Emits_VisitLiteral v :
  Emits floor (expression_op floor variables) (fun _ => True) (VisitLiteral v).
Proof. unfold VisitLiteral. emits. Qed.

Section Expressions.

Variable Visit : Expression -> M unit.

Lemma Emits_VisitPropertyLoad object obj key slot :
  Emits floor (expression_op floor variables) (fun _ => True) (Visit key) ->
  Emits floor (expression_op floor variables) (fun _ => True)
    (VisitPropertyLoad info Visit object obj key slot).
Proof. intros Hk. unfold VisitPropertyLoad. emits. Qed.

Lemma Emits_VisitCallArguments scope receiver args :
  (forall a, In a args ->
     Emits floor (expression_op floor variables) (fun _ => True) (Visit a)) ->
  forall i,
    Emits floor (expression_op floor variables) (fun _ => True)
      (VisitCallArguments DEBUG Visit scope receiver i args).
Proof.
  induction args as [|a args IH]; intros Ha i; simpl.
  - emits.
  - assert (Emits floor (expression_op floor variables) (fun _ => True)
              (Visit a)) by (apply Ha; left; reflexivity).
    assert (forall j,
      Emits floor (expression_op floor variables) (fun _ => True)
        (VisitCallArguments DEBUG Visit scope receiver j args))
      by (intros j; apply IH; intros b Hb; apply Ha; right; exact Hb).
    emits.
Qed.

Lemma Emits_VisitCallRuntimeArguments scope first_arg args :
  register_above floor first_arg ->
  (forall a, In a args ->
     Emits floor (expression_op floor variables) (fun _ => True) (Visit a)) ->
  forall i,
    Emits floor (expression_op floor variables) (fun _ => True)
      (VisitCallRuntimeArguments DEBUG Visit scope first_arg i args).
Proof.
  intros Hf.
  induction args as [|a args IH]; intros Ha i; simpl.
  - emits.
  - assert (Emits floor (expression_op floor variables) (fun _ => True)
              (Visit a)) by (apply Ha; left; reflexivity).
    assert (forall j,
      Emits floor (expression_op floor variables) (fun _ => True)
        (VisitCallRuntimeArguments DEBUG Visit scope first_arg j args))
      by (intros j; apply IH; intros b Hb; apply Ha; right; exact Hb).
    emits.
Qed.

End Expressions.

End ExpressionCode.

Lemma Emits_VisitExpression DEBUG info e :
  forall floor,
    Emits floor (expression_op floor (assigned e)) (fun _ => True)
      (VisitExpression DEBUG info e).
Proof.
  induction e as [e IH] using Expression_size_induction. intros floor.
  destruct e; cbn [VisitExpression];
    try solve [ unfold VisitVariableProxy; emits
              | apply Emits_VisitVariableLoad
              | apply Emits_VisitLiteral ].
  - (* Assignment *)
    unfold VisitAssignment.
    destruct e1; emits.
  - (* Property *)
    unfold VisitProperty. emits.
    apply Emits_VisitPropertyLoad. emits.
  - (* Call *)
    unfold VisitCall.
    assert (Hargs : forall i scope receiver,
      Emits floor
        (expression_op floor (assigned (Call e arguments is_possibly_eval)))
        (fun _ => True)
        (VisitCallArguments DEBUG (VisitExpression DEBUG info)
           scope receiver i arguments)).
    { intros i scope receiver. apply Emits_VisitCallArguments.
      intros a Ha. emits. }
    destruct e; emits.
    + apply Emits_VisitVariableLoad.
    + apply Emits_VisitPropertyLoad. emits.
  - (* CallRuntime *)
    unfold VisitCallRuntime.
    assert (Hargs : forall i scope first_arg,
      register_above floor first_arg ->
      Emits floor
        (expression_op floor
           (assigned (CallRuntime is_jsruntime function0 arguments)))
        (fun _ => True)
        (VisitCallRuntimeArguments DEBUG (VisitExpression DEBUG info)
           scope first_arg i arguments)).
    { intros i scope first_arg Hf. apply Emits_VisitCallRuntimeArguments.
      - exact Hf.
      - intros a Ha. emits. }
    emits.
  - (* BinaryOperation *)
    unfold VisitBinaryOperation, VisitArithmeticExpression. emits.
  - (* CompareOperation *)
    unfold VisitCompareOperation. emits.
Qed.

(** ** Runtime calls *)

Lemma VisitCallRuntimeArguments_layout DEBUG (Visit : Expression -> M unit)
    scope b args :
  (forall a, In a args -> Balanced (Visit a)) ->
  (forall a, In a args -> Steady (Visit a)) ->
  forall i g g',
    0 <= i ->
    frontier g = b + Z.max 1 i ->
    VisitCallRuntimeArguments DEBUG Visit scope (RegisterAt b) i args g
    = Ok tt g' ->
    exists codes,
      Forall2 (lowers Visit) args codes /\
      emitted g' = emitted g ++ argument_stores (b + i) codes.
Proof.
  induction args as [|a args IH]; intros HB HS i g g' Hi Hg H.
  - simpl in H. monad_inv H.
    exists []. split; [ constructor | symmetry; apply app_nil_r ].
  - cbn [VisitCallRuntimeArguments] in H. autounfold with builder_ops in H.
    apply bind_Ok in H. destruct H as (arg & g1 & Hr & H).
    apply bind_Ok in H. destruct H as ([] & g2 & Ha & H).
    apply bind_Ok in H. destruct H as ([] & g3 & Hd & H).
    apply bind_Ok in H. destruct H as ([] & g4 & Hs & H).
    pose proof (HB a (or_introl eq_refl) _ _ _ Ha) as [Hf _].
    pose proof (HS a (or_introl eq_refl) g1) as Hst. rewrite Ha in Hst.
    destruct Hst as (_ & _ & _ & code & Hcode).
    assert (Hone : arg = RegisterAt (b + i) /\ emitted g1 = emitted g /\
                   frontier g1 = b + Z.max 1 (i + 1)).
    { destruct (i =? 0) eqn:Hz.
      - apply Z.eqb_eq in Hz. subst i. monad_inv Hr.
        rewrite Z.add_0_r. repeat split. rewrite Hg. reflexivity.
      - apply Z.eqb_neq in Hz. monad_inv Hr.
        unfold frontier, emitted in *. simpl in *.
        repeat split; [ f_equal | ]; lia. }
    destruct Hone as (-> & He1 & Hf1).
    monad_inv Hd; monad_inv Hs.
    all: apply IH in H;
      [ | intros c Hc; apply HB; right; exact Hc
        | intros c Hc; apply HS; right; exact Hc
        | lia
        | unfold frontier in *; simpl; lia ].
    all: destruct H as (codes & Hall & Hem).
    all: exists (code :: codes).
    all: split; [ constructor; [ exists g1, g2; split; assumption | exact Hall ] | ].
    all: unfold emitted in *; simpl in *.
    all: rewrite Hem, Hcode, He1, Z.add_assoc, <- !app_assoc; reflexivity.
Qed.

(** The defensive check in the argument loop of [VisitCallRuntime] holds
    each time it is reached. *)
Lemma runtime_call_site_check_holds (Visit : Expression -> M unit) scope b
    args :
  (forall a, In a args -> Balanced (Visit a)) ->
  forall i g,
    0 <= i ->
    frontier g = b + Z.max 1 i ->
    VisitCallRuntimeArguments true Visit scope (RegisterAt b) i args g
    = VisitCallRuntimeArguments false Visit scope (RegisterAt b) i args g.
Proof.
  induction args as [|a args IH]; intros HB i g Hi Hg.
  - reflexivity.
  - cbn [VisitCallRuntimeArguments].
    apply bind_cong. intros arg g1 Hr.
    assert (Hone : arg = RegisterAt (b + i) /\
                   frontier g1 = b + Z.max 1 (i + 1)).
    { destruct (i =? 0) eqn:Hz.
      - apply Z.eqb_eq in Hz. subst i. monad_inv Hr.
        rewrite Z.add_0_r. split; [ reflexivity | rewrite Hg; reflexivity ].
      - apply Z.eqb_neq in Hz. monad_inv Hr.
        unfold frontier in *. simpl in *. split; [ f_equal | ]; lia. }
    destruct Hone as (-> & Hf1).
    apply bind_cong. intros [] g2 Ha.
    destruct (HB a (or_introl eq_refl) g1 tt g2 Ha) as [Hf _].
    cbn [Register_index].
    assert (Hcheck : (b + i - i =? b) = true) by (apply Z.eqb_eq; lia).
    rewrite Hcheck, !DCHECK_true.
    apply bind_cong. intros [] g3 Hd. monad_inv Hd.
    apply bind_cong. intros [] g4 Hs. monad_inv Hs.
    apply IH.
    + intros c Hc. apply HB. right. exact Hc.
    + lia.
    + unfold frontier in *. simpl. lia.
Qed.

(** X1. A runtime call that is lowered successfully from a state whose
    register frontier is [base] is not a JS-runtime call; argument [i] is
    lowered and stored in register [base + i], left to right, and the call
    instruction names register [base] as the first argument, with the number
    of arguments, also when there is none.  A debug build has checked that
    the function returns at most one value.  The check of the argument index
    against the first register holds every time the argument loop reaches
    it. *)
Theorem VisitCallRuntime_registers_contiguous DEBUG info is_jsruntime function
    args g g' :
  VisitExpression DEBUG info (CallRuntime is_jsruntime function args) g
  = Ok tt g' ->
  is_jsruntime = false /\
  (DEBUG = true -> result_size function <= 1) /\
  (exists codes,
     Forall2 (lowers (VisitExpression DEBUG info)) args codes /\
     emitted g'
     = emitted g
         ++ argument_stores (frontier g) codes
         ++ [OpCallRuntime (function_id function) (RegisterAt (frontier g))
                           (Z.of_nat (List.length args))]) /\
  (forall scope g0,
     frontier g0 = frontier g + 1 ->
     VisitCallRuntimeArguments true (VisitExpression DEBUG info) scope
       (RegisterAt (frontier g)) 0 args g0
     = VisitCallRuntimeArguments false (VisitExpression DEBUG info) scope
         (RegisterAt (frontier g)) 0 args g0).
Proof.
  intros H. cbn [VisitExpression] in H. unfold VisitCallRuntime in H.
  apply bind_Ok in H. destruct H as ([] & g1 & Hjs & H).
  apply bind_Ok in H. destruct H as (scope & g2 & Hopen & H).
  apply bind_Ok in H. destruct H as (first_arg & g3 & Hr & H).
  apply bind_Ok in H. destruct H as ([] & g4 & Hargs & H).
  apply bind_Ok in H. destruct H as ([] & g5 & Hd & H).
  apply bind_Ok in H. destruct H as ([] & g6 & Hcall & H).
  destruct is_jsruntime; [ discriminate Hjs | ].
  monad_inv Hjs. monad_inv Hopen. monad_inv Hr.
  split; [ reflexivity | ]. split; [ | split ].
  - intros ->. unfold DCHECK in Hd. simpl in Hd.
    destruct (result_size function <=? 1) eqn:Hle; [ | discriminate Hd ].
    apply Z.leb_le. exact Hle.
  - apply (VisitCallRuntimeArguments_layout DEBUG
             (VisitExpression DEBUG info)) in Hargs;
      [ | intros a _; apply Balanced_VisitExpression
        | intros a _; apply Steady_VisitExpression
        | lia
        | unfold frontier; simpl; lia ].
    destruct Hargs as (codes & Hall & Hargs).
    assert (He5 : emitted g5 = emitted g4)
      by (unfold DCHECK in Hd;
          destruct (DEBUG && negb (result_size function <=? 1));
          monad_inv Hd; reflexivity).
    autounfold with builder_ops in Hcall, H. monad_inv Hcall. monad_inv H.
    exists codes. split; [ exact Hall | ].
    unfold emitted in *. simpl in *. rewrite He5, Hargs. simpl.
    rewrite Z.add_0_r, <- !app_assoc. reflexivity.
  - intros scope0 g0 Hg0. apply runtime_call_site_check_holds.
    + intros a _. apply Balanced_VisitExpression.
    + lia.
    + lia.
Qed.

Lemma VisitCallRuntime_registers_contiguous_witness :
  let g' := final (VisitExpression true (sample_info []) sample_runtime_call
                     nested_generator) in
  exists codes,
    emitted g'
    = emitted nested_generator
        ++ argument_stores 2 codes
        ++ [OpCallRuntime 7 (RegisterAt 2) 3].
Proof.
  intros g'.
  assert (Hrun : VisitExpression true (sample_info []) sample_runtime_call
                   nested_generator = Ok tt g')
    by (vm_compute; reflexivity).
  destruct (VisitCallRuntime_registers_contiguous true (sample_info [])
              _ _ _ nested_generator g' Hrun)
    as (_ & _ & (codes & _ & Hcode) & _).
  exists codes. exact Hcode.
Defined.

(** ** Operands and their temporary *)

(** What a successful visit of an expression did, for a caller that keeps
    the registers below [floor] for itself. *)
Lemma expression_run DEBUG info e floor g g' :
  floor <= frontier g ->
  VisitExpression DEBUG info e g = Ok tt g' ->
  frontier g' = frontier g /\
  control_scope_ g' = control_scope_ g /\
  next_label g' = next_label g /\
  exists code,
    emitted g' = emitted g ++ code /\
    Forall (expression_op floor (assigned e)) code.
Proof.
  intros Hfloor H.
  destruct (Balanced_VisitExpression DEBUG info e g tt g' H) as [Hf Hc].
  pose proof (Emits_VisitExpression DEBUG info e floor g Hfloor) as He.
  rewrite H in He. destruct He as (_ & _ & _ & Hn & Hcode).
  repeat split; assumption.
Qed.

Lemma expression_op_spares floor variables code i :
  Forall (expression_op floor variables) code ->
  i < floor ->
  ~ In i variables ->
  ~ In (OpStoreAccumulatorInRegister (RegisterAt i)) code.
Proof.
  intros Hall Hi Hv Hin.
  rewrite Forall_forall in Hall. destruct (Hall _ Hin) as [_ Hs].
  simpl in Hs. destruct Hs as [Hs|Hs]; [ exact (Hv Hs) | lia ].
Qed.

(** The shape shared by [VisitArithmeticExpression] and
    [VisitCompareOperation]: the left operand goes through a temporary, the
    right operand stays in the accumulator. *)
Lemma two_operands DEBUG info lhs rhs (operation : Register -> BuilderOp)
    g g' :
  (temporary_register_scope <- TemporaryRegisterScope_open ;;
   temporary <- NewRegister temporary_register_scope ;;
   VisitExpression DEBUG info lhs ;;
   StoreAccumulatorInRegister temporary ;;
   VisitExpression DEBUG info rhs ;;
   Emit (operation temporary) ;;
   TemporaryRegisterScope_close temporary_register_scope)%gen g = Ok tt g' ->
  frontier g' = frontier g /\
  exists left_code right_code,
    lowers (VisitExpression DEBUG info) lhs left_code /\
    lowers (VisitExpression DEBUG info) rhs right_code /\
    emitted g'
    = emitted g
        ++ left_code
        ++ OpStoreAccumulatorInRegister (RegisterAt (frontier g))
        :: right_code
        ++ [operation (RegisterAt (frontier g))] /\
    (~ In (frontier g) (assigned rhs) ->
     ~ In (OpStoreAccumulatorInRegister (RegisterAt (frontier g))) right_code).
Proof.
  intros H.
  apply bind_Ok in H. destruct H as (scope & g1 & Hopen & H).
  apply bind_Ok in H. destruct H as (temporary & g2 & Hr & H).
  apply bind_Ok in H. destruct H as ([] & g3 & Hl & H).
  apply bind_Ok in H. destruct H as ([] & g4 & Hs & H).
  apply bind_Ok in H. destruct H as ([] & g5 & Hrhs & H).
  apply bind_Ok in H. destruct H as ([] & g6 & Hop & H).
  monad_inv Hopen. monad_inv Hr.
  pose proof Hl as Hlow. pose proof Hrhs as Hlow'.
  apply (expression_run _ _ _ (frontier g + 1)) in Hl;
    [ | unfold frontier; simpl; lia ].
  destruct Hl as (Hf3 & _ & _ & left_code & Hleft & _).
  autounfold with builder_ops in Hs. monad_inv Hs.
  apply (expression_run _ _ _ (frontier g + 1)) in Hrhs;
    [ | unfold frontier in *; simpl in *; lia ].
  destruct Hrhs as (Hf5 & _ & _ & right_code & Hright & Hall).
  monad_inv Hop. autounfold with builder_ops in H. monad_inv H.
  split; [ reflexivity | ].
  exists left_code, right_code. split; [ | split; [ | split ] ].
  - eexists _, _. split; [ exact Hlow | exact Hleft ].
  - eexists _, _. split; [ exact Hlow' | exact Hright ].
  - unfold emitted, frontier in *. simpl in *.
    rewrite Hright. simpl. rewrite Hleft. simpl.
    rewrite <- !app_assoc. reflexivity.
  - intros Hv. eapply expression_op_spares; [ exact Hall | lia | exact Hv ].
Qed.

(** X2. A binary operation that is lowered successfully is none of the comma
    and the two short-circuit operators; its code is the code of the left
    operand, a store into the register at the frontier, the code of the right
    operand and the operation on that register.  The code of the right
    operand does not store into that register, unless the right operand
    assigns the variable that lives there; the frontier ends where it
    began. *)
Theorem VisitBinaryOperation_layout DEBUG info op lhs rhs g g' :
  VisitExpression DEBUG info (BinaryOperation op lhs rhs) g = Ok tt g' ->
  op <> COMMA /\ op <> OR /\ op <> AND /\
  frontier g' = frontier g /\
  exists left_code right_code,
    lowers (VisitExpression DEBUG info) lhs left_code /\
    lowers (VisitExpression DEBUG info) rhs right_code /\
    emitted g'
    = emitted g
        ++ left_code
        ++ OpStoreAccumulatorInRegister (RegisterAt (frontier g))
        :: right_code
        ++ [OpBinaryOperation op (RegisterAt (frontier g))] /\
    (~ In (frontier g) (assigned rhs) ->
     ~ In (OpStoreAccumulatorInRegister (RegisterAt (frontier g))) right_code).
Proof.
  intros H. cbn [VisitExpression] in H. unfold VisitBinaryOperation in H.
  assert (Hop : op <> COMMA /\ op <> OR /\ op <> AND)
    by (destruct op; try discriminate H; repeat split; discriminate).
  destruct Hop as (Hc & Ho & Ha). repeat (split; [ assumption | ]).
  apply (two_operands DEBUG info lhs rhs (OpBinaryOperation op)).
  destruct op; try discriminate H; exact H.
Qed.

Lemma VisitBinaryOperation_layout_witness :
  let e := BinaryOperation ADD (Literal (Smi 2)) (Literal (Smi 3)) in
  let g' := final (VisitExpression true (sample_info []) e nested_generator) in
  exists left_code right_code,
    emitted g'
    = emitted nested_generator
        ++ left_code
        ++ OpStoreAccumulatorInRegister (RegisterAt 2)
        :: right_code
        ++ [OpBinaryOperation ADD (RegisterAt 2)].
Proof.
  intros e g'.
  assert (Hrun : VisitExpression true (sample_info []) e nested_generator
                 = Ok tt g')
    by (vm_compute; reflexivity).
  destruct (VisitBinaryOperation_layout true (sample_info [])
              _ _ _ nested_generator g' Hrun)
    as (_ & _ & _ & _ & left_code & right_code & _ & _ & Hcode & _).
  exists left_code, right_code. exact Hcode.
Defined.

(** X3. A comparison that is lowered successfully has the code of the left
    operand, a store into the register at the frontier, the code of the
    right operand and the comparison on that register, in the language mode
    of the function.  The code of the right operand does not store into
    that register, unless the right operand assigns the variable that lives
    there; the frontier ends where it began. *)
Theorem VisitCompareOperation_layout DEBUG info op lhs rhs g g' :
  VisitExpression DEBUG info (CompareOperation op lhs rhs) g = Ok tt g' ->
  frontier g' = frontier g /\
  exists left_code right_code,
    lowers (VisitExpression DEBUG info) lhs left_code /\
    lowers (VisitExpression DEBUG info) rhs right_code /\
    emitted g'
    = emitted g
        ++ left_code
        ++ OpStoreAccumulatorInRegister (RegisterAt (frontier g))
        :: right_code
        ++ [OpCompareOperation op (RegisterAt (frontier g))
              (info_language_mode info)] /\
    (~ In (frontier g) (assigned rhs) ->
     ~ In (OpStoreAccumulatorInRegister (RegisterAt (frontier g))) right_code).
Proof.
  intros H. cbn [VisitExpression] in H. unfold VisitCompareOperation in H.
  apply (two_operands DEBUG info lhs rhs
           (fun r => OpCompareOperation op r (info_language_mode info))).
  exact H.
Qed.

Lemma VisitCompareOperation_layout_witness :
  let e := CompareOperation LT (VariableProxy (local_variable 0))
             (Literal (Smi 3)) in
  let g' := final (VisitExpression true (sample_info []) e nested_generator) in
  exists left_code right_code,
    emitted g'
    = emitted nested_generator
        ++ left_code
        ++ OpStoreAccumulatorInRegister (RegisterAt 2)
        :: right_code
        ++ [OpCompareOperation LT (RegisterAt 2) SLOPPY].
Proof.
  intros e g'.
  assert (Hrun : VisitExpression true (sample_info []) e nested_generator
                 = Ok tt g')
    by (vm_compute; reflexivity).
  destruct (VisitCompareOperation_layout true (sample_info [])
              _ _ _ nested_generator g' Hrun)
    as (_ & left_code & right_code & _ & _ & Hcode & _).
  exists left_code, right_code. exact Hcode.
Defined.

(** ** What the code of an expression is made of *)

Lemma VisitExpression_only DEBUG info e g :
  only (expression_op (frontier g) (assigned e)) g
    (final (VisitExpression DEBUG info e g)).
Proof.
  pose proof (Emits_VisitExpression DEBUG info e (frontier g) g (Z.le_refl _))
    as H.
  destruct (VisitExpression DEBUG info e g) as [a g'|f g']; simpl.
  - destruct H as (_ & _ & H). exact H.
  - exact H.
Qed.

(** X4. Lowering an expression, whether it succeeds or fails, emits no
    jump, no binding of a label, no conversion to boolean, no return and no
    block bracket; it creates no label and leaves the chain of control
    scopes as it was. *)
Theorem expression_code_is_straight_line DEBUG info e g :
  let g' := final (VisitExpression DEBUG info e g) in
  control_scope_ g' = control_scope_ g /\
  next_label g' = next_label g /\
  exists code,
    emitted g' = emitted g ++ code /\
    Forall (fun op => is_control op = false) code.
Proof.
  intros g'. destruct (VisitExpression_only DEBUG info e g)
    as (Hc & Hn & code & Hcode & Hall).
  split; [ exact Hc | split; [ exact Hn | ] ].
  exists code. split; [ exact Hcode | ].
  eapply Forall_impl; [ | exact Hall ]. intros op [Hop _]. exact Hop.
Qed.

(** X5. Lowering an expression, whether it succeeds or fails, stores the
    accumulator only in registers addressed by index, never in a register
    asked of the parameter mapping, and the index is that of a variable
    that the expression assigns or lies at or above the frontier the
    lowering began with.  So a register below that frontier is stored into
    only when the expression assigns a variable of that index. *)
Theorem expression_stores_spare_live_registers DEBUG info e g :
  exists code,
    emitted (final (VisitExpression DEBUG info e g)) = emitted g ++ code /\
    (forall r,
       In (OpStoreAccumulatorInRegister r) code ->
       exists i, r = RegisterAt i /\ (In i (assigned e) \/ frontier g <= i)) /\
    (forall i,
       i < frontier g ->
       ~ In i (assigned e) ->
       ~ In (OpStoreAccumulatorInRegister (RegisterAt i)) code).
Proof.
  destruct (VisitExpression_only DEBUG info e g)
    as (_ & _ & code & Hcode & Hall).
  exists code. split; [ exact Hcode | split ].
  - intros r Hr. rewrite Forall_forall in Hall.
    destruct (Hall _ Hr) as [_ Hs]. simpl in Hs.
    destruct r as [i|p]; [ | contradiction ].
    exists i. split; [ reflexivity | exact Hs ].
  - intros i Hi Hv.
    eapply expression_op_spares; [ exact Hall | exact Hi | exact Hv ].
Qed.

(** ** Conditional statements *)

(** X6. An if statement that is lowered successfully creates two labels,
    [else] and [end].  Its code is the code of the condition, a conversion
    of the accumulator to boolean, a jump to [else] when it is false and
    the code of the then branch; then, with an else branch, a jump to
    [end], the binding of [else] and the code of the else branch, and
    without one the binding of [else] alone; last the binding of [end]. *)
Theorem VisitIfStatement_layout DEBUG info condition then_statement
    else_statement g g' :
  VisitStatement DEBUG info
    (IfStatement condition then_statement else_statement) g = Ok tt g' ->
  let else_label := Label (next_label g) in
  let end_label := Label (next_label g + 1) in
  exists condition_code then_code else_part,
    lowers (VisitExpression DEBUG info) condition condition_code /\
    lowers_statement DEBUG info then_statement then_code /\
    match else_statement with
    | Some else_branch =>
        exists else_code,
          lowers_statement DEBUG info else_branch else_code /\
          else_part = OpJump end_label :: OpBind else_label :: else_code
    | None => else_part = [OpBind else_label]
    end /\
    emitted g'
    = emitted g
        ++ condition_code
        ++ OpCastAccumulatorToBoolean :: OpJumpIfFalse else_label
        :: then_code
        ++ else_part
        ++ [OpBind end_label].
Proof.
  intros H else_label end_label.
  cbn [VisitStatement] in H. unfold VisitIfStatement in H.
  apply bind_Ok in H. destruct H as (l1 & g1 & Hl1 & H).
  apply bind_Ok in H. destruct H as (l2 & g2 & Hl2 & H).
  apply bind_Ok in H. destruct H as ([] & g3 & Hcond & H).
  apply bind_Ok in H. destruct H as ([] & g4 & Hcast & H).
  apply bind_Ok in H. destruct H as ([] & g5 & Hjump & H).
  apply bind_Ok in H. destruct H as ([] & g6 & Hthen & H).
  apply bind_Ok in H. destruct H as ([] & g7 & Helse & H).
  monad_inv Hl1. monad_inv Hl2.
  fold else_label in Hjump, Helse. simpl in H. fold end_label in H, Helse.
  pose proof Hcond as Hcond'. pose proof Hthen as Hthen'.
  apply run_facts in Hcond;
    [ | apply Steady_VisitExpression | apply Balanced_VisitExpression ].
  destruct Hcond as (_ & _ & condition_code & Hc).
  autounfold with builder_ops in Hcast, Hjump. monad_inv Hcast. monad_inv Hjump.
  apply run_facts in Hthen;
    [ | apply Steady_VisitStatement | apply Balanced_VisitStatement ].
  destruct Hthen as (_ & _ & then_code & Ht).
  autounfold with builder_ops in H. monad_inv H.
  destruct else_statement as [else_branch|].
  - apply bind_Ok in Helse. destruct Helse as ([] & h1 & Hj & Helse).
    apply bind_Ok in Helse. destruct Helse as ([] & h2 & Hb & Helse).
    autounfold with builder_ops in Hj, Hb. monad_inv Hj. monad_inv Hb.
    pose proof Helse as Helse'.
    apply run_facts in Helse;
      [ | apply Steady_VisitStatement | apply Balanced_VisitStatement ].
    destruct Helse as (_ & _ & else_code & He).
    exists condition_code, then_code,
      (OpJump end_label :: OpBind else_label :: else_code).
    split; [ eexists _, _; split; [ exact Hcond' | exact Hc ] | ].
    split; [ eexists _, _; split; [ exact Hthen' | exact Ht ] | ].
    split.
    + exists else_code. split; [ | reflexivity ].
      eexists _, _. split; [ exact Helse' | exact He ].
    + unfold emitted in *. simpl in *. rewrite He. simpl. rewrite Ht. simpl.
      rewrite Hc. repeat first [ rewrite <- app_assoc | progress cbn [app] ].
      reflexivity.
  - autounfold with builder_ops in Helse. monad_inv Helse.
    exists condition_code, then_code, [OpBind else_label].
    split; [ eexists _, _; split; [ exact Hcond' | exact Hc ] | ].
    split; [ eexists _, _; split; [ exact Hthen' | exact Ht ] | ].
    split; [ reflexivity | ].
    unfold emitted in *. simpl in *. rewrite Ht. simpl.
    rewrite Hc. repeat first [ rewrite <- app_assoc | progress cbn [app] ].
    reflexivity.
Qed.

Lemma VisitIfStatement_layout_witness :
  let g' := final (VisitStatement true (sample_info []) sample_if
                     nested_generator) in
  exists condition_code then_code else_part,
    emitted g'
    = emitted nested_generator
        ++ condition_code
        ++ OpCastAccumulatorToBoolean :: OpJumpIfFalse (Label 11)
        :: then_code
        ++ else_part
        ++ [OpBind (Label 12)].
Proof.
  intros g'.
  assert (Hrun : VisitStatement true (sample_info []) sample_if
                   nested_generator = Ok tt g')
    by (vm_compute; reflexivity).
  destruct (VisitIfStatement_layout true (sample_info [])
              _ _ _ nested_generator g' Hrun)
    as (condition_code & then_code & else_part & _ & _ & _ & Hcode).
  exists condition_code, then_code, else_part. exact Hcode.
Defined.

(** ** Property loads *)

(** X7. A property load that is lowered successfully keeps the object in
    the register at the frontier: its code is the code of the object, a
    store into that register, the code of the key and the load from that
    register, with the feedback index of its slot and the language mode of
    the function.  A key that is a property name is loaded as a constant
    and the load is a named load; any other key is lowered as an expression
    and the load is a keyed load.  The code of the key does not store into
    the object's register, unless the key assigns the variable that lives
    there. *)
Theorem VisitProperty_layout DEBUG info obj key slot g g' :
  VisitExpression DEBUG info (Property obj key slot) g = Ok tt g' ->
  let object := RegisterAt (frontier g) in
  frontier g' = frontier g /\
  exists object_code key_code,
    lowers (VisitExpression DEBUG info) obj object_code /\
    (if IsPropertyName key
     then exists name,
            key = Literal (PropertyName name) /\
            key_code = [OpLoadLiteral (PropertyName name)]
     else lowers (VisitExpression DEBUG info) key key_code) /\
    emitted g'
    = emitted g
        ++ object_code
        ++ OpStoreAccumulatorInRegister object
        :: key_code
        ++ [if IsPropertyName key
            then OpLoadNamedProperty object (feedback_vector_GetIndex info slot)
                   (info_language_mode info)
            else OpLoadKeyedProperty object (feedback_vector_GetIndex info slot)
                   (info_language_mode info)] /\
    (~ In (frontier g) (assigned key) ->
     ~ In (OpStoreAccumulatorInRegister object) key_code).
Proof.
  intros H object. cbn [VisitExpression] in H. unfold VisitProperty in H.
  apply bind_Ok in H. destruct H as (scope & g1 & Hopen & H).
  apply bind_Ok in H. destruct H as (r & g2 & Hr & H).
  apply bind_Ok in H. destruct H as ([] & g3 & Hobj & H).
  apply bind_Ok in H. destruct H as ([] & g4 & Hs & H).
  apply bind_Ok in H. destruct H as ([] & g5 & Hload & H).
  monad_inv Hopen. monad_inv Hr. fold object in Hs, Hload.
  pose proof Hobj as Hobj'.
  apply (expression_run _ _ _ (frontier g + 1)) in Hobj;
    [ | unfold frontier; simpl; lia ].
  destruct Hobj as (Hf3 & _ & _ & object_code & Hcode & _).
  autounfold with builder_ops in Hs, H. monad_inv Hs. monad_inv H.
  split; [ reflexivity | ].
  unfold VisitPropertyLoad, GetAssignType in Hload.
  destruct (IsPropertyName key) eqn:Hname;
    destruct (IsSuperPropertyReference obj); try discriminate Hload.
  - (* named *)
    apply bind_Ok in Hload. destruct Hload as ([] & h1 & Hk & Hload).
    destruct key as [ | | | | |value| | | | | | | | | | | | | | | | | | | | ];
      try discriminate Hname.
    destruct value as [ | | | | | |name| ]; try discriminate Hname.
    autounfold with builder_ops in Hk, Hload. monad_inv Hk. monad_inv Hload.
    exists object_code, [OpLoadLiteral (PropertyName name)].
    split; [ eexists _, _; split; [ exact Hobj' | exact Hcode ] | ].
    split; [ exists name; split; reflexivity | ].
    split.
    + unfold emitted, frontier, feedback_index, language_mode in *.
      simpl in *. rewrite Hcode.
      repeat first [ rewrite <- app_assoc | progress cbn [app] ]. reflexivity.
    + intros _ [Hin|[]]. discriminate Hin.
  - (* keyed *)
    apply bind_Ok in Hload. destruct Hload as ([] & h1 & Hk & Hload).
    pose proof Hk as Hk'.
    apply (expression_run _ _ _ (frontier g + 1)) in Hk;
      [ | unfold frontier in *; simpl in *; lia ].
    destruct Hk as (_ & _ & _ & key_code & Hkey & Hall).
    autounfold with builder_ops in Hload. monad_inv Hload.
    exists object_code, key_code.
    split; [ eexists _, _; split; [ exact Hobj' | exact Hcode ] | ].
    split; [ eexists _, _; split; [ exact Hk' | exact Hkey ] | ].
    split.
    + unfold emitted, frontier, feedback_index, language_mode in *.
      simpl in *. rewrite Hkey. simpl. rewrite Hcode.
      repeat first [ rewrite <- app_assoc | progress cbn [app] ]. reflexivity.
    + intros Hv. eapply expression_op_spares; [ exact Hall | lia | exact Hv ].
Qed.

Lemma VisitProperty_layout_witness :
  let g' := final (VisitExpression true (sample_info []) sample_property
                     nested_generator) in
  exists object_code key_code,
    emitted g'
    = emitted nested_generator
        ++ object_code
        ++ OpStoreAccumulatorInRegister (RegisterAt 2)
        :: key_code
        ++ [OpLoadNamedProperty (RegisterAt 2) 4 SLOPPY].
Proof.
  intros g'.
  assert (Hrun : VisitExpression true (sample_info []) sample_property
                   nested_generator = Ok tt g')
    by (vm_compute; reflexivity).
  destruct (VisitProperty_layout true (sample_info [])
              _ _ _ nested_generator g' Hrun)
    as (_ & object_code & key_code & _ & _ & Hcode & _).
  exists object_code, key_code. exact Hcode.
Defined.

(** ** Assignments that succeed *)

(** X8. A plain assignment to a variable that is lowered successfully is
    not compound; its code is the code of the value followed by a store
    into the register whose index is the index of the variable.  A debug
    build has checked that the variable is a local; a release build emits
    the same store whatever the location of the variable. *)
Theorem VisitAssignment_variable_layout DEBUG info is_compound variable value
    slot g g' :
  VisitExpression DEBUG info
    (Assignment is_compound (VariableProxy variable) value slot) g
  = Ok tt g' ->
  is_compound = false /\
  (DEBUG = true -> location variable = LOCAL) /\
  frontier g' = frontier g /\
  exists value_code,
    lowers (VisitExpression DEBUG info) value value_code /\
    emitted g'
    = emitted g
        ++ value_code
        ++ [OpStoreAccumulatorInRegister (RegisterAt (index variable))].
Proof.
  intros H. cbn [VisitExpression] in H. unfold VisitAssignment in H.
  cbn [IsValidReferenceExpression GetAssignType] in H.
  rewrite DCHECK_true in H.
  apply bind_Ok in H. destruct H as ([] & g1 & Hd & H).
  apply bind_Ok in H. destruct H as (scope & g2 & Hopen & H).
  apply bind_Ok in H. destruct H as (object_key & g3 & Hlhs & H).
  apply bind_Ok in H. destruct H as ([] & g4 & Hvalue & H).
  apply bind_Ok in H. destruct H as ([] & g5 & Hstore & H).
  monad_inv Hd. monad_inv Hopen. monad_inv Hlhs.
  destruct is_compound; [ discriminate Hvalue | ].
  split; [ reflexivity | ].
  apply bind_Ok in Hstore. destruct Hstore as ([] & g6 & Hcheck & Hstore).
  split.
  { intros ->. unfold DCHECK in Hcheck. simpl in Hcheck.
    destruct (location variable); try discriminate Hcheck. reflexivity. }
  assert (He6 : g6 = g4)
    by (unfold DCHECK in Hcheck;
        destruct (DEBUG && negb match location variable with
                                | LOCAL => true | _ => false end);
        monad_inv Hcheck; reflexivity).
  subst g6. pose proof Hvalue as Hvalue'.
  apply run_facts in Hvalue;
    [ | apply Steady_VisitExpression | apply Balanced_VisitExpression ].
  destruct Hvalue as (Hf & _ & value_code & Hcode).
  autounfold with builder_ops in Hstore, H. monad_inv Hstore. monad_inv H.
  split; [ reflexivity | ].
  exists value_code.
  split; [ eexists _, _; split; [ exact Hvalue' | exact Hcode ] | ].
  unfold emitted in *. simpl in *. rewrite Hcode, <- app_assoc. reflexivity.
Qed.

Lemma VisitAssignment_variable_layout_witness :
  let g' := final (VisitExpression true (sample_info [])
                     sample_variable_assignment nested_generator) in
  exists value_code,
    emitted g'
    = emitted nested_generator
        ++ value_code ++ [OpStoreAccumulatorInRegister (RegisterAt 1)].
Proof.
  intros g'.
  assert (Hrun : VisitExpression true (sample_info [])
                   sample_variable_assignment nested_generator = Ok tt g')
    by (vm_compute; reflexivity).
  destruct (VisitAssignment_variable_layout true (sample_info [])
              _ _ _ _ nested_generator g' Hrun)
    as (_ & _ & _ & value_code & _ & Hcode).
  exists value_code. exact Hcode.
Defined.

(** X9. A plain assignment to a property that is lowered successfully is
    not compound and keeps the object in the register at the frontier and
    the key in the next one.  Its code is the code of the object and its
    store, the code of the key and its store, the code of the value and the
    store to the property, named when the key is a property name and keyed
    otherwise, with the feedback index of the slot of the assignment.
    Neither the code of the key nor the code of the value stores into a
    register that holds the object or the key, unless it assigns the
    variable that lives there. *)
Theorem VisitAssignment_property_layout DEBUG info is_compound obj key
    property_slot value slot g g' :
  VisitExpression DEBUG info
    (Assignment is_compound (Property obj key property_slot) value slot) g
  = Ok tt g' ->
  let object := RegisterAt (frontier g) in
  let key_register := RegisterAt (frontier g + 1) in
  is_compound = false /\
  frontier g' = frontier g /\
  exists object_code key_code value_code,
    lowers (VisitExpression DEBUG info) obj object_code /\
    (if IsPropertyName key
     then exists name,
            key = Literal (PropertyName name) /\
            key_code = [OpLoadLiteral (PropertyName name)]
     else lowers (VisitExpression DEBUG info) key key_code) /\
    lowers (VisitExpression DEBUG info) value value_code /\
    emitted g'
    = emitted g
        ++ object_code
        ++ OpStoreAccumulatorInRegister object
        :: key_code
        ++ OpStoreAccumulatorInRegister key_register
        :: value_code
        ++ [if IsPropertyName key
            then OpStoreNamedProperty object key_register
                   (feedback_vector_GetIndex info slot)
                   (info_language_mode info)
            else OpStoreKeyedProperty object key_register
                   (feedback_vector_GetIndex info slot)
                   (info_language_mode info)] /\
    (forall i,
       frontier g <= i < frontier g + 2 ->
       (~ In i (assigned key) ->
        ~ In (OpStoreAccumulatorInRegister (RegisterAt i)) key_code) /\
       (~ In i (assigned value) ->
        ~ In (OpStoreAccumulatorInRegister (RegisterAt i)) value_code)).
Proof.
  intros H object key_register.
  cbn [VisitExpression] in H. unfold VisitAssignment in H.
  cbn [IsValidReferenceExpression] in H. rewrite DCHECK_true in H.
  apply bind_Ok in H. destruct H as ([] & g1 & Hd & H).
  apply bind_Ok in H. destruct H as (scope & g2 & Hopen & H).
  apply bind_Ok in H. destruct H as (object_key & g3 & Hlhs & H).
  apply bind_Ok in H. destruct H as ([] & g4 & Hvalue & H).
  apply bind_Ok in H. destruct H as ([] & g5 & Hstore & H).
  monad_inv Hd. monad_inv Hopen.
  destruct is_compound; [ discriminate Hvalue | ].
  split; [ reflexivity | ].
  assert (Hleft : object_key = Some (object, key_register) /\
                  frontier g3 = frontier g + 2 /\
                  (IsSuperPropertyReference obj = false) /\
                  exists object_code key_code,
                    lowers (VisitExpression DEBUG info) obj object_code /\
                    (if IsPropertyName key
                     then exists name,
                            key = Literal (PropertyName name) /\
                            key_code = [OpLoadLiteral (PropertyName name)]
                     else lowers (VisitExpression DEBUG info) key key_code) /\
                    emitted g3
                    = emitted g
                        ++ object_code
                        ++ OpStoreAccumulatorInRegister object
                        :: key_code
                        ++ [OpStoreAccumulatorInRegister key_register] /\
                    (forall i,
                       i < frontier g + 2 ->
                       ~ In i (assigned key) ->
                       ~ In (OpStoreAccumulatorInRegister (RegisterAt i))
                            key_code)).
  { unfold GetAssignType in Hlhs.
    destruct (IsPropertyName key) eqn:Hname;
      destruct (IsSuperPropertyReference obj); try discriminate Hlhs.
    - (* named *)
      apply bind_Ok in Hlhs. destruct Hlhs as (r1 & h1 & Hr1 & Hlhs).
      apply bind_Ok in Hlhs. destruct Hlhs as (r2 & h2 & Hr2 & Hlhs).
      apply bind_Ok in Hlhs. destruct Hlhs as ([] & h3 & Hobj & Hlhs).
      apply bind_Ok in Hlhs. destruct Hlhs as ([] & h4 & Hs1 & Hlhs).
      apply bind_Ok in Hlhs. destruct Hlhs as ([] & h5 & Hk & Hlhs).
      apply bind_Ok in Hlhs. destruct Hlhs as ([] & h6 & Hs2 & Hlhs).
      monad_inv Hr1. monad_inv Hr2. pose proof Hobj as Hobj'.
      apply run_facts in Hobj;
        [ | apply Steady_VisitExpression | apply Balanced_VisitExpression ].
      destruct Hobj as (Hf3 & _ & object_code & Hcode).
      destruct key as [ | | | | |v| | | | | | | | | | | | | | | | | | | | ];
        try discriminate Hname.
      destruct v as [ | | | | | |name| ]; try discriminate Hname.
      autounfold with builder_ops in Hs1, Hk, Hs2.
      monad_inv Hs1. monad_inv Hk. monad_inv Hs2. monad_inv Hlhs.
      unfold frontier, emitted in *. simpl in *.
      split; [ reflexivity | ]. split; [ lia | ]. split; [ reflexivity | ].
      exists object_code, [OpLoadLiteral (PropertyName name)].
      split; [ eexists _, _; split; [ exact Hobj' | exact Hcode ] | ].
      split; [ exists name; split; reflexivity | ].
      split.
      + rewrite Hcode.
        repeat first [ rewrite <- app_assoc | progress cbn [app] ].
        reflexivity.
      + intros i _ _ [Hin|[]]. discriminate Hin.
    - (* keyed *)
      apply bind_Ok in Hlhs. destruct Hlhs as (r1 & h1 & Hr1 & Hlhs).
      apply bind_Ok in Hlhs. destruct Hlhs as (r2 & h2 & Hr2 & Hlhs).
      apply bind_Ok in Hlhs. destruct Hlhs as ([] & h3 & Hobj & Hlhs).
      apply bind_Ok in Hlhs. destruct Hlhs as ([] & h4 & Hs1 & Hlhs).
      apply bind_Ok in Hlhs. destruct Hlhs as ([] & h5 & Hk & Hlhs).
      apply bind_Ok in Hlhs. destruct Hlhs as ([] & h6 & Hs2 & Hlhs).
      monad_inv Hr1. monad_inv Hr2. pose proof Hobj as Hobj'.
      apply run_facts in Hobj;
        [ | apply Steady_VisitExpression | apply Balanced_VisitExpression ].
      destruct Hobj as (Hf3 & _ & object_code & Hcode).
      autounfold with builder_ops in Hs1. monad_inv Hs1.
      pose proof Hk as Hk'.
      apply (expression_run _ _ _ (frontier g + 2)) in Hk;
        [ | unfold frontier in *; simpl in *; lia ].
      destruct Hk as (Hf5 & _ & _ & key_code & Hkey & Hall).
      autounfold with builder_ops in Hs2. monad_inv Hs2. monad_inv Hlhs.
      unfold frontier, emitted in *. simpl in *.
      split; [ reflexivity | ]. split; [ lia | ]. split; [ reflexivity | ].
      exists object_code, key_code.
      split; [ eexists _, _; split; [ exact Hobj' | exact Hcode ] | ].
      split; [ eexists _, _; split; [ exact Hk' | exact Hkey ] | ].
      split.
      + rewrite Hkey. simpl. rewrite Hcode.
        repeat first [ rewrite <- app_assoc | progress cbn [app] ].
        reflexivity.
      + intros i Hi Hv.
        eapply expression_op_spares; [ exact Hall | exact Hi | exact Hv ]. }
  destruct Hleft as (-> & Hf3 & Hsuper & object_code & key_code & Hobj & Hkey
                     & Hcode & Hspare).
  pose proof Hvalue as Hvalue'.
  apply (expression_run _ _ _ (frontier g + 2)) in Hvalue; [ | lia ].
  destruct Hvalue as (Hf4 & _ & _ & value_code & Hvcode & Hall).
  assert (Hlast : emitted g5
                  = emitted g4
                      ++ [if IsPropertyName key
                          then OpStoreNamedProperty object key_register
                                 (feedback_vector_GetIndex info slot)
                                 (info_language_mode info)
                          else OpStoreKeyedProperty object key_register
                                 (feedback_vector_GetIndex info slot)
                                 (info_language_mode info)]).
  { clear - Hstore Hsuper. unfold GetAssignType in Hstore.
    rewrite Hsuper in Hstore.
    destruct (IsPropertyName key); autounfold with builder_ops in Hstore;
      monad_inv Hstore; reflexivity. }
  autounfold with builder_ops in H. monad_inv H.
  split; [ reflexivity | ].
  exists object_code, key_code, value_code.
  split; [ exact Hobj | ]. split; [ exact Hkey | ].
  split; [ eexists _, _; split; [ exact Hvalue' | exact Hvcode ] | ].
  split.
  - unfold emitted in *. simpl in *. rewrite Hlast, Hvcode, Hcode.
    repeat first [ rewrite <- app_assoc | progress cbn [app] ]. reflexivity.
  - intros i Hi. split.
    + apply Hspare. lia.
    + intros Hv.
      eapply expression_op_spares; [ exact Hall | lia | exact Hv ].
Qed.

Lemma VisitAssignment_property_layout_witness :
  let g' := final (VisitExpression true (sample_info [])
                     sample_property_assignment nested_generator) in
  exists object_code key_code value_code,
    emitted g'
    = emitted nested_generator
        ++ object_code
        ++ OpStoreAccumulatorInRegister (RegisterAt 2)
        :: key_code
        ++ OpStoreAccumulatorInRegister (RegisterAt 3)
        :: value_code
        ++ [OpStoreNamedProperty (RegisterAt 2) (RegisterAt 3) 6 SLOPPY].
Proof.
  intros g'.
  assert (Hrun : VisitExpression true (sample_info [])
                   sample_property_assignment nested_generator = Ok tt g')
    by (vm_compute; reflexivity).
  destruct (VisitAssignment_property_layout true (sample_info [])
              _ _ _ _ _ _ nested_generator g' Hrun)
    as (_ & _ & object_code & key_code & value_code & _ & _ & _ & Hcode & _).
  exists object_code, key_code, value_code. exact Hcode.
Defined.

(** ** Literals *)

(** X10. Lowering a literal never fails: it emits exactly one instruction,
    and that instruction loads the value of the literal.  It is the load
    from the constant pool for a property name or another heap object only:
    a small integer, undefined, true, false, null and the hole are loaded
    by the instruction of their own. *)
Theorem VisitLiteral_loads_its_value DEBUG info value g :
  exists op,
    VisitExpression DEBUG info (Literal value) g = Emit op g /\
    loaded_value op = Some value /\
    uses_constant_pool op = negb (has_dedicated_load value).
Proof.
  cbn [VisitExpression].
  destruct value; eexists; (split; [ reflexivity | split; reflexivity ]).
Qed.

(** ** Declarations, blocks and the function body *)

Lemma VisitDeclaration_storable d g :
  VisitDeclaration d g
  = if storable d then Ok tt g else Abort Unimplemented g.
Proof.
  destruct d as [v| | |]; simpl; try reflexivity.
  unfold VisitVariableDeclaration. destruct (location v); reflexivity.
Qed.

Lemma VisitDeclarations_storable decls g :
  VisitDeclarations decls g
  = if forallb storable decls then Ok tt g else Abort Unimplemented g.
Proof.
  induction decls as [|d decls IH]; simpl.
  - reflexivity.
  - unfold bind. rewrite VisitDeclaration_storable.
    destruct (storable d); simpl; [ exact IH | reflexivity ].
Qed.

(** X11. Declarations emit nothing and leave the generator as it was: a
    list of declarations is accepted when each one is a variable that lives
    in a parameter or a stack slot, and otherwise the pass fails as
    unimplemented, in the state it was in. *)
Theorem declarations_need_no_code decls g :
  (forallb storable decls = true -> VisitDeclarations decls g = Ok tt g) /\
  (forallb storable decls = false ->
   VisitDeclarations decls g = Abort Unimplemented g).
Proof.
  rewrite VisitDeclarations_storable.
  split; intros ->; reflexivity.
Qed.

Lemma declarations_need_no_code_witness :
  VisitDeclarations (declarations sample_scope) nested_generator
  = Ok tt nested_generator.
Proof.
  apply (proj1 (declarations_need_no_code (declarations sample_scope)
                  nested_generator)).
  reflexivity.
Defined.

Lemma VisitStatements_layout DEBUG info statements :
  forall g g',
    VisitStatements (VisitStatement DEBUG info) statements g = Ok tt g' ->
    exists codes,
      Forall2 (lowers_statement DEBUG info) statements codes /\
      emitted g' = emitted g ++ List.concat codes.
Proof.
  induction statements as [|s statements IH]; intros g g' H.
  - simpl in H. monad_inv H.
    exists []. split; [ constructor | symmetry; apply app_nil_r ].
  - cbn [VisitStatements] in H.
    apply bind_Ok in H. destruct H as ([] & g1 & Hs & H).
    apply IH in H. destruct H as (codes & Hall & Hcodes).
    pose proof Hs as Hs'.
    apply run_facts in Hs;
      [ | apply Steady_VisitStatement | apply Balanced_VisitStatement ].
    destruct Hs as (_ & _ & code & Hcode).
    exists (code :: codes). split.
    + constructor; [ | exact Hall ].
      eexists _, _. split; [ exact Hs' | exact Hcode ].
    + rewrite Hcodes, Hcode. simpl. rewrite <- app_assoc. reflexivity.
Qed.

(** X12. A block that is lowered successfully has no context-allocated
    variable and only declarations of variables in parameters or stack
    slots; its code is an instruction that enters the block, the code of its
    statements in order, and an instruction that leaves the block. *)
Theorem VisitBlock_layout DEBUG info scope statements g g' :
  VisitStatement DEBUG info (Block scope statements) g = Ok tt g' ->
  match scope with
  | Some block_scope =>
      ContextLocalCount block_scope <= 0 /\
      forallb storable (declarations block_scope) = true
  | None => True
  end /\
  exists codes,
    Forall2 (lowers_statement DEBUG info) statements codes /\
    emitted g' = emitted g ++ OpEnterBlock :: List.concat codes ++ [OpLeaveBlock].
Proof.
  intros H. cbn [VisitStatement] in H. unfold VisitBlock in H.
  apply bind_Ok in H. destruct H as ([] & g1 & Henter & H).
  apply bind_Ok in H. destruct H as ([] & g2 & Hbody & H).
  autounfold with builder_ops in Henter, H. monad_inv Henter. monad_inv H.
  assert (Hin : match scope with
                | Some block_scope =>
                    ContextLocalCount block_scope <= 0 /\
                    forallb storable (declarations block_scope) = true
                | None => True
                end /\
                exists g0,
                  emitted g0 = emitted g ++ [OpEnterBlock] /\
                  VisitStatements (VisitStatement DEBUG info) statements g0
                  = Ok tt g2).
  { destruct scope as [block_scope|].
    - destruct (ContextLocalCount block_scope >? 0) eqn:Hc;
        [ discriminate Hbody | ].
      apply bind_Ok in Hbody. destruct Hbody as ([] & h1 & Hdecl & Hbody).
      rewrite VisitDeclarations_storable in Hdecl.
      destruct (forallb storable (declarations block_scope));
        [ | discriminate Hdecl ].
      monad_inv Hdecl.
      split; [ split; [ | reflexivity ] | ].
      + rewrite Z.gtb_ltb in Hc. apply Z.ltb_ge in Hc. exact Hc.
      + eexists. split; [ | exact Hbody ]. reflexivity.
    - split; [ exact I | ]. eexists. split; [ | exact Hbody ]. reflexivity. }
  destruct Hin as (Hscope & g0 & Hg0 & Hrun).
  split; [ exact Hscope | ].
  apply VisitStatements_layout in Hrun. destruct Hrun as (codes & Hall & Hc).
  exists codes. split; [ exact Hall | ].
  unfold emitted in *. simpl. rewrite Hc, Hg0, <- !app_assoc. reflexivity.
Qed.

Lemma VisitBlock_layout_witness :
  let g' := final (VisitStatement true (sample_info []) sample_blocks
                     nested_generator) in
  exists codes,
    emitted g'
    = emitted nested_generator ++ OpEnterBlock :: List.concat codes ++ [OpLeaveBlock].
Proof.
  intros g'.
  assert (Hrun : VisitStatement true (sample_info []) sample_blocks
                   nested_generator = Ok tt g')
    by (vm_compute; reflexivity).
  destruct (VisitBlock_layout true (sample_info [])
              _ _ nested_generator g' Hrun) as (_ & codes & _ & Hcode).
  exists codes. exact Hcode.
Defined.

(** ** Nesting of block brackets *)

Lemma block_depth_app code code' depth depth' :
  block_depth depth code = Some depth' ->
  block_depth depth (code ++ code') = block_depth depth' code'.
Proof.
  revert depth. induction code as [|op code IH]; intros depth H; simpl in *.
  - inversion H. reflexivity.
  - destruct op; try (apply IH; exact H).
    destruct (depth <=? 0); [ discriminate H | apply IH; exact H ].
Qed.

Lemma block_depth_straight_line code depth :
  Forall (fun op => is_control op = false) code ->
  block_depth depth code = Some depth.
Proof.
  induction 1 as [|op code Hop _ IH]; simpl.
  - reflexivity.
  - destruct op; try discriminate Hop; exact IH.
Qed.

Lemma Nests_quiet {A} (m : M A) :
  (forall g, emitted (final (m g)) = emitted g) -> Nests m.
Proof.
  intros H g. exists []. split.
  - rewrite H. symmetry. apply app_nil_r.
  - intros depth _. exists depth. split; [ reflexivity | ].
    destruct (m g); [ reflexivity | apply Z.le_refl ].
Qed.

Lemma Nests_ret {A} (a : A) : Nests (ret a).
Proof. apply Nests_quiet. reflexivity. Qed.

Lemma Nests_fail {A} f : Nests (@fail A f).
Proof. apply Nests_quiet. reflexivity. Qed.

Lemma Nests_NewLabel : Nests NewLabel.
Proof. apply Nests_quiet. reflexivity. Qed.

Lemma Nests_control_scope : Nests control_scope.
Proof. apply Nests_quiet. reflexivity. Qed.

Lemma Nests_set_control_scope chain : Nests (set_control_scope chain).
Proof. apply Nests_quiet. reflexivity. Qed.

Lemma Nests_Emit op :
  match op with OpEnterBlock | OpLeaveBlock => False | _ => True end ->
  Nests (Emit op).
Proof.
  intros Hop g. exists [op]. split; [ reflexivity | ].
  intros depth _. exists depth. split; [ | reflexivity ].
  destruct op; try contradiction; reflexivity.
Qed.

Lemma Nests_bind {A B} (m : M A) (k : A -> M B) :
  Nests m -> (forall a, Nests (k a)) -> Nests (bind m k).
Proof.
  intros Hm Hk g. unfold bind.
  destruct (Hm g) as (code & He & Hd).
  destruct (m g) as [a g1|f g1]; simpl in He.
  - destruct (Hk a g1) as (code' & He' & Hd').
    exists (code ++ code'). split.
    + rewrite He', He. symmetry. apply app_assoc.
    + intros depth Hdepth.
      destruct (Hd depth Hdepth) as (d1 & H1 & ->).
      destruct (Hd' depth Hdepth) as (d2 & H2 & Hout).
      exists d2. split; [ | exact Hout ].
      rewrite (block_depth_app _ _ _ _ H1). exact H2.
  - exists code. split; [ exact He | exact Hd ].
Qed.

Lemma Nests_VisitExpression DEBUG info e :
  Nests (VisitExpression DEBUG info e).
Proof.
  intros g.
  destruct (VisitExpression_only DEBUG info e g)
    as (_ & _ & code & Hcode & Hall).
  exists code. split; [ exact Hcode | ].
  intros depth _. exists depth. split.
  - apply block_depth_straight_line.
    eapply Forall_impl; [ | exact Hall ]. intros op [Hop _]. exact Hop.
  - destruct (VisitExpression DEBUG info e g);
      [ reflexivity | apply Z.le_refl ].
Qed.

Lemma Nests_VisitDeclarations decls : Nests (VisitDeclarations decls).
Proof.
  apply Nests_quiet. intros g. rewrite VisitDeclarations_storable.
  destruct (forallb storable decls); reflexivity.
Qed.

(** Between the two brackets of a block. *)
Lemma Nests_brackets (body : M unit) :
  Nests body -> Nests (EnterBlock ;; body ;; LeaveBlock).
Proof.
  intros Hbody g. unfold bind, EnterBlock, LeaveBlock.
  cbn [Emit]. set (g1 := with_builder g _).
  destruct (Hbody g1) as (code & He & Hd).
  destruct (body g1) as [[] g2|f g2]; simpl in He.
  - exists (OpEnterBlock :: code ++ [OpLeaveBlock]). split.
    + unfold emitted in *. simpl. rewrite He. simpl.
      rewrite <- !app_assoc. reflexivity.
    + intros depth Hdepth. exists depth. split; [ | reflexivity ].
      destruct (Hd (depth + 1)) as (d1 & H1 & ->); [ lia | ].
      simpl. rewrite (block_depth_app _ _ _ _ H1). simpl.
      destruct (depth + 1 <=? 0) eqn:Hle;
        [ apply Z.leb_le in Hle; lia | f_equal; lia ].
  - exists (OpEnterBlock :: code). split.
    + unfold emitted in *. simpl. rewrite He. simpl.
      rewrite <- !app_assoc. reflexivity.
    + intros depth Hdepth.
      destruct (Hd (depth + 1)) as (d1 & H1 & Hout); [ lia | ].
      exists d1. split; [ exact H1 | lia ].
Qed.

Ltac nests_step :=
  lazymatch goal with
  | |- Nests (bind _ _) => apply Nests_bind; [ | intros ? ]
  | |- Nests (match ?x with _ => _ end) => destruct x
  | |- Nests (ret _) => apply Nests_ret
  | |- Nests (fail _) => apply Nests_fail
  | |- Nests (Emit _) => apply Nests_Emit; exact I
  | |- Nests NewLabel => apply Nests_NewLabel
  | |- Nests control_scope => apply Nests_control_scope
  | |- Nests (set_control_scope _) => apply Nests_set_control_scope
  | |- Nests (VisitExpression _ _ _) => apply Nests_VisitExpression
  | |- Nests (VisitDeclarations _) => apply Nests_VisitDeclarations
  | |- Nests _ => assumption
  end.

Ltac nests := autounfold with builder_ops; cbv zeta; repeat nests_step.

Lemma Nests_VisitStatements (Visit : Statement -> M unit) statements :
  (forall s, In s statements -> Nests (Visit s)) ->
  Nests (VisitStatements Visit statements).
Proof.
  induction statements as [|s statements IH]; intros Hs; simpl.
  - nests.
  - apply Nests_bind.
    + apply Hs. left. reflexivity.
    + intros _. apply IH. intros s' Hs'. apply Hs. right. exact Hs'.
Qed.

Lemma Nests_PerformCommand command statement outer :
  forall current, Nests (PerformCommand current outer command statement).
Proof.
  induction outer as [|next outer IH]; intros current; simpl;
    unfold Execute; nests; apply IH.
Qed.

Lemma Nests_VisitStatement DEBUG info s : Nests (VisitStatement DEBUG info s).
Proof.
  induction s as [s IH] using Statement_size_induction.
  destruct s; cbn [VisitStatement];
    try solve [ unfold VisitExpressionStatement, VisitEmptyStatement,
                  VisitReturnStatement; nests
              | unfold VisitContinueStatement, VisitBreakStatement,
                  ControlScope_Continue, ControlScope_Break; nests;
                apply Nests_PerformCommand ].
  - (* Block *)
    unfold VisitBlock.
    assert (Nests (VisitStatements (VisitStatement DEBUG info) statements)).
    { apply Nests_VisitStatements. intros s Hs. apply IH. smaller. }
    apply Nests_brackets. nests.
  - (* SloppyBlockFunctionStatement *)
    unfold VisitSloppyBlockFunctionStatement. apply IH. smaller.
  - (* IfStatement *)
    unfold VisitIfStatement. nests; apply IH; smaller.
  - (* DoWhileStatement *)
    unfold VisitDoWhileStatement. nests; apply IH; smaller.
  - (* WhileStatement *)
    unfold VisitWhileStatement. nests; apply IH; smaller.
  - (* ForStatement *)
    unfold VisitForStatement. nests; apply IH; smaller.
Qed.

(** X13. In the code of a statement the block brackets nest: entered at any
    depth, the code never leaves a block that it did not enter.  A statement
    that is lowered successfully has left every block it entered; one that
    fails may have entered blocks that it did not leave. *)
Theorem block_brackets_nest DEBUG info s g :
  exists code,
    emitted (final (VisitStatement DEBUG info s g)) = emitted g ++ code /\
    forall depth,
      0 <= depth ->
      exists depth',
        block_depth depth code = Some depth' /\
        match VisitStatement DEBUG info s g with
        | Ok _ _ => depth' = depth
        | Abort _ _ => depth <= depth'
        end.
Proof. exact (Nests_VisitStatement DEBUG info s g). Qed.

(** ** The program of a function *)

(** X14. A pass that returns a program ran on a scope whose declarations,
    and function-name variable if it has one, are variables in parameters or
    stack slots, and in a debug build on a function scope.  Nothing is
    emitted before the body: the instructions of the program are what the
    generator had emitted before, followed by the code of the statements of
    the body in order. *)
Theorem MakeBytecode_program DEBUG info g program g' :
  MakeBytecode DEBUG info g = Ok program g' ->
  (DEBUG = true -> is_function_scope (scope info) = true) /\
  forallb storable (declarations (scope info)) = true /\
  (forall variable,
     function (scope info) = Some variable ->
     is_function_scope (scope info) = true ->
     storable (VariableDeclaration variable) = true) /\
  exists codes,
    Forall2 (lowers_statement DEBUG info) (literal_body info) codes /\
    array_bytecodes program = emitted g ++ List.concat codes.
Proof.
  intros H. unfold MakeBytecode in H. cbv zeta in H.
  apply bind_Ok in H. destruct H as ([] & g1 & Hcheck & H).
  apply bind_Ok in H. destruct H as ([] & g2 & Hp & H).
  apply bind_Ok in H. destruct H as ([] & g3 & Hl & H).
  apply bind_Ok in H. destruct H as ([] & g4 & Hname & H).
  apply bind_Ok in H. destruct H as ([] & g5 & Hdecl & H).
  apply bind_Ok in H. destruct H as ([] & g6 & Hbody & H).
  split.
  { intros ->. unfold DCHECK in Hcheck. simpl in Hcheck.
    destruct (is_function_scope (scope info)); [ reflexivity | ].
    discriminate Hcheck. }
  assert (Hg1 : g1 = g)
    by (unfold DCHECK in Hcheck;
        destruct (DEBUG && negb (is_function_scope (scope info)));
        monad_inv Hcheck; reflexivity).
  subst g1. monad_inv Hp. monad_inv Hl.
  rewrite VisitDeclarations_storable in Hdecl.
  destruct (forallb storable (declarations (scope info)));
    [ | discriminate Hdecl ].
  monad_inv Hdecl. split; [ reflexivity | ].
  assert (Hfn : (forall variable,
                   function (scope info) = Some variable ->
                   is_function_scope (scope info) = true ->
                   storable (VariableDeclaration variable) = true) /\
                emitted g4 = emitted g).
  { destruct (function (scope info)) as [v|].
    - destruct (is_function_scope (scope info)).
      + change (VisitVariableDeclaration v)
          with (VisitDeclaration (VariableDeclaration v)) in Hname.
        rewrite VisitDeclaration_storable in Hname.
        destruct (storable (VariableDeclaration v)) eqn:Hv;
          [ | discriminate Hname ].
        monad_inv Hname. split; [ | reflexivity ].
        intros variable Hsome _. inversion Hsome. subst. exact Hv.
      + monad_inv Hname. split; [ | reflexivity ].
        intros variable _ Hf. discriminate Hf.
    - monad_inv Hname. split; [ | reflexivity ].
      intros variable Hsome. discriminate Hsome. }
  destruct Hfn as (Hfn & He4). split; [ exact Hfn | ].
  apply VisitStatements_layout in Hbody.
  destruct Hbody as (codes & Hall & Hcodes).
  exists codes. split; [ exact Hall | ].
  unfold ToBytecodeArray in H. inversion H. subst. simpl.
  unfold emitted in *. rewrite Hcodes, He4. reflexivity.
Qed.

Lemma MakeBytecode_program_witness :
  let o := MakeBytecode true (sample_info [counted_loop; sample_if])
             (BytecodeGenerator_new 0) in
  exists program codes,
    program_of o = Some program /\
    array_bytecodes program = List.concat codes.
Proof.
  intros o.
  destruct o as [program g'|f g'] eqn:Hrun; [ | vm_compute in Hrun; discriminate Hrun ].
  destruct (MakeBytecode_program true _ _ program g' Hrun)
    as (_ & _ & _ & codes & _ & Hcode).
  exists program, codes. split; [ reflexivity | exact Hcode ].
Defined.

(** ** Scopes that a visit opens *)

(** X15. A statement that is lowered successfully has closed every scope it
    opened: the chain of control scopes and the frontier of the temporary
    registers are back where they were, so the next statement reuses the
    same temporaries. *)
Theorem successful_statement_closes_its_scopes DEBUG info s g g' :
  VisitStatement DEBUG info s g = Ok tt g' ->
  control_scope_ g' = control_scope_ g /\ frontier g' = frontier g.
Proof.
  intros H. destruct (Balanced_VisitStatement DEBUG info s g tt g' H)
    as [Hf Hc].
  split; [ exact Hc | exact Hf ].
Qed.

Lemma successful_statement_closes_its_scopes_witness :
  let g' := final (VisitStatement true (sample_info []) counted_loop
                     nested_generator) in
  control_scope_ g' = control_scope_ nested_generator /\
  frontier g' = frontier nested_generator.
Proof.
  intros g'.
  assert (Hrun : VisitStatement true (sample_info []) counted_loop
                   nested_generator = Ok tt g')
    by (vm_compute; reflexivity).
  exact (successful_statement_closes_its_scopes true (sample_info [])
           _ nested_generator g' Hrun).
Defined.

(** ** The discipline of labels *)

Lemma times_bound_app l code code' :
  times_bound l (code ++ code') = times_bound l code + times_bound l code'.
Proof.
  induction code as [|op code IH]; simpl; [ reflexivity | ].
  rewrite IH. lia.
Qed.

Lemma referenced_app code code' :
  referenced (code ++ code') = referenced code ++ referenced code'.
Proof. apply flat_map_app. Qed.

Lemma straight_line_labels code :
  Forall (fun op => is_control op = false) code ->
  referenced code = [] /\ forall l, times_bound l code = 0.
Proof.
  induction 1 as [|op code Hop _ [IHr IHt]]; simpl.
  - split; reflexivity.
  - split.
    + rewrite IHr. destruct op; try discriminate Hop; reflexivity.
    + intros l. rewrite IHt. destruct op; try discriminate Hop; reflexivity.
Qed.

Lemma disciplined_refl g : disciplined g g.
Proof.
  split; [ reflexivity | split; [ lia | ] ].
  exists []. split; [ symmetry; apply app_nil_r | ]. split.
  - intros l. simpl. split; [ lia | intros H; contradiction H; reflexivity ].
  - intros l [].
Qed.

Lemma disciplined_trans g1 g2 g3 :
  disciplined g1 g2 -> disciplined g2 g3 -> disciplined g1 g3.
Proof.
  intros (Hc & Hn & code & He & Hcount & Href)
         (Hc' & Hn' & code' & He' & Hcount' & Href').
  split; [ congruence | split; [ lia | ] ].
  exists (code ++ code'). split; [ | split ].
  - rewrite He', He. symmetry. apply app_assoc.
  - intros l. rewrite times_bound_app.
    specialize (Hcount l). specialize (Hcount' l). lia.
  - intros l Hl. rewrite referenced_app in Hl. rewrite times_bound_app.
    pose proof (Hcount l). pose proof (Hcount' l).
    apply in_app_or in Hl. destruct Hl as [Hl|Hl].
    + destruct (Href l Hl) as [H1|H1]; [ left; lia | right; exact H1 ].
    + destruct (Href' l Hl) as [H1|H1]; [ left; lia | ].
      right. rewrite <- Hc. exact H1.
Qed.

(** The code of an expression has no label. *)
Lemma disciplined_expression DEBUG info e g g' :
  VisitExpression DEBUG info e g = Ok tt g' -> disciplined g g'.
Proof.
  intros H.
  pose proof (VisitExpression_only DEBUG info e g) as Ho. rewrite H in Ho.
  destruct Ho as (Hc & Hn & code & Hcode & Hall).
  assert (Hs : Forall (fun op => is_control op = false) code)
    by (eapply Forall_impl; [ | exact Hall ]; intros op [Hop _]; exact Hop).
  destruct (straight_line_labels code Hs) as [Hr Ht].
  split; [ exact Hc | split; [ simpl in Hn; lia | ] ].
  exists code. split; [ exact Hcode | ]. split.
  - intros l. rewrite Ht. split; [ lia | intros E; contradiction E; reflexivity ].
  - intros l Hl. rewrite Hr in Hl. destruct Hl.
Qed.

Lemma handler_In target chain found :
  handler target chain = Some found -> In found chain.
Proof. intros H. apply find_some in H. destruct H as [H _]. exact H. Qed.

Lemma chain_labels_In found chain :
  In found chain ->
  In (break_target (loop_builder_ found)) (chain_labels chain) /\
  In (continue_target (loop_builder_ found)) (chain_labels chain).
Proof.
  intros H. unfold chain_labels. split; apply in_flat_map; exists found;
    (split; [ exact H | simpl; auto ]).
Qed.

(** A jump to a label of the chain. *)
Lemma disciplined_jump l g :
  In l (chain_labels (control_scope_ g)) ->
  disciplined g (final (Emit (OpJump l) g)).
Proof.
  intros Hl. split; [ reflexivity | split; [ simpl; lia | ] ].
  exists [OpJump l]. split; [ reflexivity | ]. split.
  - intros l'. simpl. split; [ lia | intros E; contradiction E; reflexivity ].
  - intros l' [<-|[]]. right. exact Hl.
Qed.

Lemma disciplined_PerformCommand command target g g' :
  match control_scope_ g with
  | head :: outer => PerformCommand head outer command target
  | [] => fail NullDereference
  end g = Ok tt g' ->
  disciplined g g'.
Proof.
  intros H. destruct (control_scope_ g) as [|head outer] eqn:Hchain;
    [ discriminate H | ].
  rewrite PerformCommand_handler in H.
  destruct (handler target (head :: outer)) as [found|] eqn:Hh;
    [ | discriminate H ].
  apply handler_In in Hh. rewrite <- Hchain in Hh.
  destruct (chain_labels_In _ _ Hh) as [Hb Hc].
  destruct command; unfold Jump in H.
  - pose proof (disciplined_jump _ g Hb) as Hd.
    rewrite H in Hd. exact Hd.
  - pose proof (disciplined_jump _ g Hc) as Hd.
    rewrite H in Hd. exact Hd.
Qed.

(** One op that neither binds nor refers to a label. *)
Lemma disciplined_plain op g :
  targets op = [] ->
  (forall l, times_bound l [op] = 0) ->
  disciplined g (final (Emit op g)).
Proof.
  intros Ht Hb. split; [ reflexivity | split; [ simpl; lia | ] ].
  exists [op]. split; [ reflexivity | ]. split.
  - intros l. rewrite Hb. split; [ lia | intros E; contradiction E; reflexivity ].
  - intros l Hl. unfold referenced in Hl. simpl in Hl. rewrite Ht in Hl.
    destruct Hl.
Qed.

Lemma disciplined_VisitStatements DEBUG info statements :
  (forall s, In s statements ->
     forall g g', VisitStatement DEBUG info s g = Ok tt g' -> disciplined g g') ->
  forall g g',
    VisitStatements (VisitStatement DEBUG info) statements g = Ok tt g' ->
    disciplined g g'.
Proof.
  induction statements as [|s statements IH]; intros Hs g g' H.
  - simpl in H. monad_inv H. apply disciplined_refl.
  - cbn [VisitStatements] in H.
    apply bind_Ok in H. destruct H as ([] & g1 & H1 & H).
    eapply disciplined_trans.
    + apply (Hs s (or_introl eq_refl)). exact H1.
    + apply IH; [ | exact H ]. intros s' Hs'. apply Hs. right. exact Hs'.
Qed.

(** The facts of the runs of the children, taken from the hypotheses. *)
Ltac child_discipline IH :=
  repeat match goal with u : unit |- _ => destruct u end;
  repeat match goal with
         | H : VisitExpression _ _ _ ?g = Ok tt ?g' |- _ =>
             apply disciplined_expression in H
         | H : VisitStatement _ _ ?c ?g = Ok tt ?g' |- _ =>
             apply IH in H; [ | smaller ]
         end;
  repeat match goal with
         | H : disciplined _ _ |- _ =>
             let Hc := fresh "Hc" in
             let Hn := fresh "Hn" in
             let code := fresh "code" in
             let He := fresh "He" in
             let Hcount := fresh "Hcount" in
             let Href := fresh "Href" in
             destruct H as (Hc & Hn & code & He & Hcount & Href)
         end;
  unfold emitted in *; simpl in *;
  repeat match goal with
         | H : control_scope_ ?x = _ |- _ =>
             is_var x; rewrite H in *; clear H
         end.

Ltac emitted_so_far :=
  unfold emitted; simpl;
  repeat match goal with
         | H : bytecodes (builder_ ?x) = _
           |- context [bytecodes (builder_ ?x)] => rewrite H
         end;
  repeat rewrite <- app_assoc; cbn [app]; reflexivity.

Ltac count_labels z :=
  repeat first [ rewrite times_bound_app
               | progress cbn [times_bound label_identity next_label] ];
  repeat match goal with
         | H : forall l, 0 <= times_bound l _ <= 1 /\ _ |- _ =>
             let F := fresh "F" in
             pose proof (H (Label z)) as F; cbn [label_identity] in F;
             revert H
         end;
  intros;
  repeat match goal with
         | |- context [?a =? ?b] => destruct (Z.eqb_spec a b)
         end;
  lia.

Ltac refer_labels z Hl :=
  lazymatch type of Hl with
  | _ \/ _ => destruct Hl as [Hl|Hl]; [ refer_labels z Hl | refer_labels z Hl ]
  | False => destruct Hl
  | In _ (_ ++ _) => apply in_app_or in Hl; refer_labels z Hl
  | In _ (_ :: _) => destruct Hl as [Hl|Hl]; [ refer_labels z Hl | refer_labels z Hl ]
  | In _ [] => destruct Hl
  | Label _ = Label z => injection Hl as Hl; left; count_labels z
  | In (Label z) (flat_map targets ?c) =>
      match goal with
      | Href : forall l, In l (flat_map targets c) -> _ |- _ =>
          apply Href in Hl
      end;
      destruct Hl as [Hl|Hl];
      [ left; count_labels z
      | simpl in Hl; refer_labels z Hl ]
  | In (Label z) (flat_map _ (control_scope_ _)) => right; exact Hl
  end.

Ltac label_discipline IH :=
  child_discipline IH;
  (split; [ reflexivity | split; [ simpl; lia | ] ]);
  eexists; (split; [ emitted_so_far | ]);
  unfold referenced, chain_labels in *;
  split;
  [ intros [z]; count_labels z
  | let Hl := fresh "Hl" in
    intros [z] Hl;
    repeat first [ rewrite flat_map_app in Hl
                 | progress cbn [flat_map targets app] in Hl ];
    rewrite ?in_app_iff in Hl; simpl in Hl;
    refer_labels z Hl ].

Lemma disciplined_VisitStatement DEBUG info s :
  forall g g', VisitStatement DEBUG info s g = Ok tt g' -> disciplined g g'.
Proof.
  induction s as [s IH] using Statement_size_induction. intros g g' H.
  destruct s; cbn [VisitStatement] in H; try discriminate H.
  - (* Block *)
    unfold VisitBlock in H.
    apply bind_Ok in H. destruct H as ([] & g1 & Henter & H).
    apply bind_Ok in H. destruct H as ([] & g2 & Hbody & H).
    autounfold with builder_ops in Henter, H. monad_inv Henter. monad_inv H.
    eapply disciplined_trans;
      [ apply (disciplined_plain OpEnterBlock); reflexivity | ].
    eapply disciplined_trans;
      [ | apply (disciplined_plain OpLeaveBlock); reflexivity ].
    assert (Hrun : exists g0,
               g0 = final (Emit OpEnterBlock g) /\
               VisitStatements (VisitStatement DEBUG info) statements g0
               = Ok tt g2).
    { match type of Hbody with
      | context [match ?x with Some _ => _ | None => _ end] =>
          destruct x as [block_scope|]
      end.
      - destruct (ContextLocalCount block_scope >? 0); [ discriminate Hbody | ].
        apply bind_Ok in Hbody. destruct Hbody as ([] & h1 & Hdecl & Hbody).
        rewrite VisitDeclarations_storable in Hdecl.
        destruct (forallb storable (declarations block_scope));
          [ | discriminate Hdecl ].
        monad_inv Hdecl. eexists. split; [ reflexivity | exact Hbody ].
      - eexists. split; [ reflexivity | exact Hbody ]. }
    destruct Hrun as (g0 & -> & Hrun).
    eapply disciplined_VisitStatements; [ | exact Hrun ].
    intros c Hc. apply IH. smaller.
  - (* ExpressionStatement *)
    eapply disciplined_expression. exact H.
  - (* EmptyStatement *)
    unfold VisitEmptyStatement in H. monad_inv H. apply disciplined_refl.
  - (* SloppyBlockFunctionStatement *)
    apply IH in H; [ exact H | smaller ].
  - (* IfStatement *)
    unfold VisitIfStatement in H. monad_inv H; label_discipline IH.
  - (* ContinueStatement *)
    eapply disciplined_PerformCommand. exact H.
  - (* BreakStatement *)
    eapply disciplined_PerformCommand. exact H.
  - (* ReturnStatement *)
    unfold VisitReturnStatement in H.
    apply bind_Ok in H. destruct H as ([] & g1 & He & H).
    eapply disciplined_trans; [ eapply disciplined_expression; exact He | ].
    autounfold with builder_ops in H. monad_inv H.
    apply (disciplined_plain OpReturn); reflexivity.
  - (* DoWhileStatement *)
    unfold VisitDoWhileStatement in H. monad_inv H; label_discipline IH.
  - (* WhileStatement *)
    unfold VisitWhileStatement in H. monad_inv H; label_discipline IH.
  - (* ForStatement *)
    unfold VisitForStatement in H. monad_inv H; label_discipline IH.
Qed.

(** X16. The code of a statement that is lowered successfully binds no
    label twice, and binds only labels that were created during its
    lowering. *)
Theorem labels_bound_at_most_once DEBUG info s g g' :
  VisitStatement DEBUG info s g = Ok tt g' ->
  exists code,
    emitted g' = emitted g ++ code /\
    forall l,
      times_bound l code <= 1 /\
      (times_bound l code <> 0 ->
       next_label g <= label_identity l < next_label g').
Proof.
  intros H. apply disciplined_VisitStatement in H.
  destruct H as (_ & _ & code & Hcode & Hcount & _).
  exists code. split; [ exact Hcode | ].
  intros l. destruct (Hcount l) as [[_ Hle] Hfresh]. split; assumption.
Qed.

Lemma labels_bound_at_most_once_witness :
  let g' := final (VisitStatement true (sample_info []) counted_loop
                     nested_generator) in
  exists code,
    emitted g' = emitted nested_generator ++ code /\
    forall l, times_bound l code <= 1.
Proof.
  intros g'.
  assert (Hrun : VisitStatement true (sample_info []) counted_loop
                   nested_generator = Ok tt g')
    by (vm_compute; reflexivity).
  destruct (labels_bound_at_most_once true (sample_info [])
              _ nested_generator g' Hrun) as (code & Hcode & Hcount).
  exists code. split; [ exact Hcode | ].
  intros l. destruct (Hcount l) as [Hle _]. exact Hle.
Defined.

(** X17. In the code of a statement that is lowered successfully, every
    label that a jump aims at, and every label whose place a loop label
    takes, is bound in that code, once, or is the break or continue label
    of a loop of the chain of control scopes that the lowering began
    with. *)
Theorem jump_targets_are_bound DEBUG info s g g' :
  VisitStatement DEBUG info s g = Ok tt g' ->
  exists code,
    emitted g' = emitted g ++ code /\
    forall l,
      In l (referenced code) ->
      times_bound l code = 1 \/ In l (chain_labels (control_scope_ g)).
Proof.
  intros H. apply disciplined_VisitStatement in H.
  destruct H as (_ & _ & code & Hcode & Hcount & Href).
  exists code. split; [ exact Hcode | ].
  intros l Hl. destruct (Href l Hl) as [H1|H1]; [ left | right; exact H1 ].
  destruct (Hcount l) as [[_ Hle] _]. lia.
Qed.

Lemma jump_targets_are_bound_witness :
  let g' := final (VisitStatement true (sample_info []) counted_loop
                     nested_generator) in
  exists code,
    emitted g' = emitted nested_generator ++ code /\
    forall l,
      In l (referenced code) ->
      times_bound l code = 1 \/
      In l (chain_labels (control_scope_ nested_generator)).
Proof.
  intros g'.
  assert (Hrun : VisitStatement true (sample_info []) counted_loop
                   nested_generator = Ok tt g')
    by (vm_compute; reflexivity).
  exact (jump_targets_are_bound true (sample_info [])
           _ nested_generator g' Hrun).
Defined.

Lemma MakeBytecode_body DEBUG info g program g' :
  MakeBytecode DEBUG info g = Ok program g' ->
  exists g0,
    emitted g0 = emitted g /\
    control_scope_ g0 = control_scope_ g /\
    next_label g0 = next_label g /\
    VisitStatements (VisitStatement DEBUG info) (literal_body info) g0
    = Ok tt g' /\
    array_bytecodes program = emitted g'.
Proof.
  intros H. unfold MakeBytecode in H. cbv zeta in H.
  apply bind_Ok in H. destruct H as ([] & g1 & Hcheck & H).
  apply bind_Ok in H. destruct H as ([] & g2 & Hp & H).
  apply bind_Ok in H. destruct H as ([] & g3 & Hl & H).
  apply bind_Ok in H. destruct H as ([] & g4 & Hname & H).
  apply bind_Ok in H. destruct H as ([] & g5 & Hdecl & H).
  apply bind_Ok in H. destruct H as ([] & g6 & Hbody & H).
  assert (Hg1 : g1 = g)
    by (unfold DCHECK in Hcheck;
        destruct (DEBUG && negb (is_function_scope (scope info)));
        monad_inv Hcheck; reflexivity).
  subst g1. monad_inv Hp. monad_inv Hl.
  rewrite VisitDeclarations_storable in Hdecl.
  destruct (forallb storable (declarations (scope info)));
    [ | discriminate Hdecl ].
  monad_inv Hdecl.
  assert (Hg4 : emitted g4 = emitted g /\
                control_scope_ g4 = control_scope_ g /\
                next_label g4 = next_label g).
  { destruct (function (scope info)) as [v|];
      [ destruct (is_function_scope (scope info)) | ].
    - change (VisitVariableDeclaration v)
        with (VisitDeclaration (VariableDeclaration v)) in Hname.
      rewrite VisitDeclaration_storable in Hname.
      destruct (storable (VariableDeclaration v)); [ | discriminate Hname ].
      monad_inv Hname. repeat split.
    - monad_inv Hname. repeat split.
    - monad_inv Hname. repeat split. }
  destruct Hg4 as (He4 & Hc4 & Hn4).
  unfold ToBytecodeArray in H. inversion H. subst. simpl.
  exists g4. repeat split; assumption.
Qed.

(** X18. In a program that a pass returns for a new generator, no label is
    bound twice, and every label that a jump aims at is bound, once. *)
Theorem MakeBytecode_labels_resolved DEBUG info first_label program g' :
  MakeBytecode DEBUG info (BytecodeGenerator_new first_label)
  = Ok program g' ->
  (forall l, times_bound l (array_bytecodes program) <= 1) /\
  (forall l,
     In l (referenced (array_bytecodes program)) ->
     times_bound l (array_bytecodes program) = 1).
Proof.
  intros H. apply MakeBytecode_body in H.
  destruct H as (g0 & He0 & Hc0 & _ & Hrun & ->).
  apply disciplined_VisitStatements in Hrun;
    [ | intros s _; apply disciplined_VisitStatement ].
  destruct Hrun as (_ & _ & code & Hcode & Hcount & Href).
  rewrite Hcode, He0. simpl. split.
  - intros l. destruct (Hcount l) as [[_ Hle] _]. exact Hle.
  - intros l Hl. destruct (Href l Hl) as [H1|H1].
    + destruct (Hcount l) as [[_ Hle] _]. lia.
    + rewrite Hc0 in H1. destruct H1.
Qed.

Lemma MakeBytecode_labels_resolved_witness :
  let o := MakeBytecode true (sample_info [counted_loop; sample_if])
             (BytecodeGenerator_new 0) in
  exists program,
    program_of o = Some program /\
    forall l,
      In l (referenced (array_bytecodes program)) ->
      times_bound l (array_bytecodes program) = 1.
Proof.
  intros o.
  destruct o as [program g'|f g'] eqn:Hrun;
    [ | vm_compute in Hrun; discriminate Hrun ].
  destruct (MakeBytecode_labels_resolved true _ 0 program g' Hrun)
    as (_ & Href).
  exists program. split; [ reflexivity | exact Href ].
Defined.

(** ** Debug and release builds *)

Lemma Refines_refl {A} (m : M A) : Refines m m.
Proof. intros g a g' H. exact H. Qed.

Lemma Refines_bind {A B} (m m' : M A) (k k' : A -> M B) :
  Refines m m' -> (forall a, Refines (k a) (k' a)) ->
  Refines (bind m k) (bind m' k').
Proof.
  intros Hm Hk g b g' H. apply bind_Ok in H.
  destruct H as (a & g1 & H1 & H2).
  rewrite (bind_eq _ _ _ _ _ (Hm _ _ _ H1)). apply Hk. exact H2.
Qed.

Lemma Refines_DCHECK DEBUG c : Refines (DCHECK DEBUG c) (DCHECK false c).
Proof.
  intros g a g' H. unfold DCHECK in *. simpl.
  destruct (DEBUG && negb c); [ discriminate H | exact H ].
Qed.

Ltac refines_step :=
  lazymatch goal with
  | |- Refines ?m ?m => apply Refines_refl
  | |- Refines (bind _ _) (bind _ _) => apply Refines_bind; [ | intros ? ]
  | |- Refines (match ?x with _ => _ end) _ => destruct x
  | |- Refines (DCHECK _ _) (DCHECK _ _) => apply Refines_DCHECK
  | |- Refines _ _ => first [ assumption | solve [ auto ] ]
  end.

Ltac refines := autounfold with builder_ops; cbv zeta; repeat refines_step.

Section RefinesRules.

Variable DEBUG : bool.
Variable info : CompilationInfo.

Lemma Refines_VisitVariableLoad v :
  Refines (VisitVariableLoad DEBUG v) (VisitVariableLoad false v).
Proof. unfold VisitVariableLoad. refines. Qed.

Lemma Refines_VisitPropertyLoad (Visit Visit' : Expression -> M unit) object
    obj key slot :
  Refines (Visit key) (Visit' key) ->
  Refines (VisitPropertyLoad info Visit object obj key slot)
          (VisitPropertyLoad info Visit' object obj key slot).
Proof. intros Hk. unfold VisitPropertyLoad. refines. Qed.

Lemma Refines_VisitCallArguments (Visit Visit' : Expression -> M unit) scope
    receiver args :
  (forall a, In a args -> Refines (Visit a) (Visit' a)) ->
  forall i,
    Refines (VisitCallArguments DEBUG Visit scope receiver i args)
            (VisitCallArguments false Visit' scope receiver i args).
Proof.
  induction args as [|a args IH]; intros Ha i; simpl.
  - refines.
  - assert (Refines (Visit a) (Visit' a)) by (apply Ha; left; reflexivity).
    assert (forall j,
      Refines (VisitCallArguments DEBUG Visit scope receiver j args)
              (VisitCallArguments false Visit' scope receiver j args))
      by (intros j; apply IH; intros b Hb; apply Ha; right; exact Hb).
    refines.
Qed.

Lemma Refines_VisitCallRuntimeArguments (Visit Visit' : Expression -> M unit)
    scope first_arg args :
  (forall a, In a args -> Refines (Visit a) (Visit' a)) ->
  forall i,
    Refines (VisitCallRuntimeArguments DEBUG Visit scope first_arg i args)
            (VisitCallRuntimeArguments false Visit' scope first_arg i args).
Proof.
  induction args as [|a args IH]; intros Ha i; simpl.
  - refines.
  - assert (Refines (Visit a) (Visit' a)) by (apply Ha; left; reflexivity).
    assert (forall j,
      Refines (VisitCallRuntimeArguments DEBUG Visit scope first_arg j args)
              (VisitCallRuntimeArguments false Visit' scope first_arg j args))
      by (intros j; apply IH; intros b Hb; apply Ha; right; exact Hb).
    refines.
Qed.

Lemma Refines_VisitExpression e :
  Refines (VisitExpression DEBUG info e) (VisitExpression false info e).
Proof.
  induction e as [e IH] using Expression_size_induction.
  destruct e; cbn [VisitExpression];
    try solve [ refines
              | unfold VisitVariableProxy; apply Refines_VisitVariableLoad ].
  - (* Assignment *)
    unfold VisitAssignment.
    destruct e1; refines; try (apply IH; smaller).
  - (* Property *)
    unfold VisitProperty. refines; try (apply IH; smaller).
    apply Refines_VisitPropertyLoad. apply IH; smaller.
  - (* Call *)
    unfold VisitCall.
    assert (Hargs : forall i scope receiver,
      Refines (VisitCallArguments DEBUG (VisitExpression DEBUG info)
                 scope receiver i arguments)
              (VisitCallArguments false (VisitExpression false info)
                 scope receiver i arguments)).
    { intros i scope receiver. apply Refines_VisitCallArguments.
      intros a Ha. apply IH. smaller. }
    destruct e; refines; try (apply IH; smaller).
    + apply Refines_VisitVariableLoad.
    + apply Refines_VisitPropertyLoad. apply IH; smaller.
  - (* CallRuntime *)
    unfold VisitCallRuntime.
    assert (Hargs : forall i scope first_arg,
      Refines (VisitCallRuntimeArguments DEBUG (VisitExpression DEBUG info)
                 scope first_arg i arguments)
              (VisitCallRuntimeArguments false (VisitExpression false info)
                 scope first_arg i arguments)).
    { intros i scope first_arg. apply Refines_VisitCallRuntimeArguments.
      intros a Ha. apply IH. smaller. }
    refines.
  - (* BinaryOperation *)
    unfold VisitBinaryOperation, VisitArithmeticExpression.
    refines; apply IH; smaller.
  - (* CompareOperation *)
    unfold VisitCompareOperation. refines; apply IH; smaller.
Qed.

Lemma Refines_VisitStatements (Visit Visit' : Statement -> M unit) statements :
  (forall s, In s statements -> Refines (Visit s) (Visit' s)) ->
  Refines (VisitStatements Visit statements)
          (VisitStatements Visit' statements).
Proof.
  induction statements as [|s statements IH]; intros Hs; simpl.
  - refines.
  - apply Refines_bind.
    + apply Hs. left. reflexivity.
    + intros _. apply IH. intros s' Hs'. apply Hs. right. exact Hs'.
Qed.

Lemma Refines_VisitStatement s :
  Refines (VisitStatement DEBUG info s) (VisitStatement false info s).
Proof.
  induction s as [s IH] using Statement_size_induction.
  destruct s; cbn [VisitStatement];
    try solve [ refines
              | unfold VisitExpressionStatement; apply Refines_VisitExpression ].
  - (* Block *)
    unfold VisitBlock.
    assert (Refines (VisitStatements (VisitStatement DEBUG info) statements)
                    (VisitStatements (VisitStatement false info) statements)).
    { apply Refines_VisitStatements. intros s Hs. apply IH. smaller. }
    refines.
  - (* SloppyBlockFunctionStatement *)
    unfold VisitSloppyBlockFunctionStatement. apply IH. smaller.
  - (* IfStatement *)
    unfold VisitIfStatement.
    refines; first [ apply Refines_VisitExpression | apply IH; smaller ].
  - (* ReturnStatement *)
    unfold VisitReturnStatement.
    refines; apply Refines_VisitExpression.
  - (* DoWhileStatement *)
    unfold VisitDoWhileStatement.
    refines; first [ apply Refines_VisitExpression | apply IH; smaller ].
  - (* WhileStatement *)
    unfold VisitWhileStatement.
    refines; first [ apply Refines_VisitExpression | apply IH; smaller ].
  - (* ForStatement *)
    unfold VisitForStatement.
    refines; first [ apply Refines_VisitExpression | apply IH; smaller ].
Qed.

End RefinesRules.

(** ** While and do-while loops *)

(** What follows the entry of a while or a do-while loop, once the loop
    builder, the control scope and the three labels are there. *)
Lemma loop_tail DEBUG info cond body loop_builder outer body_label
    condition_label done_label g g' :
  (Bind body_label ;;
   VisitStatement DEBUG info body ;;
   Bind condition_label ;;
   VisitExpression DEBUG info cond ;;
   JumpIfTrue body_label ;;
   Bind done_label ;;
   SetBreakTarget loop_builder done_label ;;
   SetContinueTarget loop_builder condition_label ;;
   ControlScope_delete outer)%gen g = Ok tt g' ->
  control_scope_ g' = outer /\
  exists body_code condition_code,
    (exists g1 g2,
       control_scope_ g1 = control_scope_ g /\
       VisitStatement DEBUG info body g1 = Ok tt g2 /\
       emitted g2 = emitted g1 ++ body_code) /\
    lowers (VisitExpression DEBUG info) cond condition_code /\
    emitted g'
    = emitted g
        ++ OpBind body_label :: body_code
        ++ OpBind condition_label :: condition_code
        ++ [OpJumpIfTrue body_label; OpBind done_label;
            OpBindTo done_label (break_target loop_builder);
            OpBindTo condition_label (continue_target loop_builder)].
Proof.
  intros H.
  apply bind_Ok in H. destruct H as ([] & g1 & Hb & H).
  apply bind_Ok in H. destruct H as ([] & g2 & Hbody & H).
  apply bind_Ok in H. destruct H as ([] & g3 & Hc & H).
  apply bind_Ok in H. destruct H as ([] & g4 & Hcond & H).
  autounfold with builder_ops in Hb, Hc. monad_inv Hb. monad_inv Hc.
  pose proof Hbody as Hbody'. pose proof Hcond as Hcond'.
  apply run_facts in Hbody;
    [ | apply Steady_VisitStatement | apply Balanced_VisitStatement ].
  destruct Hbody as (_ & _ & body_code & Hbc).
  apply run_facts in Hcond;
    [ | apply Steady_VisitExpression | apply Balanced_VisitExpression ].
  destruct Hcond as (_ & _ & condition_code & Hcc).
  monad_inv H. split; [ reflexivity | ].
  exists body_code, condition_code.
  split; [ eexists _, _; split; [ | split; [ exact Hbody' | exact Hbc ] ];
           reflexivity | ].
  split; [ eexists _, _; split; [ exact Hcond' | exact Hcc ] | ].
  unfold emitted in *. simpl in *. rewrite Hcc. simpl. rewrite Hbc. simpl.
  repeat first [ rewrite <- app_assoc | progress cbn [app] ]. reflexivity.
Qed.

(** X19. A while loop that is lowered successfully creates the two labels
    of its loop builder and three labels, [body], [condition] and [done].
    Its code jumps to [condition] first; then come the binding of [body],
    the code of the body, the binding of [condition], the code of the
    condition, the jump back to [body] when it is true and the binding of
    [done]; the break label takes the place of [done] and the continue
    label the place of [condition].  The body is lowered under the chain
    headed by the scope of this loop. *)
Theorem VisitWhileStatement_layout DEBUG info stmt cond body g g' :
  VisitStatement DEBUG info (WhileStatement stmt cond body) g = Ok tt g' ->
  let loop_builder := {| break_target := Label (next_label g);
                         continue_target := Label (next_label g + 1) |} in
  let body_label := Label (next_label g + 1 + 1) in
  let condition_label := Label (next_label g + 1 + 1 + 1) in
  let done_label := Label (next_label g + 1 + 1 + 1 + 1) in
  exists body_code condition_code,
    (exists g1 g2,
       control_scope_ g1
       = {| statement_ := stmt; loop_builder_ := loop_builder |}
           :: control_scope_ g /\
       VisitStatement DEBUG info body g1 = Ok tt g2 /\
       emitted g2 = emitted g1 ++ body_code) /\
    lowers (VisitExpression DEBUG info) cond condition_code /\
    emitted g'
    = emitted g
        ++ OpJump condition_label :: OpBind body_label :: body_code
        ++ OpBind condition_label :: condition_code
        ++ [OpJumpIfTrue body_label; OpBind done_label;
            OpBindTo done_label (break_target loop_builder);
            OpBindTo condition_label (continue_target loop_builder)].
Proof.
  intros H loop_builder body_label condition_label done_label.
  cbn [VisitStatement] in H. unfold VisitWhileStatement in H.
  apply bind_Ok in H. destruct H as (lb & g1 & Hlb & H).
  apply bind_Ok in H. destruct H as (outer & g2 & Hcs & H).
  apply bind_Ok in H. destruct H as (l1 & g3 & Hl1 & H).
  apply bind_Ok in H. destruct H as (l2 & g4 & Hl2 & H).
  apply bind_Ok in H. destruct H as (l3 & g5 & Hl3 & H).
  apply bind_Ok in H. destruct H as ([] & g6 & Hj & H).
  monad_inv Hlb. monad_inv Hcs. monad_inv Hl1. monad_inv Hl2. monad_inv Hl3.
  autounfold with builder_ops in Hj. monad_inv Hj.
  apply loop_tail in H.
  destruct H as (_ & body_code & condition_code & Hbody & Hcond & Hcode).
  exists body_code, condition_code.
  split; [ exact Hbody | ]. split; [ exact Hcond | ].
  rewrite Hcode. unfold emitted. simpl.
  repeat first [ rewrite <- app_assoc | progress cbn [app] ]. reflexivity.
Qed.

Lemma VisitWhileStatement_layout_witness :
  let g' := final (VisitStatement true (sample_info []) sample_while
                     nested_generator) in
  exists body_code condition_code,
    emitted g'
    = emitted nested_generator
        ++ OpJump (Label 14) :: OpBind (Label 13) :: body_code
        ++ OpBind (Label 14) :: condition_code
        ++ [OpJumpIfTrue (Label 13); OpBind (Label 15);
            OpBindTo (Label 15) (Label 11);
            OpBindTo (Label 14) (Label 12)].
Proof.
  intros g'.
  assert (Hrun : VisitStatement true (sample_info []) sample_while
                   nested_generator = Ok tt g')
    by (vm_compute; reflexivity).
  destruct (VisitWhileStatement_layout true (sample_info [])
              _ _ _ nested_generator g' Hrun)
    as (body_code & condition_code & _ & _ & Hcode).
  exists body_code, condition_code. exact Hcode.
Defined.

(** X20. A do-while loop that is lowered successfully creates the two
    labels of its loop builder and three labels, [body], [condition] and
    [done].  Its code begins with the binding of [body] and the code of the
    body, which so runs before the first test; then come the binding of
    [condition], the code of the condition, the jump back to [body] when it
    is true and the binding of [done]; the break label takes the place of
    [done] and the continue label the place of [condition].  The body is
    lowered under the chain headed by the scope of this loop. *)
Theorem VisitDoWhileStatement_layout DEBUG info stmt body cond g g' :
  VisitStatement DEBUG info (DoWhileStatement stmt body cond) g = Ok tt g' ->
  let loop_builder := {| break_target := Label (next_label g);
                         continue_target := Label (next_label g + 1) |} in
  let body_label := Label (next_label g + 1 + 1) in
  let condition_label := Label (next_label g + 1 + 1 + 1) in
  let done_label := Label (next_label g + 1 + 1 + 1 + 1) in
  exists body_code condition_code,
    (exists g1 g2,
       control_scope_ g1
       = {| statement_ := stmt; loop_builder_ := loop_builder |}
           :: control_scope_ g /\
       VisitStatement DEBUG info body g1 = Ok tt g2 /\
       emitted g2 = emitted g1 ++ body_code) /\
    lowers (VisitExpression DEBUG info) cond condition_code /\
    emitted g'
    = emitted g
        ++ OpBind body_label :: body_code
        ++ OpBind condition_label :: condition_code
        ++ [OpJumpIfTrue body_label; OpBind done_label;
            OpBindTo done_label (break_target loop_builder);
            OpBindTo condition_label (continue_target loop_builder)].
Proof.
  intros H loop_builder body_label condition_label done_label.
  cbn [VisitStatement] in H. unfold VisitDoWhileStatement in H.
  apply bind_Ok in H. destruct H as (lb & g1 & Hlb & H).
  apply bind_Ok in H. destruct H as (outer & g2 & Hcs & H).
  apply bind_Ok in H. destruct H as (l1 & g3 & Hl1 & H).
  apply bind_Ok in H. destruct H as (l2 & g4 & Hl2 & H).
  apply bind_Ok in H. destruct H as (l3 & g5 & Hl3 & H).
  monad_inv Hlb. monad_inv Hcs. monad_inv Hl1. monad_inv Hl2. monad_inv Hl3.
  apply loop_tail in H.
  destruct H as (_ & body_code & condition_code & Hbody & Hcond & Hcode).
  exists body_code, condition_code.
  split; [ exact Hbody | ]. split; [ exact Hcond | ].
  exact Hcode.
Qed.

Lemma VisitDoWhileStatement_layout_witness :
  let g' := final (VisitStatement true (sample_info []) sample_do_while
                     nested_generator) in
  exists body_code condition_code,
    emitted g'
    = emitted nested_generator
        ++ OpBind (Label 13) :: body_code
        ++ OpBind (Label 14) :: condition_code
        ++ [OpJumpIfTrue (Label 13); OpBind (Label 15);
            OpBindTo (Label 15) (Label 11);
            OpBindTo (Label 14) (Label 12)].
Proof.
  intros g'.
  assert (Hrun : VisitStatement true (sample_info []) sample_do_while
                   nested_generator = Ok tt g')
    by (vm_compute; reflexivity).
  destruct (VisitDoWhileStatement_layout true (sample_info [])
              _ _ _ nested_generator g' Hrun)
    as (body_code & condition_code & _ & _ & Hcode).
  exists body_code, condition_code. exact Hcode.
Defined.

(** X21. The checks of a debug build only reject: whatever program a pass
    returns with the checks on, the pass without them returns the same
    program, in the same state. *)
Theorem checks_only_reject DEBUG info g program g' :
  MakeBytecode DEBUG info g = Ok program g' ->
  MakeBytecode false info g = Ok program g'.
Proof.
  revert g program g'. change (Refines (MakeBytecode DEBUG info)
                                       (MakeBytecode false info)).
  unfold MakeBytecode.
  assert (Refines
            (VisitStatements (VisitStatement DEBUG info) (literal_body info))
            (VisitStatements (VisitStatement false info) (literal_body info))).
  { apply Refines_VisitStatements. intros s _. apply Refines_VisitStatement. }
  refines.
Qed.

Lemma checks_only_reject_witness :
  let o := MakeBytecode true (sample_info [counted_loop; sample_if])
             (BytecodeGenerator_new 0) in
  MakeBytecode false (sample_info [counted_loop; sample_if])
    (BytecodeGenerator_new 0) = o.
Proof.
  intros o.
  destruct o as [program g'|f g'] eqn:Hrun;
    [ | vm_compute in Hrun; discriminate Hrun ].
  exact (checks_only_reject true _ _ program g' Hrun).
Defined.

(** X22. A build without checks lowers an assignment to a variable the same
    whatever the location of the variable: the outcome depends on the index
    of the variable only, so a parameter or a global is written as if it
    were the local of that index. *)
Theorem unchecked_assignment_ignores_location info is_compound variable
    variable' value slot g :
  index variable = index variable' ->
  VisitExpression false info
    (Assignment is_compound (VariableProxy variable) value slot) g
  = VisitExpression false info
      (Assignment is_compound (VariableProxy variable') value slot) g.
Proof.
  intros Hi. cbn [VisitExpression]. unfold VisitAssignment.
  cbn [GetAssignType IsValidReferenceExpression]. unfold DCHECK.
  cbn [andb]. rewrite Hi. reflexivity.
Qed.

Lemma unchecked_assignment_ignores_location_witness :
  VisitExpression false (sample_info [])
    (Assignment false (VariableProxy (parameter_variable 1))
       (Literal (Smi 5)) 6) nested_generator
  = VisitExpression false (sample_info []) sample_variable_assignment
      nested_generator.
Proof.
  apply (unchecked_assignment_ignores_location (sample_info []) false
           (parameter_variable 1) (local_variable 1)).
  reflexivity.
Defined.

(** ** Null pointers *)

Section SoundRules.

Variable Inv : list ControlScope -> Prop.

Lemma Sound_ret {A} (Q : A -> Prop) a : Q a -> Sound Inv Inv Q (ret a).
Proof. intros Ha g Hg. simpl. split; assumption. Qed.

Lemma Sound_fail Post {A} (Q : A -> Prop) f :
  f <> NullDereference -> Sound Inv Post Q (fail f).
Proof. intros Hf g Hg. exact Hf. Qed.

Lemma Sound_bind Mid Post {A B} (Q : A -> Prop) (Q' : B -> Prop) (m : M A)
    (k : A -> M B) :
  Sound Inv Mid Q m ->
  (forall a, Q a -> Sound Mid Post Q' (k a)) ->
  Sound Inv Post Q' (bind m k).
Proof.
  intros Hm Hk g Hg. unfold bind. specialize (Hm g Hg).
  destruct (m g) as [a g1|f g1]; [ | exact Hm ].
  destruct Hm as [Ha Hg1]. exact (Hk a Ha g1 Hg1).
Qed.

Lemma Sound_any Post {A} (Q : A -> Prop) (m : M A) :
  Sound Inv Post Q m -> Sound Inv Post (fun _ => True) m.
Proof.
  intros Hm g Hg. specialize (Hm g Hg). destruct (m g) as [a g1|f g1].
  - destruct Hm as [_ Hg1]. split; [ exact I | exact Hg1 ].
  - exact Hm.
Qed.

(** A computation that always succeeds and leaves the chain alone. *)
Lemma Sound_quiet {A} (m : M A) :
  (forall g, exists a g', m g = Ok a g' /\ control_scope_ g' = control_scope_ g) ->
  Sound Inv Inv (fun _ => True) m.
Proof.
  intros H g Hg. destruct (H g) as (a & g' & -> & Hc).
  split; [ exact I | rewrite Hc; exact Hg ].
Qed.

Lemma Sound_Emit op : Sound Inv Inv (fun _ => True) (Emit op).
Proof. apply Sound_quiet. intros g. eexists _, _. split; reflexivity. Qed.

Lemma Sound_set_frontier n : Sound Inv Inv (fun _ => True) (set_frontier n).
Proof. apply Sound_quiet. intros g. eexists _, _. split; reflexivity. Qed.

Lemma Sound_open : Sound Inv Inv (fun _ => True) TemporaryRegisterScope_open.
Proof. apply Sound_quiet. intros g. eexists _, _. split; reflexivity. Qed.

Lemma Sound_NewRegister scope :
  Sound Inv Inv (fun _ => True) (NewRegister scope).
Proof. apply Sound_quiet. intros g. eexists _, _. split; reflexivity. Qed.

Lemma Sound_NewLabel : Sound Inv Inv (fun _ => True) NewLabel.
Proof. apply Sound_quiet. intros g. eexists _, _. split; reflexivity. Qed.

Lemma Sound_control_scope : Sound Inv Inv Inv control_scope.
Proof. intros g Hg. simpl. split; exact Hg. Qed.

(** Entering a control scope, and leaving it for the chain [outer]. *)
Lemma Sound_enter_scope current outer :
  Sound Inv in_a_loop (fun _ => True) (set_control_scope (current :: outer)).
Proof. intros g Hg. simpl. split; [ exact I | discriminate ]. Qed.

Lemma Sound_leave_scope Post outer :
  Post outer -> Sound Inv Post (fun _ => True) (set_control_scope outer).
Proof. intros Hc g Hg. simpl. split; [ exact I | exact Hc ]. Qed.

(** A check that a debug build has passed holds. *)
Lemma Sound_DCHECK c : Sound Inv Inv (fun _ => c = true) (DCHECK true c).
Proof.
  intros g Hg. unfold DCHECK. destruct c; simpl.
  - split; [ reflexivity | exact Hg ].
  - discriminate.
Qed.

End SoundRules.

Ltac destruct_head x :=
  lazymatch x with
  | match ?y with _ => _ end => destruct_head y
  | _ => destruct x eqn:?
  end.

Ltac sound_child :=
  match goal with
  | IH : forall c, (Expression_size c < _)%nat -> _ |- _ =>
      apply IH; smaller
  | IH : forall c, (Statement_size c < _)%nat -> _ |- _ =>
      apply IH; smaller
  end.

Ltac sound_step :=
  lazymatch goal with
  | |- Sound ?Pre _ _ (bind ?m _) =>
      lazymatch m with
      | DCHECK true ?c =>
          eapply (Sound_bind Pre _ _ (fun _ => c = true));
          [ apply Sound_DCHECK | intros ? ? ]
      | ret None =>
          eapply (Sound_bind Pre _ _ (fun _ => True));
          [ apply Sound_ret; exact I | intros ? _ ]
      | _ =>
          let T := type of m in
          lazymatch eval cbv [M] in T with
          | _ -> Outcome (option (Register * Register)) =>
              eapply (Sound_bind Pre _ _
                        (fun object_key => object_key <> None));
              [ | intros ? ? ]
          | _ -> Outcome (list ControlScope) =>
              eapply (Sound_bind Pre _ _ Pre); [ | intros ? ? ]
          | _ =>
              eapply (Sound_bind Pre _ _ (fun _ => True)); [ | intros ? _ ]
          end
      end
  | |- Sound _ _ _ (match ?x with _ => _ end) =>
      destruct_head x; cbv beta iota
  | |- Sound _ _ _ (ret _) =>
      apply Sound_ret; first [ exact I | discriminate | assumption ]
  | |- Sound _ _ _ (fail _) =>
      first [ apply Sound_fail; discriminate
            | exfalso; simpl in *; congruence ]
  | |- Sound _ _ _ (Emit _) => apply Sound_Emit
  | |- Sound _ _ _ (set_frontier _) => apply Sound_set_frontier
  | |- Sound _ _ _ TemporaryRegisterScope_open => apply Sound_open
  | |- Sound _ _ _ (NewRegister _) => apply Sound_NewRegister
  | |- Sound _ _ _ NewLabel => apply Sound_NewLabel
  | |- Sound _ _ _ control_scope => apply Sound_control_scope
  | |- Sound _ _ _ (set_control_scope (_ :: _)) => apply Sound_enter_scope
  | |- Sound _ _ _ (set_control_scope _) =>
      apply Sound_leave_scope; assumption
  | |- Sound _ _ _ (DCHECK true _) =>
      eapply Sound_any; apply Sound_DCHECK
  | |- Sound _ _ _ _ => first [ eassumption | solve [ eauto ] | sound_child ]
  end.

Ltac sound := autounfold with builder_ops; cbv zeta; repeat sound_step.

Section SoundExpressions.

Variable info : CompilationInfo.
Variable Inv : list ControlScope -> Prop.

Lemma Sound_VisitVariableLoad v :
  Sound Inv Inv (fun _ => True) (VisitVariableLoad true v).
Proof. unfold VisitVariableLoad. sound. Qed.

Lemma Sound_VisitLiteral v : Sound Inv Inv (fun _ => True) (VisitLiteral v).
Proof. unfold VisitLiteral. sound. Qed.

Lemma Sound_VisitPropertyLoad (Visit : Expression -> M unit) object obj key
    slot :
  Sound Inv Inv (fun _ => True) (Visit key) ->
  Sound Inv Inv (fun _ => True) (VisitPropertyLoad info Visit object obj key slot).
Proof.
  intros Hk. unfold VisitPropertyLoad, GetAssignType. sound.
Qed.

Lemma Sound_VisitCallArguments (Visit : Expression -> M unit) scope receiver
    args :
  (forall a, In a args -> Sound Inv Inv (fun _ => True) (Visit a)) ->
  forall i,
    Sound Inv Inv (fun _ => True)
      (VisitCallArguments true Visit scope receiver i args).
Proof.
  induction args as [|a args IH]; intros Ha i; simpl.
  - sound.
  - assert (Sound Inv Inv (fun _ => True) (Visit a))
      by (apply Ha; left; reflexivity).
    assert (forall j,
      Sound Inv Inv (fun _ => True)
        (VisitCallArguments true Visit scope receiver j args))
      by (intros j; apply IH; intros b Hb; apply Ha; right; exact Hb).
    sound.
Qed.

Lemma Sound_VisitCallRuntimeArguments (Visit : Expression -> M unit) scope
    first_arg args :
  (forall a, In a args -> Sound Inv Inv (fun _ => True) (Visit a)) ->
  forall i,
    Sound Inv Inv (fun _ => True)
      (VisitCallRuntimeArguments true Visit scope first_arg i args).
Proof.
  induction args as [|a args IH]; intros Ha i; simpl.
  - sound.
  - assert (Sound Inv Inv (fun _ => True) (Visit a))
      by (apply Ha; left; reflexivity).
    assert (forall j,
      Sound Inv Inv (fun _ => True)
        (VisitCallRuntimeArguments true Visit scope first_arg j args))
      by (intros j; apply IH; intros b Hb; apply Ha; right; exact Hb).
    sound.
Qed.

Lemma Sound_VisitExpression e :
  Sound Inv Inv (fun _ => True) (VisitExpression true info e).
Proof.
  induction e as [e IH] using Expression_size_induction.
  destruct e; cbn [VisitExpression];
    try solve [ sound
              | unfold VisitVariableProxy; apply Sound_VisitVariableLoad
              | apply Sound_VisitLiteral ].
  - (* Assignment *)
    unfold VisitAssignment. sound_step.
    destruct e1; try discriminate;
      unfold GetAssignType; sound.
  - (* Property *)
    unfold VisitProperty. sound.
    apply Sound_VisitPropertyLoad. sound.
  - (* Call *)
    unfold VisitCall.
    assert (Hargs : forall i scope receiver,
      Sound Inv Inv (fun _ => True)
        (VisitCallArguments true (VisitExpression true info)
           scope receiver i arguments)).
    { intros i scope receiver. apply Sound_VisitCallArguments.
      intros a Ha. sound. }
    destruct e; unfold GetCallType; sound.
    + apply Sound_VisitVariableLoad.
    + apply Sound_VisitVariableLoad.
    + apply Sound_VisitPropertyLoad. sound.
  - (* CallRuntime *)
    unfold VisitCallRuntime.
    assert (Hargs : forall i scope first_arg,
      Sound Inv Inv (fun _ => True)
        (VisitCallRuntimeArguments true (VisitExpression true info)
           scope first_arg i arguments)).
    { intros i scope first_arg. apply Sound_VisitCallRuntimeArguments.
      intros a Ha. sound. }
    sound.
  - (* BinaryOperation *)
    unfold VisitBinaryOperation, VisitArithmeticExpression. sound.
  - (* CompareOperation *)
    unfold VisitCompareOperation. sound.
Qed.

End SoundExpressions.

Section SoundStatements.

Variable info : CompilationInfo.

Lemma Sound_PerformCommand Inv command statement outer :
  forall current,
    Sound Inv Inv (fun _ => True)
      (PerformCommand current outer command statement).
Proof.
  induction outer as [|next outer IH]; intros current; simpl;
    unfold Execute; sound.
Qed.

Lemma Sound_VisitDeclarations Inv decls :
  Sound Inv Inv (fun _ => True) (VisitDeclarations decls).
Proof.
  induction decls as [|d decls IH]; simpl.
  - sound.
  - destruct d as [v| | |]; simpl;
      unfold VisitVariableDeclaration, VisitFunctionDeclaration,
        VisitImportDeclaration, VisitExportDeclaration; sound.
Qed.

Lemma Sound_VisitStatements Inv (Visit : Statement -> M unit) statements :
  (forall s, In s statements -> Sound Inv Inv (fun _ => True) (Visit s)) ->
  Sound Inv Inv (fun _ => True) (VisitStatements Visit statements).
Proof.
  induction statements as [|s statements IH]; intros Hs; simpl.
  - sound.
  - eapply Sound_bind.
    + apply Hs. left. reflexivity.
    + intros _ _. apply IH. intros s' Hs'. apply Hs. right. exact Hs'.
Qed.

(** Under a chain with a loop in it. *)
Lemma Sound_VisitStatement_in_a_loop s :
  Sound in_a_loop in_a_loop (fun _ => True) (VisitStatement true info s).
Proof.
  induction s as [s IH] using Statement_size_induction.
  pose proof (Sound_VisitExpression info in_a_loop) as Hexp.
  pose proof (Sound_VisitDeclarations in_a_loop) as Hdecl.
  pose proof (Sound_PerformCommand in_a_loop) as Hcmd.
  destruct s; cbn [VisitStatement];
    try solve [ unfold VisitExpressionStatement, VisitEmptyStatement,
                  VisitReturnStatement, VisitContinueStatement,
                  VisitBreakStatement, ControlScope_Continue,
                  ControlScope_Break, in_a_loop in *; sound ].
  - (* Block *)
    unfold VisitBlock.
    assert (Sound in_a_loop in_a_loop (fun _ => True)
              (VisitStatements (VisitStatement true info) statements)).
    { apply Sound_VisitStatements. intros s Hs. apply IH. smaller. }
    sound.
  - (* IfStatement *)
    unfold VisitIfStatement. sound.
  - (* DoWhileStatement *)
    unfold VisitDoWhileStatement. sound.
  - (* WhileStatement *)
    unfold VisitWhileStatement. sound.
  - (* ForStatement *)
    unfold VisitForStatement. sound.
Qed.

(** Under any chain, when the jumps of the statement lie in its loops. *)
Lemma Sound_VisitStatement_enclosed Inv s :
  jumps_enclosed s = true ->
  Sound Inv Inv (fun _ => True) (VisitStatement true info s).
Proof.
  induction s as [s IH] using Statement_size_induction. intros Hs.
  pose proof (Sound_VisitExpression info) as Hexp.
  pose proof (Sound_VisitDeclarations Inv) as Hdecl.
  pose proof Sound_VisitStatement_in_a_loop as Hloop.
  destruct s; cbn [VisitStatement]; try discriminate Hs;
    try solve [ unfold VisitExpressionStatement, VisitEmptyStatement,
                  VisitReturnStatement; sound ].
  - (* Block *)
    unfold VisitBlock.
    assert (Sound Inv Inv (fun _ => True)
              (VisitStatements (VisitStatement true info) statements)).
    { apply Sound_VisitStatements. intros s Hin. apply IH; [ smaller | ].
      cbn [jumps_enclosed] in Hs. rewrite forallb_forall in Hs.
      apply Hs. exact Hin. }
    sound.
  - (* IfStatement *)
    cbn [jumps_enclosed] in Hs. apply andb_prop in Hs. destruct Hs as [Ht He].
    assert (Sound Inv Inv (fun _ => True) (VisitStatement true info s))
      by (apply IH; [ smaller | exact Ht ]).
    unfold VisitIfStatement. sound.
    apply IH; [ smaller | exact He ].
  - (* DoWhileStatement *)
    unfold VisitDoWhileStatement. sound.
  - (* WhileStatement *)
    unfold VisitWhileStatement. sound.
  - (* ForStatement *)
    unfold VisitForStatement. sound.
Qed.

End SoundStatements.

Lemma Sound_failure_of Pre Post {A} (Q : A -> Prop) (m : M A) g :
  Sound Pre Post Q m ->
  Pre (control_scope_ g) ->
  failure_of (m g) <> Some NullDereference.
Proof.
  intros Hm Hg. specialize (Hm g Hg). destruct (m g) as [a g'|f g']; simpl.
  - discriminate.
  - intros E. inversion E. contradiction.
Qed.

(** X23. With the checks of a debug build on, lowering an expression does
    not dereference a null pointer: the node casts of the assignment, call
    and property rules are applied to nodes of the right kind only. *)
Theorem checked_expression_never_dereferences_null info e g :
  failure_of (VisitExpression true info e g) <> Some NullDereference.
Proof.
  apply (Sound_failure_of (fun _ => True) (fun _ => True) (fun _ => True)).
  - apply Sound_VisitExpression.
  - exact I.
Qed.

(** X24. With the checks of a debug build on, lowering a statement does
    not dereference a null pointer when it begins inside a loop or when
    each of its [break] and [continue] statements lies in one of its
    loops. *)
Theorem checked_statement_never_dereferences_null info s g :
  control_scope_ g <> [] \/ jumps_enclosed s = true ->
  failure_of (VisitStatement true info s g) <> Some NullDereference.
Proof.
  intros [Hg|Hs].
  - apply (Sound_failure_of in_a_loop in_a_loop (fun _ => True)).
    + apply Sound_VisitStatement_in_a_loop.
    + exact Hg.
  - apply (Sound_failure_of (fun _ => True) (fun _ => True) (fun _ => True)).
    + apply Sound_VisitStatement_enclosed. exact Hs.
    + exact I.
Qed.

Lemma checked_statement_never_dereferences_null_witness :
  failure_of (VisitStatement true (sample_info []) (BreakStatement 3)
                nested_generator)
  <> Some NullDereference.
Proof.
  apply checked_statement_never_dereferences_null.
  left. discriminate.
Defined.

(** A [break] outside of every loop goes through the null chain of control
    scopes, with the checks on or off. *)
Example break_outside_of_loops DEBUG info target :
  VisitStatement DEBUG info (BreakStatement target) (BytecodeGenerator_new 0)
  = Abort NullDereference (BytecodeGenerator_new 0).
Proof. reflexivity. Qed.

(** Without the checks, an assignment to what is no reference goes through
    a null variable proxy, once the value has been lowered. *)
Example unchecked_assignment_to_a_literal :
  failure_of (VisitExpression false (sample_info [])
                (Assignment false (Literal (Smi 1)) (Literal (Smi 2)) 0)
                nested_generator)
  = Some NullDereference.
Proof. reflexivity. Qed.

(** X25. With the checks of a debug build on, a pass over a function body
    whose [break] and [continue] statements all lie in loops does not
    dereference a null pointer. *)
Theorem checked_pass_never_dereferences_null info g :
  forallb jumps_enclosed (literal_body info) = true ->
  failure_of (MakeBytecode true info g) <> Some NullDereference.
Proof.
  intros Hbody.
  apply (Sound_failure_of (fun _ => True) (fun _ => True) (fun _ => True));
    [ | exact I ].
  unfold MakeBytecode.
  assert (Sound (fun _ => True) (fun _ => True) (fun _ => True)
            (VisitStatements (VisitStatement true info) (literal_body info))).
  { apply Sound_VisitStatements. intros s Hs.
    apply Sound_VisitStatement_enclosed.
    rewrite forallb_forall in Hbody. apply Hbody. exact Hs. }
  pose proof (Sound_VisitDeclarations (fun _ => True)) as Hdecl.
  assert (Hq : forall (m : M unit),
             (forall g0, exists g1,
                m g0 = Ok tt g1 /\ control_scope_ g1 = control_scope_ g0) ->
             Sound (fun _ => True) (fun _ => True) (fun _ => True) m).
  { intros m Hm. apply Sound_quiet. intros g0.
    destruct (Hm g0) as (g1 & E & Hc). exists tt, g1. split; assumption. }
  unfold VisitVariableDeclaration.
  sound;
    try (apply Hq; intros g0; eexists; split; reflexivity).
  apply Sound_quiet. intros g0. eexists _, _. split; reflexivity.
Qed.

Lemma checked_pass_never_dereferences_null_witness :
  failure_of (MakeBytecode true (sample_info [counted_loop; sample_if])
                (BytecodeGenerator_new 0))
  <> Some NullDereference.
Proof.
  apply checked_pass_never_dereferences_null. reflexivity.
Defined.
